(** * ida-chat-cpp: the conversation engine, embedded and verified

    A shallow embedding of the streaming parser, the directive scanner,
    the request serializer, the API client's usage accounting and the
    agent loop of ida-chat-cpp, with the properties its specification
    states about them.

    Conventions of the embedding:
    - [std::string] is [string] (a list of 8-bit characters);
    - [std::vector<T>] is [list T], of unbounded size;
    - [std::optional<T>] is [option T];
    - [int] and [std::int64_t] are [Z], with the wrap-around written out
      where the code does arithmetic on them;
    - an exception that the code catches is a [None] result;
    - a callback or an external capability is recorded in a trace. *)

From Stdlib Require Import ZArith QArith Lia Ascii.
From Equations Require Import Equations.
From stdpp Require Import gmap strings list pretty.

Close Scope Q_scope.
Local Open Scope nat_scope.

(** ** Strings: the [std::string] operations the code uses *)

Module Str.

Definition HT : ascii := "009"%char.
Definition LF : ascii := "010"%char.
Definition VT : ascii := "011"%char.
Definition FF : ascii := "012"%char.
Definition CR : ascii := "013"%char.
Definition SP : ascii := " "%char.
Definition DQ : ascii := "034"%char.

(** [s.size()] *)
Abbreviation size := String.length.

(** The first [n] characters of [s] (all of [s] when it is shorter). *)
Fixpoint take (n : nat) (s : string) : string :=
  match n, s with
  | S n', String c s' => String c (take n' s')
  | _, _ => ""
  end.

(** [s.erase(0, n)], also [s.substr(n)]. *)
Fixpoint drop (n : nat) (s : string) : string :=
  match n, s with
  | S n', String _ s' => drop n' s'
  | _, _ => s
  end.

(** [s.substr(pos, len)] for [pos <= s.size()]. *)
Definition substr (s : string) (pos len : nat) : string :=
  take len (drop pos s).

(** [s.find(pat)]: the offset of the first occurrence, [None] for [npos]. *)
Fixpoint find (pat s : string) : option nat :=
  if String.prefix pat s then Some 0
  else match s with
       | "" => None
       | String _ s' => S <$> find pat s'
       end.

(** [s.find(c)] for a character [c]. *)
Definition find_char (c : ascii) (s : string) : option nat :=
  find (String c "") s.

(** [c] occurs in the character set [chars]. *)
Fixpoint mem (c : ascii) (chars : string) : bool :=
  match chars with
  | "" => false
  | String d chars' => if Ascii.eqb c d then true else mem c chars'
  end.

(** [s.find_first_not_of(chars)] *)
Fixpoint find_first_not_of (chars s : string) : option nat :=
  match s with
  | "" => None
  | String c s' =>
      if mem c chars then S <$> find_first_not_of chars s' else Some 0
  end.

(** [s.find_last_not_of(chars)] *)
Fixpoint find_last_not_of (chars s : string) : option nat :=
  match s with
  | "" => None
  | String c s' =>
      match find_last_not_of chars s' with
      | Some i => Some (S i)
      | None => if mem c chars then None else Some 0
      end
  end.

(** [s.back()] of a non-empty string. *)
Fixpoint back (s : string) : option ascii :=
  match s with
  | "" => None
  | String c "" => Some c
  | String _ s' => back s'
  end.

(** [s.pop_back()] *)
Fixpoint pop_back (s : string) : string :=
  match s with
  | "" => ""
  | String _ "" => ""
  | String c s' => String c (pop_back s')
  end.

(** The characters of [" \t\n\r\f\v"]. *)
Definition WHITESPACE : string :=
  String SP (String HT (String LF (String CR (String FF (String VT ""))))).

(** [trim] of core/types.cpp.  [find_last_not_of] cannot fail once
    [find_first_not_of] has succeeded; in that (unreachable) case the
    count [npos - start + 1] would reach the end of the string. *)
Definition trim (s : string) : string :=
  match find_first_not_of WHITESPACE s with
  | None => ""
  | Some start =>
      match find_last_not_of WHITESPACE s with
      | Some e => substr s start (e - start + 1)
      | None => drop start s
      end
  end.

Lemma app_nil_l (s : string) : "" +:+ s = s.
Proof. reflexivity. Qed.

Lemma app_cons (c : ascii) (s t : string) :
  String c s +:+ t = String c (s +:+ t).
Proof. reflexivity. Qed.

Lemma app_nil_r (s : string) : s +:+ "" = s.
Proof. induction s as [|c s IH]; [reflexivity|]. now rewrite app_cons, IH. Qed.

Lemma app_assoc (s t u : string) : (s +:+ t) +:+ u = s +:+ t +:+ u.
Proof.
  induction s as [|c s IH]; [reflexivity|].
  now rewrite !app_cons, IH.
Qed.

Lemma size_app (s t : string) : size (s +:+ t) = size s + size t.
Proof.
  induction s as [|c s IH]; [reflexivity|].
  rewrite app_cons. simpl. now rewrite IH.
Qed.

Lemma size_drop (n : nat) (s : string) : size (drop n s) = size s - n.
Proof.
  revert s; induction n as [|n IH]; intros [|c s]; simpl; auto with arith.
Qed.

Lemma size_take (n : nat) (s : string) : size (take n s) = Nat.min n (size s).
Proof.
  revert s; induction n as [|n IH]; intros [|c s]; simpl; auto.
Qed.

Lemma take_drop (n : nat) (s : string) : take n s +:+ drop n s = s.
Proof.
  revert s; induction n as [|n IH]; intros [|c s]; simpl; auto.
  now rewrite app_cons, IH.
Qed.

Lemma drop_drop (n m : nat) (s : string) : drop n (drop m s) = drop (m + n) s.
Proof.
  revert s; induction m as [|m IH]; intros [|c s]; simpl; auto.
  now destruct n.
Qed.

Lemma drop_app_size (s t : string) : drop (size s) (s +:+ t) = t.
Proof. induction s as [|c s IH]; [now destruct t|]. now rewrite app_cons. Qed.

Lemma take_app_size (s t : string) : take (size s) (s +:+ t) = s.
Proof.
  induction s as [|c s IH]; [now destruct t|].
  rewrite app_cons. simpl. now rewrite IH.
Qed.

Lemma drop_all (s : string) : drop (size s) s = "".
Proof. induction s; simpl; auto. Qed.

Lemma prefix_app (p s : string) : String.prefix p (p +:+ s) = true.
Proof.
  induction p as [|c p IH]; [now destruct s|].
  rewrite app_cons. simpl. now destruct (ascii_dec c c).
Qed.

Lemma prefix_split (p s : string) :
  String.prefix p s = true -> s = p +:+ drop (size p) s.
Proof.
  revert s; induction p as [|c p IH]; intros s H; [now destruct s|].
  destruct s as [|d s]; [discriminate|].
  simpl in H. destruct (ascii_dec c d) as [->|]; [|discriminate].
  rewrite app_cons. simpl. f_equal. now apply IH.
Qed.

(** Whether [p] is a prefix of [s ++ t] is decided within [s] once [s]
    is at least as long as [p]. *)
Lemma prefix_app_long (p s t : string) :
  size p <= size s -> String.prefix p (s +:+ t) = String.prefix p s.
Proof.
  revert s; induction p as [|c p IH]; intros s H.
  - destruct s; [now destruct t|reflexivity].
  - destruct s as [|d s]; [simpl in H; lia|].
    rewrite app_cons. simpl. destruct (ascii_dec c d); [|reflexivity].
    apply IH. simpl in H. lia.
Qed.

Lemma find_unfold (pat s : string) :
  find pat s =
  if String.prefix pat s then Some 0
  else match s with
       | "" => None
       | String _ s' => S <$> find pat s'
       end.
Proof. now destruct s. Qed.

Lemma find_prefix (pat s : string) : find pat (pat +:+ s) = Some 0.
Proof. now rewrite find_unfold, prefix_app. Qed.

Lemma find_Some_split (pat s : string) (i : nat) :
  find pat s = Some i -> s = take i s +:+ pat +:+ drop (i + size pat) s.
Proof.
  revert i; induction s as [|c s IH]; intros i; rewrite find_unfold;
    destruct (String.prefix pat _) eqn:Hp.
  - intros [= <-]. now apply prefix_split in Hp.
  - discriminate.
  - intros [= <-]. now apply prefix_split in Hp.
  - destruct (find pat s) as [j|] eqn:Hj; [|discriminate].
    intros [= <-]. simpl. rewrite app_cons. f_equal. now apply IH.
Qed.

Lemma prefix_size (p s : string) :
  String.prefix p s = true -> size p <= size s.
Proof.
  intros H. apply prefix_split in H.
  assert (Hs : size s = size (p +:+ drop (size p) s)) by now rewrite <- H.
  rewrite size_app in Hs. lia.
Qed.

Lemma find_bound (pat s : string) (i : nat) :
  find pat s = Some i -> i + size pat <= size s.
Proof.
  revert i; induction s as [|c s IH]; intros i; rewrite find_unfold;
    destruct (String.prefix pat _) eqn:Hp; try discriminate.
  - intros [= <-]. now apply prefix_size in Hp.
  - intros [= <-]. now apply prefix_size in Hp.
  - destruct (find pat s) as [j|] eqn:Hj; [|discriminate].
    intros [= <-]. specialize (IH j eq_refl). simpl. lia.
Qed.

(** A pattern occurring in a string is found, at or before the
    occurrence. *)
Lemma find_app_le (pat a c : string) :
  exists i, find pat (a +:+ pat +:+ c) = Some i /\ i <= size a.
Proof.
  induction a as [|x a IH].
  - rewrite app_nil_l, find_prefix. exists 0. split; [reflexivity|lia].
  - rewrite find_unfold, app_cons.
    destruct (String.prefix pat _); [exists 0; split; [reflexivity|lia]|].
    destruct IH as (j & -> & Hj). exists (S j). split; [reflexivity|simpl; lia].
Qed.

(** An occurrence that is the first one in [a ++ pat] stays the first
    one when more text follows. *)
Lemma find_app_first (pat a c : string) :
  find pat (a +:+ pat) = Some (size a) ->
  find pat (a +:+ pat +:+ c) = Some (size a).
Proof.
  induction a as [|x a IH]; intros H.
  - now rewrite app_nil_l, find_prefix.
  - rewrite find_unfold in H. rewrite find_unfold.
    rewrite <- (app_assoc (String x a) pat c), prefix_app_long
      by (rewrite size_app; simpl; lia).
    destruct (String.prefix pat (String x a +:+ pat)); [discriminate|].
    rewrite app_assoc, !app_cons in *.
    destruct (find pat (a +:+ pat)) as [j|] eqn:Hj; [|discriminate].
    simpl in H. injection H as ->. now rewrite IH.
Qed.

Lemma find_app_Some (pat s t : string) (i : nat) :
  find pat s = Some i -> find pat (s +:+ t) = Some i.
Proof.
  revert i; induction s as [|c s IH]; intros i; rewrite find_unfold.
  - destruct (String.prefix pat "") eqn:Hp; [|discriminate].
    intros [= <-]. destruct pat; [|discriminate]. now destruct t.
  - destruct (String.prefix pat (String c s)) eqn:Hp.
    + intros [= <-]. rewrite find_unfold.
      rewrite prefix_app_long, Hp by now apply prefix_size. reflexivity.
    + destruct (find pat s) as [j|] eqn:Hj; [|discriminate].
      intros [= <-]. rewrite find_unfold.
      rewrite prefix_app_long, Hp
        by (apply find_bound in Hj; simpl; lia).
      rewrite app_cons, (IH j eq_refl). reflexivity.
Qed.

Lemma drop_app_size_plus (n : nat) (s t : string) :
  drop (size s + n) (s +:+ t) = drop n t.
Proof. induction s as [|c s IH]; [reflexivity|]. now rewrite app_cons. Qed.

Lemma find_self (pat : string) : find pat pat = Some 0.
Proof.
  pose proof (find_prefix pat "") as H. now rewrite app_nil_r in H.
Qed.

(** The first occurrence of a pattern is the only one in the text up to
    its end. *)
Lemma find_take (pat s : string) (i : nat) :
  find pat s = Some i ->
  find pat (take i s +:+ pat) = Some (size (take i s)).
Proof.
  revert i; induction s as [|c s IH]; intros i; rewrite find_unfold;
    destruct (String.prefix pat _) eqn:Hp; try discriminate.
  - intros [= <-]. apply find_self.
  - intros [= <-]. apply find_self.
  - destruct (find pat s) as [j|] eqn:Hj; [|discriminate].
    intros [= <-]. simpl take. rewrite app_cons, find_unfold.
    pose proof (find_Some_split _ _ _ Hj) as Hs.
    assert (Hpre : String.prefix pat (String c (take j s +:+ pat)) = false).
    { assert (Hcs : String c s
                    = String c (take j s +:+ pat) +:+ drop (j + size pat) s).
      { rewrite app_cons. f_equal. rewrite app_assoc. exact Hs. }
      rewrite Hcs in Hp. rewrite prefix_app_long in Hp; [exact Hp|].
      simpl. rewrite size_app. lia. }
    rewrite Hpre, (IH j eq_refl). reflexivity.
Qed.

Lemma take_app_le (n : nat) (s t : string) :
  n <= size s -> take n (s +:+ t) = take n s.
Proof.
  revert s; induction n as [|n IH]; intros s H.
  - now destruct s, t.
  - destruct s as [|c s]; [simpl in H; lia|].
    rewrite app_cons. simpl. f_equal. apply IH. simpl in H. lia.
Qed.

Lemma drop_app_le (n : nat) (s t : string) :
  n <= size s -> drop n (s +:+ t) = drop n s +:+ t.
Proof.
  revert s; induction n as [|n IH]; intros s H.
  - now destruct s, t.
  - destruct s as [|c s]; [simpl in H; lia|].
    rewrite app_cons. simpl. apply IH. simpl in H. lia.
Qed.

End Str.

(** ** Script directives: the marker scanner of api/streaming_parser.cpp *)

Module Script.
Import Str.

Record ScriptBlock := mkScriptBlock {
  code : string;            (* the script code *)
  preceding_text : string   (* text before this script block *)
}.

Definition OPEN_TAG : string := "<idascript>".
Definition CLOSE_TAG : string := "</idascript>".

(** What [std::smatch] holds after a successful search: where the whole
    match starts in the searched range, how long it is, and capture
    group 1. *)
Record smatch := mkSmatch {
  position : nat;
  mlength : nat;
  group1 : string
}.

(** [std::regex_search] with the pattern
    [<idascript>([\s\S]*?)</idascript>] on the range [s].  The pattern is
    two literals around a lazy [[\s\S]*?], which matches any characters:
    the leftmost match starts at the first opening tag that has a closing
    tag after it, which is the first opening tag of all (a closing tag
    after a later opening tag is also after the first one), and the lazy
    body ends at the first closing tag after that opening tag. *)
Definition regex_search_script (s : string) : option smatch :=
  match find OPEN_TAG s with
  | None => None
  | Some i =>
      let body := drop (i + size OPEN_TAG) s in
      match find CLOSE_TAG body with
      | None => None
      | Some k =>
          Some {| position := i;
                  mlength := size OPEN_TAG + k + size CLOSE_TAG;
                  group1 := take k body |}
      end
  end.

Lemma regex_search_script_bound (s : string) (m : smatch) :
  regex_search_script s = Some m ->
  0 < mlength m /\ position m + mlength m <= size s.
Proof.
  unfold regex_search_script.
  destruct (find OPEN_TAG s) as [i|] eqn:Hi; [|discriminate].
  destruct (find CLOSE_TAG _) as [k|] eqn:Hk; [|discriminate].
  intros [= <-]. simpl.
  apply find_bound in Hi, Hk. rewrite size_drop in Hk. simpl in *. lia.
Qed.

(** The [while (std::regex_search(search_start, text.cend(), ...))] loop
    of [extract_idascript_blocks]; [search_start] is
    [text.cbegin() + last_end] throughout.  It returns the blocks
    collected and the final [last_end]. *)
Equations? extract_loop (text : string) (last_end : nat)
    (blocks : list ScriptBlock) : list ScriptBlock * nat
    by wf (size text - last_end) lt :=
  extract_loop text last_end blocks
    with exist (fun r => regex_search_script (drop last_end text) = r)
               (regex_search_script (drop last_end text)) eq_refl := {
    | exist _ (Some m) Hm =>
        let match_start := position m + last_end in
        let block :=
          {| preceding_text := substr text last_end (match_start - last_end);
             code := trim (group1 m) |} in
        extract_loop text (match_start + mlength m) (blocks ++ [block]);
    | exist _ None _ => (blocks, last_end) }.
Proof.
  apply regex_search_script_bound in Hm. rewrite size_drop in Hm. lia.
Qed.

(** [extract_idascript_blocks] *)
Definition extract_idascript_blocks (text : string) : list ScriptBlock :=
  let '(blocks, last_end) := extract_loop text 0 [] in
  match blocks with
  | [] => blocks
  | _ :: _ =>
      if last_end <? size text then
        blocks ++ [ {| preceding_text := drop last_end text; code := "" |} ]
      else blocks
  end.

(** [has_idascript_blocks]: a search for the literal [<idascript>]. *)
Definition has_idascript_blocks (text : string) : bool :=
  match find OPEN_TAG text with
  | Some _ => true
  | None => false
  end.

(** The match loop of [std::regex_replace] with the replacement [""]:
    the text between two matches is copied, a match is dropped, and the
    text after the last match is copied.  The pattern of
    [strip_idascript_blocks] is the one of [extract_idascript_blocks]
    without the capture group, so the matches are the same. *)
Equations? strip_loop (text : string) (last_end : nat) (out : string)
    : string by wf (size text - last_end) lt :=
  strip_loop text last_end out
    with exist (fun r => regex_search_script (drop last_end text) = r)
               (regex_search_script (drop last_end text)) eq_refl := {
    | exist _ (Some m) Hm =>
        strip_loop text (last_end + position m + mlength m)
          (out +:+ substr text last_end (position m));
    | exist _ None _ => out +:+ drop last_end text }.
Proof.
  apply regex_search_script_bound in Hm. rewrite size_drop in Hm. lia.
Qed.

(** [strip_idascript_blocks] *)
Definition strip_idascript_blocks (text : string) : string :=
  strip_loop text 0 "".

End Script.

(** ** JSON values and the [nlohmann::json] accessors the code uses

    The JSON library is not part of the repository.  Its values are
    modelled by [Json.t]; the accessors follow the library's documented
    behaviour, an exception being a [None] result.  A [double] is
    idealised as an exact rational: rounding is outside the model. *)

Module Json.

#[warnings="-register-all"]
Inductive t : Type :=
| Null
| Bool (b : bool)
| Int (z : Z)
| Float (q : Q)
| Str (s : string)
| Array (l : list t)
| Object (m : gmap string t).

(** An object built from an initializer list of key/value pairs. *)
Definition object (l : list (string * t)) : t := Object (list_to_map l).

(** [j.contains(key)] *)
Definition contains (j : t) (key : string) : bool :=
  match j with
  | Object m => bool_decide (is_Some (m !! key))
  | _ => false
  end.

(** The member [key] of [j], if [j] is an object that has it. *)
Definition member (j : t) (key : string) : option t :=
  match j with
  | Object m => m !! key
  | _ => None
  end.

(** [j\[key\]] on a constant value: an exception unless [j] is an
    object; every use in the code is guarded by [contains]. *)
Definition at_key (j : t) (key : string) : option t := member j key.

(** [j\[key\] = v] on a mutable value: a null value becomes an object,
    an object gets the member inserted or overwritten. *)
Definition set (key : string) (v : t) (j : t) : t :=
  match j with
  | Object m => Object (<[key := v]> m)
  | Null => Object {[key := v]}
  | _ => j
  end.

(** [j\[key\].push_back(v)] where [j\[key\]] is an array. *)
Definition push_back_at (key : string) (v : t) (j : t) : t :=
  match j with
  | Object m =>
      match m !! key with
      | Some (Array l) => Object (<[key := Array (l ++ [v])]> m)
      | _ => j
      end
  | _ => j
  end.

Definition is_null (j : t) : bool :=
  match j with Null => true | _ => false end.

Definition is_array (j : t) : bool :=
  match j with Array _ => true | _ => false end.

(** [j.get<std::string>()] *)
Definition get_string (j : t) : option string :=
  match j with Str s => Some s | _ => None end.

(** [j.get<bool>()] *)
Definition get_bool (j : t) : option bool :=
  match j with Bool b => Some b | _ => None end.

(** Conversion to a 32-bit [int]. *)
Definition wrap32 (z : Z) : Z := ((z + 2 ^ 31) mod 2 ^ 32 - 2 ^ 31)%Z.

(** Truncation of a rational towards zero. *)
Definition truncate (q : Q) : Z := Z.quot (Qnum q) (Z.pos (Qden q)).

(** [j.get<int>()]: defined on numbers and booleans. *)
Definition get_int (j : t) : option Z :=
  match j with
  | Int z => Some (wrap32 z)
  | Float q => Some (wrap32 (truncate q))
  | Bool b => Some (if b then 1 else 0)%Z
  | _ => None
  end.

(** [j.value(key, default_value)]: an exception unless [j] is an object;
    the member converted to the type of the default when it is present,
    the default otherwise. *)
Definition value {A : Type} (get : t -> option A) (j : t) (key : string)
    (default : A) : option A :=
  match j with
  | Object m =>
      match m !! key with
      | Some v => get v
      | None => Some default
      end
  | _ => None
  end.

Definition value_string := value get_string.
Definition value_int := value get_int.
Definition value_bool := value get_bool.

End Json.

(** ** Protocol types: core/types.hpp and api/claude_types.hpp

    A field that several structs share carries the struct's name as a
    prefix. *)

Module Types.

(** The arithmetic of [std::int64_t], with two's-complement wrap-around. *)
Definition wrap64 (z : Z) : Z := ((z + 2 ^ 63) mod 2 ^ 64 - 2 ^ 63)%Z.

Record TokenUsage := mkTokenUsage {
  input_tokens : Z;
  output_tokens : Z;
  cache_read_tokens : Z;
  cache_creation_tokens : Z
}.

(** [TokenUsage{}] *)
Definition usage_zero : TokenUsage := mkTokenUsage 0 0 0 0.

(** [TokenUsage::operator+=] *)
Definition usage_add (a other : TokenUsage) : TokenUsage :=
  {| input_tokens := wrap64 (input_tokens a + input_tokens other);
     output_tokens := wrap64 (output_tokens a + output_tokens other);
     cache_read_tokens :=
       wrap64 (cache_read_tokens a + cache_read_tokens other);
     cache_creation_tokens :=
       wrap64 (cache_creation_tokens a + cache_creation_tokens other) |}.

(** [std::variant<TextContent, ToolUseContent, ToolResultContent,
    ThinkingContent>] *)
Inductive ContentBlock :=
| TextContent (text : string)
| ToolUseContent (id name : string) (input : Json.t)
| ToolResultContent (tool_use_id content : string) (is_error : bool)
| ThinkingContent (thinking : string).

Inductive MessageRole := User | Assistant.

Definition message_role_str (role : MessageRole) : string :=
  match role with User => "user" | Assistant => "assistant" end.

Record ClaudeMessage := mkClaudeMessage {
  msg_role : MessageRole;
  msg_content : list ContentBlock
}.

(** [ClaudeMessage::user] *)
Definition ClaudeMessage_user (text : string) : ClaudeMessage :=
  {| msg_role := User; msg_content := [TextContent text] |}.

(** [get_text] of [ClaudeMessage] and of [CreateMessageResponse]: the
    text blocks, joined by newlines. *)
Definition get_text_step (result : string) (block : ContentBlock) : string :=
  match block with
  | TextContent text =>
      (if bool_decide (result = "") then result
       else result +:+ String Str.LF "") +:+ text
  | _ => result
  end.

Definition blocks_get_text (content : list ContentBlock) : string :=
  foldl get_text_step "" content.

Record ToolDefinition := mkToolDefinition {
  tool_name : string;
  tool_description : string;
  tool_input_schema : Json.t
}.

Record ThinkingConfig := mkThinkingConfig {
  enabled : bool;
  budget_tokens : Z
}.

Record CreateMessageRequest := mkCreateMessageRequest {
  req_model : string;
  req_messages : list ClaudeMessage;
  req_system : string;
  req_tools : list ToolDefinition;
  req_max_tokens : Z;
  req_temperature : option Q;
  req_stream : bool;
  req_thinking : option ThinkingConfig
}.

Inductive StopReason := EndTurn | MaxTokens | ToolUse | StopSequence.

Definition stop_reason_from_str (s : string) : StopReason :=
  if bool_decide (s = "end_turn") then EndTurn
  else if bool_decide (s = "max_tokens") then MaxTokens
  else if bool_decide (s = "tool_use") then ToolUse
  else if bool_decide (s = "stop_sequence") then StopSequence
  else EndTurn.

Record CreateMessageResponse := mkCreateMessageResponse {
  resp_id : string;
  resp_model : string;
  resp_stop_reason : option StopReason;
  resp_content : list ContentBlock;
  resp_usage : TokenUsage
}.

Definition response_get_text (r : CreateMessageResponse) : string :=
  blocks_get_text (resp_content r).

Inductive StreamEventType :=
| MessageStart
| ContentBlockStart
| ContentBlockDelta
| ContentBlockStop
| MessageDelta
| MessageStop
| Ping
| Error.

Definition stream_event_type_from_str (s : string) : StreamEventType :=
  if bool_decide (s = "message_start") then MessageStart
  else if bool_decide (s = "content_block_start") then ContentBlockStart
  else if bool_decide (s = "content_block_delta") then ContentBlockDelta
  else if bool_decide (s = "content_block_stop") then ContentBlockStop
  else if bool_decide (s = "message_delta") then MessageDelta
  else if bool_decide (s = "message_stop") then MessageStop
  else if bool_decide (s = "ping") then Ping
  else Error.

(** The struct [ContentBlockDelta]. *)
Record Delta := mkDelta {
  delta_index : Z;
  delta_type : string;
  delta_text : string;
  delta_partial_json : string;
  delta_thinking : string
}.

Record StreamEvent := mkStreamEvent {
  ev_type : StreamEventType;
  ev_message : option CreateMessageResponse;
  ev_content_block : option ContentBlock;
  ev_delta : option Delta;
  ev_stop_reason : option StopReason;
  ev_usage : option TokenUsage;
  ev_error : option string;
  ev_content_block_index : Z
}.

(** A default-initialised event of the given type. *)
Definition event_of_type (ty : StreamEventType) : StreamEvent :=
  {| ev_type := ty; ev_message := None; ev_content_block := None;
     ev_delta := None; ev_stop_reason := None; ev_usage := None;
     ev_error := None; ev_content_block_index := 0 |}.

End Types.

(** ** Serialization: api/claude_types.cpp *)

Module Wire.
Import Types.

(** *** [to_json] *)

Definition to_json_content (c : ContentBlock) : Json.t :=
  match c with
  | TextContent text =>
      Json.object [("type", Json.Str "text"); ("text", Json.Str text)]
  | ToolUseContent id name input =>
      Json.object [("type", Json.Str "tool_use"); ("id", Json.Str id);
                   ("name", Json.Str name); ("input", input)]
  | ToolResultContent tool_use_id content is_error =>
      let j := Json.object [("type", Json.Str "tool_result");
                            ("tool_use_id", Json.Str tool_use_id);
                            ("content", Json.Str content)] in
      if is_error then Json.set "is_error" (Json.Bool true) j else j
  | ThinkingContent thinking =>
      Json.object [("type", Json.Str "thinking");
                   ("thinking", Json.Str thinking)]
  end.

Definition to_json_message (m : ClaudeMessage) : Json.t :=
  let j := Json.object [("role", Json.Str (message_role_str (msg_role m)));
                        ("content", Json.Array [])] in
  foldl (fun j block => Json.push_back_at "content" (to_json_content block) j)
        j (msg_content m).

Definition to_json_tool (tool : ToolDefinition) : Json.t :=
  Json.object [("name", Json.Str (tool_name tool));
               ("description", Json.Str (tool_description tool));
               ("input_schema", tool_input_schema tool)].

(** [to_json(nlohmann::json&, const CreateMessageRequest&)] *)
Definition to_json_request (r : CreateMessageRequest) : Json.t :=
  let j := Json.object [("model", Json.Str (req_model r));
                        ("messages", Json.Array []);
                        ("max_tokens", Json.Int (req_max_tokens r))] in
  let j := foldl (fun j msg =>
                    Json.push_back_at "messages" (to_json_message msg) j)
                 j (req_messages r) in
  let j := if negb (bool_decide (req_system r = ""))
           then Json.set "system" (Json.Str (req_system r)) j else j in
  let j := match req_tools r with
           | [] => j
           | _ :: _ =>
               foldl (fun j tool =>
                        Json.push_back_at "tools" (to_json_tool tool) j)
                     (Json.set "tools" (Json.Array []) j) (req_tools r)
           end in
  let j := match req_temperature r with
           | Some temperature => Json.set "temperature" (Json.Float temperature) j
           | None => j
           end in
  let j := if req_stream r then Json.set "stream" (Json.Bool true) j else j in
  match req_thinking r with
  | Some cfg =>
      if enabled cfg
      then Json.set "thinking"
             (Json.object [("type", Json.Str "enabled");
                           ("budget_tokens", Json.Int (budget_tokens cfg))]) j
      else j
  | None => j
  end.

(** *** [from_json]; [None] is an exception of the JSON library *)

Definition from_json_content (j : Json.t) (c : ContentBlock)
    : option ContentBlock :=
  type ← Json.value_string j "type" "";
  if bool_decide (type = "text") then
    text ← Json.value_string j "text" "";
    Some (TextContent text)
  else if bool_decide (type = "tool_use") then
    id ← Json.value_string j "id" "";
    name ← Json.value_string j "name" "";
    input ← (if Json.contains j "input" then Json.at_key j "input"
             else Some Json.Null);
    Some (ToolUseContent id name input)
  else if bool_decide (type = "tool_result") then
    tool_use_id ← Json.value_string j "tool_use_id" "";
    content ← Json.value_string j "content" "";
    is_error ← Json.value_bool j "is_error" false;
    Some (ToolResultContent tool_use_id content is_error)
  else if bool_decide (type = "thinking") then
    thinking ← Json.value_string j "thinking" "";
    Some (ThinkingContent thinking)
  else Some c.

Definition from_json_usage (j : Json.t) : option TokenUsage :=
  input ← Json.value_int j "input_tokens" 0%Z;
  output ← Json.value_int j "output_tokens" 0%Z;
  cache_read ← Json.value_int j "cache_read_input_tokens" 0%Z;
  cache_creation ← Json.value_int j "cache_creation_input_tokens" 0%Z;
  Some (mkTokenUsage input output cache_read cache_creation).

Definition from_json_response (j : Json.t) : option CreateMessageResponse :=
  id ← Json.value_string j "id" "";
  model ← Json.value_string j "model" "";
  stop_reason ←
    (if Json.contains j "stop_reason" then
       sr ← Json.at_key j "stop_reason";
       if Json.is_null sr then Some None
       else s ← Json.get_string sr; Some (Some (stop_reason_from_str s))
     else Some None);
  content ←
    (if Json.contains j "content" then
       cj ← Json.at_key j "content";
       match cj with
       | Json.Array l => mapM (fun bj => from_json_content bj (TextContent "")) l
       | _ => Some []
       end
     else Some []);
  usage ←
    (if Json.contains j "usage" then
       uj ← Json.at_key j "usage"; from_json_usage uj
     else Some usage_zero);
  Some (mkCreateMessageResponse id model stop_reason content usage).

Definition from_json_delta (index : Z) (dj : Json.t) : option Delta :=
  type ← Json.value_string dj "type" "";
  if bool_decide (type = "text_delta") then
    text ← Json.value_string dj "text" "";
    Some (mkDelta index type text "" "")
  else if bool_decide (type = "input_json_delta") then
    partial_json ← Json.value_string dj "partial_json" "";
    Some (mkDelta index type "" partial_json "")
  else if bool_decide (type = "thinking_delta") then
    thinking ← Json.value_string dj "thinking" "";
    Some (mkDelta index type "" "" thinking)
  else Some (mkDelta index type "" "" "").

(** [from_json(const nlohmann::json&, StreamEvent&)] *)
Definition from_json_event (j : Json.t) : option StreamEvent :=
  type_str ← Json.value_string j "type" "";
  let type := stream_event_type_from_str type_str in
  let e := event_of_type type in
  match type with
  | MessageStart =>
      if Json.contains j "message" then
        mj ← Json.at_key j "message";
        msg ← from_json_response mj;
        Some (mkStreamEvent type (Some msg) None None None None None 0)
      else Some e
  | ContentBlockStart =>
      index ← Json.value_int j "index" 0%Z;
      if Json.contains j "content_block" then
        bj ← Json.at_key j "content_block";
        block ← from_json_content bj (TextContent "");
        Some (mkStreamEvent type None (Some block) None None None None index)
      else Some (mkStreamEvent type None None None None None None index)
  | ContentBlockDelta =>
      index ← Json.value_int j "index" 0%Z;
      if Json.contains j "delta" then
        dj ← Json.at_key j "delta";
        delta ← from_json_delta index dj;
        Some (mkStreamEvent type None None (Some delta) None None None index)
      else Some (mkStreamEvent type None None None None None None index)
  | ContentBlockStop =>
      index ← Json.value_int j "index" 0%Z;
      Some (mkStreamEvent type None None None None None None index)
  | MessageDelta =>
      stop_reason ←
        (if Json.contains j "delta" then
           dj ← Json.at_key j "delta";
           if Json.contains dj "stop_reason" then
             sr ← Json.at_key dj "stop_reason";
             s ← Json.get_string sr;
             Some (Some (stop_reason_from_str s))
           else Some None
         else Some None);
      usage ←
        (if Json.contains j "usage" then
           uj ← Json.at_key j "usage";
           u ← from_json_usage uj;
           Some (Some u)
         else Some None);
      Some (mkStreamEvent type None None None stop_reason usage None 0)
  | Error =>
      if Json.contains j "error" then
        ej ← Json.at_key j "error";
        message ← Json.value_string ej "message" "Unknown error";
        Some (mkStreamEvent type None None None None None (Some message) 0)
      else Some e
  | MessageStop | Ping => Some e
  end.

End Wire.

(** ** The streaming parser: api/streaming_parser.cpp *)

Module Parser.
Import Str Types.

(** [StreamingParser::Impl], without the callback: the callback only
    observes the events, which the functions below return in the order
    in which it receives them. *)
Record Impl := mkImpl {
  buffer : string;
  response : option CreateMessageResponse;
  content_blocks : list ContentBlock;
  partial_jsons : list string;
  complete : bool;
  has_error : bool;
  error_message : string
}.

(** A freshly constructed parser. *)
Definition new_parser : Impl :=
  {| buffer := ""; response := None; content_blocks := [];
     partial_jsons := []; complete := false; has_error := false;
     error_message := "" |}.

Definition with_buffer (b : string) (st : Impl) : Impl :=
  mkImpl b (response st) (content_blocks st) (partial_jsons st)
         (complete st) (has_error st) (error_message st).

Definition with_response (r : option CreateMessageResponse) (st : Impl)
    : Impl :=
  mkImpl (buffer st) r (content_blocks st) (partial_jsons st)
         (complete st) (has_error st) (error_message st).

Definition with_content_blocks (bs : list ContentBlock) (st : Impl) : Impl :=
  mkImpl (buffer st) (response st) bs (partial_jsons st)
         (complete st) (has_error st) (error_message st).

Definition with_partial_jsons (pjs : list string) (st : Impl) : Impl :=
  mkImpl (buffer st) (response st) (content_blocks st) pjs
         (complete st) (has_error st) (error_message st).

Definition with_complete (c : bool) (st : Impl) : Impl :=
  mkImpl (buffer st) (response st) (content_blocks st) (partial_jsons st)
         c (has_error st) (error_message st).

Definition with_error (msg : string) (st : Impl) : Impl :=
  mkImpl (buffer st) (response st) (content_blocks st) (partial_jsons st)
         (complete st) true msg.

(** The conversion of an [int] to [size_t] (64 bits). *)
Definition to_size_t (i : Z) : Z := (i mod 2 ^ 64)%Z.

(** [idx < v.size()] for a [size_t] index. *)
Definition in_range {A : Type} (idx : Z) (v : list A) : bool :=
  (idx <? Z.of_nat (length v))%Z.

(** [n] rounds of the loop that pushes a placeholder block and an empty
    fragment string. *)
Fixpoint grow (n : nat) (blocks : list ContentBlock) (pjs : list string)
    : list ContentBlock * list string :=
  match n with
  | O => (blocks, pjs)
  | S n' => grow n' (blocks ++ [TextContent ""]) (pjs ++ [""])
  end.

Definition set_response_content (content : list ContentBlock)
    (r : CreateMessageResponse) : CreateMessageResponse :=
  mkCreateMessageResponse (resp_id r) (resp_model r) (resp_stop_reason r)
                          content (resp_usage r).

Definition set_response_stop_reason (sr : option StopReason)
    (r : CreateMessageResponse) : CreateMessageResponse :=
  mkCreateMessageResponse (resp_id r) (resp_model r) sr
                          (resp_content r) (resp_usage r).

Definition set_response_usage (u : TokenUsage)
    (r : CreateMessageResponse) : CreateMessageResponse :=
  mkCreateMessageResponse (resp_id r) (resp_model r) (resp_stop_reason r)
                          (resp_content r) u.

Section WithJsonParser.

(** [nlohmann::json::parse]; [None] is a parse error. *)
Variable json_parse : string -> option Json.t.

(** [StreamingParser::Impl::process_event] *)
Definition process_event (st : Impl) (event : StreamEvent) : Impl :=
  match ev_type event with
  | MessageStart =>
      match ev_message event with
      | Some message =>
          with_response (Some (set_response_content [] message)) st
      | None => st
      end
  | ContentBlockStart =>
      let idx := to_size_t (ev_content_block_index event) in
      (* the loop runs while [content_blocks.size() <= idx] *)
      let rounds := Z.to_nat (idx + 1 - Z.of_nat (length (content_blocks st))) in
      let '(blocks, pjs) :=
        grow rounds (content_blocks st) (partial_jsons st) in
      let blocks :=
        match ev_content_block event with
        | Some block => <[Z.to_nat idx := block]> blocks
        | None => blocks
        end in
      with_partial_jsons pjs (with_content_blocks blocks st)
  | ContentBlockDelta =>
      match ev_delta event with
      | Some delta =>
          let idx := to_size_t (ev_content_block_index event) in
          if in_range idx (content_blocks st) then
            if bool_decide (delta_type delta = "text_delta") then
              match content_blocks st !! Z.to_nat idx with
              | Some (TextContent text) =>
                  with_content_blocks
                    (<[Z.to_nat idx := TextContent (text +:+ delta_text delta)]>
                       (content_blocks st)) st
              | _ => st
              end
            else if bool_decide (delta_type delta = "input_json_delta") then
              with_partial_jsons
                (alter (fun pj => pj +:+ delta_partial_json delta)
                       (Z.to_nat idx) (partial_jsons st)) st
            else if bool_decide (delta_type delta = "thinking_delta") then
              match content_blocks st !! Z.to_nat idx with
              | Some (ThinkingContent thinking) =>
                  with_content_blocks
                    (<[Z.to_nat idx :=
                         ThinkingContent (thinking +:+ delta_thinking delta)]>
                       (content_blocks st)) st
              | _ => st
              end
            else st
          else st
      | None => st
      end
  | ContentBlockStop =>
      let idx := to_size_t (ev_content_block_index event) in
      if in_range idx (content_blocks st) && in_range idx (partial_jsons st)
      then
        match content_blocks st !! Z.to_nat idx,
              partial_jsons st !! Z.to_nat idx with
        | Some (ToolUseContent id name input), Some pj =>
            if negb (bool_decide (pj = "")) then
              match json_parse pj with
              | Some parsed =>
                  with_content_blocks
                    (<[Z.to_nat idx := ToolUseContent id name parsed]>
                       (content_blocks st)) st
              | None => st
              end
            else st
        | _, _ => st
        end
      else st
  | MessageDelta =>
      let st :=
        match ev_stop_reason event, response st with
        | Some sr, Some r =>
            with_response (Some (set_response_stop_reason (Some sr) r)) st
        | _, _ => st
        end in
      match ev_usage event, response st with
      | Some u, Some r => with_response (Some (set_response_usage u r)) st
      | _, _ => st
      end
  | MessageStop =>
      let st :=
        match response st with
        | Some r =>
            with_response (Some (set_response_content (content_blocks st) r)) st
        | None => st
        end in
      with_complete true st
  | Error =>
      with_error (default "Unknown streaming error" (ev_error event)) st
  | Ping => st
  end.

(** The loop that erases leading blanks and tabs. *)
Fixpoint skip_blanks (data : string) : string :=
  match data with
  | String c data' =>
      if Ascii.eqb c SP || Ascii.eqb c HT then skip_blanks data' else data
  | "" => ""
  end.

(** The payload of a [data:] line turned into an event: the JSON parse
    and [from_json], either of which may throw. *)
Definition decode (data : string) : option StreamEvent :=
  json ← json_parse data; Wire.from_json_event json.

(** [StreamingParser::Impl::process_line]: the new state and the events
    handed to the callback. *)
Definition process_line (st : Impl) (line : string)
    : Impl * list StreamEvent :=
  if bool_decide (find "event:" line = Some 0) then (st, [])
  else if bool_decide (find "data:" line = Some 0) then
    let data := skip_blanks (drop 5 line) in
    if bool_decide (data = "") || bool_decide (data = "[DONE]") then (st, [])
    else
      match decode data with
      | Some event => (process_event st event, [event])
      | None => (st, [])
      end
  else (st, []).

Lemma process_event_buffer (st : Impl) (event : StreamEvent) :
  buffer (process_event st event) = buffer st.
Proof.
  unfold process_event.
  repeat (match goal with
          | |- context [match ?x with _ => _ end] => destruct x
          | |- context [if ?x then _ else _] => destruct x
          end; try reflexivity).
Qed.

Lemma process_line_buffer (st : Impl) (line : string) :
  buffer (process_line st line).1 = buffer st.
Proof.
  unfold process_line.
  repeat (match goal with
          | |- context [if ?x then _ else _] => destruct x
          | |- context [match decode ?x with _ => _ end] => destruct (decode x)
          end; try reflexivity).
  apply process_event_buffer.
Qed.

(** A line of the buffer without its line feed, and without a carriage
    return before it. *)
Definition chomp (line : string) : string :=
  if negb (bool_decide (line = "")) && bool_decide (back line = Some CR)
  then pop_back line else line.

(** The [while ((pos = buffer.find('\n')) != npos)] loop of [feed]. *)
Equations? feed_loop (st : Impl) : Impl * list StreamEvent
    by wf (size (buffer st)) lt :=
  feed_loop st
    with exist (fun r => find_char LF (buffer st) = r)
               (find_char LF (buffer st)) eq_refl := {
    | exist _ (Some pos) Hpos =>
        let line := chomp (substr (buffer st) 0 pos) in
        let st1 := with_buffer (drop (pos + 1) (buffer st)) st in
        if negb (bool_decide (line = "")) then
          let r := process_line st1 line in
          let r' := feed_loop r.1 in
          (r'.1, r.2 ++ r'.2)
        else feed_loop st1;
    | exist _ None _ => (st, []) }.
Proof.
  all: try (subst r; rewrite process_line_buffer); subst st1; simpl;
    rewrite size_drop; apply find_bound in Hpos; simpl in Hpos; lia.
Qed.

(** [StreamingParser::feed] *)
Definition feed (st : Impl) (data : string) : Impl * list StreamEvent :=
  feed_loop (with_buffer (buffer st +:+ data) st).

(** [StreamingParser::finish] *)
Definition finish (st : Impl) : Impl * list StreamEvent :=
  if negb (bool_decide (buffer st = "")) then
    let r := process_line st (buffer st) in
    (with_buffer "" r.1, r.2)
  else (st, []).

(** [StreamingParser::reset] *)
Definition reset (st : Impl) : Impl :=
  {| buffer := ""; response := None; content_blocks := [];
     partial_jsons := []; complete := false; has_error := false;
     error_message := "" |}.

(** [StreamingParser::get_response] *)
Definition get_response (st : Impl) : option CreateMessageResponse :=
  response st.

(** [StreamingParser::is_complete] *)
Definition is_complete (st : Impl) : bool := complete st.

(** [StreamingParser::get_error] *)
Definition get_error (st : Impl) : string := error_message st.

(** One [feed] call per chunk, in order. *)
Fixpoint feed_all (st : Impl) (data : list string)
    : Impl * list StreamEvent :=
  match data with
  | [] => (st, [])
  | chunk :: data' =>
      let r := feed st chunk in
      let r' := feed_all r.1 data' in
      (r'.1, r.2 ++ r'.2)
  end.

(** A whole stream: a new parser, the [feed] calls, then [finish]. *)
Definition run (data : list string) : Impl * list StreamEvent :=
  let r := feed_all new_parser data in
  let r' := finish r.1 in
  (r'.1, r.2 ++ r'.2).

(** The calls a user of the parser can make. *)
Inductive Call :=
| Feed (data : string)
| Finish
| Reset.

Definition call (st : Impl) (c : Call) : Impl :=
  match c with
  | Feed data => (feed st data).1
  | Finish => (finish st).1
  | Reset => reset st
  end.

(** The parser after a sequence of calls on a new parser. *)
Definition after (calls : list Call) : Impl := foldl call new_parser calls.

End WithJsonParser.

End Parser.

(** ** The API client: api/claude_client.cpp *)

Module Client.
Import Types.

(** Price per million tokens. *)
Definition INPUT_PRICE_PER_M : Q := 3.
Definition OUTPUT_PRICE_PER_M : Q := 15.

(** [ClaudeClient::Impl]: the key of the credentials, the model, the
    running usage total and the cancellation flag.  The HTTP client is
    represented by what a request returns (see [Transfer]). *)
Record ClaudeClient := mkClaudeClient {
  api_key : string;
  client_model : string;
  total_usage : TokenUsage;
  cancelled : bool
}.

Definition with_cancelled (b : bool) (c : ClaudeClient) : ClaudeClient :=
  mkClaudeClient (api_key c) (client_model c) (total_usage c) b.

Definition with_total_usage (u : TokenUsage) (c : ClaudeClient)
    : ClaudeClient :=
  mkClaudeClient (api_key c) (client_model c) u (cancelled c).

(** [ClaudeClient::is_configured] *)
Definition is_configured (c : ClaudeClient) : bool :=
  negb (bool_decide (api_key c = "")).

(** [ClaudeClient::set_model] *)
Definition set_model (model : string) (c : ClaudeClient) : ClaudeClient :=
  mkClaudeClient (api_key c) model (total_usage c) (cancelled c).

(** [ClaudeClient::get_total_usage] *)
Definition get_total_usage (c : ClaudeClient) : TokenUsage := total_usage c.

(** [ClaudeClient::reset_usage] *)
Definition reset_usage (c : ClaudeClient) : ClaudeClient :=
  with_total_usage usage_zero c.

(** The cost of a usage total, as [estimate_cost] computes it. *)
Definition cost_of (u : TokenUsage) : Q :=
  let input_cost := (inject_Z (input_tokens u) / 1000000 * INPUT_PRICE_PER_M)%Q in
  let output_cost :=
    (inject_Z (output_tokens u) / 1000000 * OUTPUT_PRICE_PER_M)%Q in
  let cache_cost :=
    (inject_Z (cache_read_tokens u) / 1000000
     * (INPUT_PRICE_PER_M * (1 # 10)))%Q in
  (input_cost + output_cost + cache_cost)%Q.

(** [ClaudeClient::estimate_cost] *)
Definition estimate_cost (c : ClaudeClient) : Q := cost_of (total_usage c).

(** What a streaming request to the service delivers: the chunks of the
    response body, and, when [cancel()] is called from another thread
    while the transfer runs, the number of chunks handed to the parser
    before the flag is seen. *)
Record Transfer := mkTransfer {
  chunks : list string;
  cancel_after : option nat
}.

(** The outcome of [send_message_streaming]: the returned response, the
    client afterwards, the request body that was posted, and the events
    passed to the caller's callback, during the transfer and from
    [finish()]. *)
Record StreamResult := mkStreamResult {
  sr_response : option CreateMessageResponse;
  sr_client : ClaudeClient;
  sr_posted : option Json.t;
  sr_streamed : list StreamEvent;
  sr_flushed : list StreamEvent
}.

Definition with_stream (b : bool) (r : CreateMessageRequest)
    : CreateMessageRequest :=
  mkCreateMessageRequest (req_model r) (req_messages r) (req_system r)
    (req_tools r) (req_max_tokens r) (req_temperature r) b (req_thinking r).

Section WithJsonParser.

Variable json_parse : string -> option Json.t.

(** [ClaudeClient::send_message_streaming], for the calls in which the
    serialization of the request returns: [request_json.dump()] throws
    when a string of the request is not well-formed UTF-8 (see
    [Dump.dumps]), and nothing catches that exception. *)
Definition send_message_streaming (c : ClaudeClient)
    (request : CreateMessageRequest) (transfer : Transfer) : StreamResult :=
  if negb (is_configured c) then mkStreamResult None c None [] []
  else
    let c := with_cancelled false c in
    let streaming_request := with_stream true request in
    let request_json := Wire.to_json_request streaming_request in
    let delivered :=
      match cancel_after transfer with
      | Some n => take n (chunks transfer)
      | None => chunks transfer
      end in
    let fed := Parser.feed_all json_parse Parser.new_parser delivered in
    let c :=
      match cancel_after transfer with
      | Some _ => with_cancelled true c
      | None => c
      end in
    let finished := Parser.finish json_parse fed.1 in
    let parser := finished.1 in
    if Parser.has_error parser then
      mkStreamResult None c (Some request_json) fed.2 finished.2
    else
      let final_response := Parser.get_response parser in
      let c :=
        match final_response with
        | Some r => with_total_usage (usage_add (total_usage c) (resp_usage r)) c
        | None => c
        end in
      mkStreamResult final_response c (Some request_json) fed.2 finished.2.

(** [ClaudeClient::send_message]; [reply] is the body of a successful
    HTTP response, [None] when the request failed. *)
Definition send_message (c : ClaudeClient) (request : CreateMessageRequest)
    (reply : option string) : option CreateMessageResponse * ClaudeClient :=
  if negb (is_configured c) then (None, c)
  else
    match reply with
    | None => (None, c)
    | Some body =>
        match json_parse body with
        | None => (None, c)
        | Some json =>
            if Json.contains json "error" then (None, c)
            else
              match Wire.from_json_response json with
              | None => (None, c)
              | Some msg_response =>
                  (Some msg_response,
                   with_total_usage
                     (usage_add (total_usage c) (resp_usage msg_response)) c)
              end
        end
    end.

(** A call of the client: a streaming request with what the transfer
    delivers, or a blocking request with the reply. *)
Inductive Call :=
| Streaming (request : CreateMessageRequest) (transfer : Transfer)
| Blocking (request : CreateMessageRequest) (reply : option string).

Definition perform (c : ClaudeClient) (call : Call)
    : option CreateMessageResponse * ClaudeClient :=
  match call with
  | Streaming request transfer =>
      let sr := send_message_streaming c request transfer in
      (sr_response sr, sr_client sr)
  | Blocking request reply => send_message c request reply
  end.

(** A session: the calls in order; the client afterwards and what each
    call returned. *)
Fixpoint session (c : ClaudeClient) (calls : list Call)
    : ClaudeClient * list (option CreateMessageResponse) :=
  match calls with
  | [] => (c, [])
  | call :: calls' =>
      let r := perform c call in
      let r' := session r.2 calls' in
      (r'.1, r.1 :: r'.2)
  end.

End WithJsonParser.

Definition lines (l : list string) : string :=
  foldr (fun s acc => s +:+ match acc with "" => "" | _ => String Str.LF acc end)
        "" l.

(** [ClaudeClient::get_idascript_tool] *)
Definition get_idascript_tool : ToolDefinition :=
  {| tool_name := "idascript";
     tool_description := lines [
       "Execute Python code in IDA Pro's scripting environment.";
       "";
       "The code has access to all IDA Pro APIs and the `db` object from ida-domain for database operations.";
       "";
       "Use this tool to:";
       "- Analyze binary code, functions, and data";
       "- Navigate the disassembly";
       "- Query cross-references";
       "- Extract strings and constants";
       "- Decompile functions (if Hex-Rays is available)";
       "";
       "The output will be captured and returned. Print results you want to see." ];
     tool_input_schema :=
       Json.object [
         ("type", Json.Str "object");
         ("properties",
          Json.object [
            ("code",
             Json.object [
               ("type", Json.Str "string");
               ("description", Json.Str "Python code to execute in IDA") ]) ]);
         ("required", Json.Array [Json.Str "code"]) ] |}.

(** [ClaudeClient::get_default_tools] *)
Definition get_default_tools : list ToolDefinition := [get_idascript_tool].

End Client.

(** ** The agent loop: core/chat_core.cpp *)

Module Core.
Import Types.

Inductive ChatState := Disconnected | Connecting | Idle | Processing | Cancelled.

#[global] Instance ChatState_eq_dec : EqDecision ChatState.
Proof. solve_decision. Defined.

Definition DEFAULT_MAX_TURNS : Z := 20.

Record ChatCoreOptions := mkChatCoreOptions {
  max_turns : Z;
  verbose : bool;
  opt_model : string;
  enable_thinking : bool;
  thinking_budget : Z
}.

Record ProcessResult := mkProcessResult {
  success : bool;
  res_response : string;
  turns_used : Z;
  cost : option Q;
  error : string;
  res_cancelled : bool
}.

(** A default-initialised [ProcessResult]. *)
Definition empty_result : ProcessResult :=
  mkProcessResult false "" 0 None "" false.

Record ScriptResult := mkScriptResult {
  script_success : bool;
  script_output : string;
  script_error : string
}.

(** What the loop does to the outside: the calls of the [ChatCallback]
    interface, the appends to the attached history, the transport calls
    (an HTTP request or a run of the command-line agent) and the calls
    of the script executor. *)
Inductive Effect :=
| on_turn_start (turn max : Z)
| on_thinking
| on_thinking_done
| on_tool_use (name detail : string)
| on_text (text : string)
| on_script_code (code : string)
| on_script_output (output : string)
| on_error (message : string)
| on_result (turns : Z) (total_cost : Q)
| append_user_message (text : string)
| append_assistant_message (text model : string) (usage : TokenUsage)
| append_script_execution (code output : string) (is_error : bool)
| http_post (body : Json.t)
| run_cli (message session_id : string) (is_continue : bool)
| script_executor_call (code : string).

(** [ChatCore::Impl].  The script executor is a function of the code;
    [history] tells whether a history is attached. *)
Record Impl := mkCore {
  script_executor : option (string -> ScriptResult);
  history : bool;
  options : ChatCoreOptions;
  client : option Client.ClaudeClient;
  conversation : list ClaudeMessage;
  system_prompt : string;
  cancelled : bool;
  state : ChatState;
  total_usage : TokenUsage;
  use_cli_mode : bool;
  cli_path : string
}.

Definition with_client (c : option Client.ClaudeClient) (core : Impl) : Impl :=
  mkCore (script_executor core) (history core) (options core) c
    (conversation core) (system_prompt core) (cancelled core) (state core)
    (total_usage core) (use_cli_mode core) (cli_path core).

Definition with_conversation (conv : list ClaudeMessage) (core : Impl)
    : Impl :=
  mkCore (script_executor core) (history core) (options core) (client core)
    conv (system_prompt core) (cancelled core) (state core)
    (total_usage core) (use_cli_mode core) (cli_path core).

Definition with_cancelled (b : bool) (core : Impl) : Impl :=
  mkCore (script_executor core) (history core) (options core) (client core)
    (conversation core) (system_prompt core) b (state core)
    (total_usage core) (use_cli_mode core) (cli_path core).

Definition with_state (s : ChatState) (core : Impl) : Impl :=
  mkCore (script_executor core) (history core) (options core) (client core)
    (conversation core) (system_prompt core) (cancelled core) s
    (total_usage core) (use_cli_mode core) (cli_path core).

Definition with_total_usage (u : TokenUsage) (core : Impl) : Impl :=
  mkCore (script_executor core) (history core) (options core) (client core)
    (conversation core) (system_prompt core) (cancelled core) (state core)
    u (use_cli_mode core) (cli_path core).

(** An effect on the history, if one is attached. *)
Definition logged (core : Impl) (e : Effect) : list Effect :=
  if history core then [e] else [].

(** [ChatCore::request_cancel] *)
Definition request_cancel (core : Impl) : Impl :=
  let core := with_cancelled true core in
  let core :=
    match client core with
    | Some c => with_client (Some (Client.with_cancelled true c)) core
    | None => core
    end in
  with_state Cancelled core.

(** [ChatCore::is_cancelled] *)
Definition is_cancelled (core : Impl) : bool := cancelled core.

(** [ChatCore::is_connected] *)
Definition is_connected (core : Impl) : bool :=
  if use_cli_mode core then
    negb (bool_decide (state core = Disconnected))
    && negb (bool_decide (cli_path core = ""))
  else
    negb (bool_decide (state core = Disconnected))
    && bool_decide (is_Some (client core)).

(** [ChatCore::Impl::execute_script] *)
Definition execute_script (core : Impl) (code : string)
    : string * list Effect :=
  match script_executor core with
  | None => ("Error: No script executor available", [])
  | Some executor =>
      let result := executor code in
      if script_success result then
        (script_output result,
         [on_script_code code; script_executor_call code;
          on_script_output (script_output result)]
         ++ logged core
              (append_script_execution code (script_output result) false))
      else
        let error_msg := "Error: " +:+ script_error result in
        (error_msg,
         [on_script_code code; script_executor_call code; on_error error_msg]
         ++ logged core (append_script_execution code error_msg true))
  end.

(** The state of the loop of [process_scripts]. *)
Record Scripts := mkScripts {
  scripts : list string;
  outputs : list string;
  script_effects : list Effect
}.

(** [ChatCore::Impl::process_scripts] *)
Definition process_scripts (core : Impl) (text : string) : Scripts :=
  foldl (fun acc block =>
           if negb (bool_decide (Script.code block = "")) then
             let r := execute_script core (Script.code block) in
             mkScripts (scripts acc ++ [Script.code block])
                       (outputs acc ++ [r.1])
                       (script_effects acc ++ r.2)
           else acc)
        (mkScripts [] [] []) (Script.extract_idascript_blocks text).

(** The callback that [process_message] passes to
    [send_message_streaming], applied to one event; [first_text] is the
    flag of the same name. *)
Definition stream_callback (is_cancelled : bool) (first_text : bool)
    (event : StreamEvent) : bool * list Effect :=
  if is_cancelled then (first_text, [])
  else
    match ev_type event, ev_delta event with
    | ContentBlockDelta, Some delta =>
        if bool_decide (delta_type delta = "text_delta")
           && negb (bool_decide (delta_text delta = "")) then
          let text_only := Script.strip_idascript_blocks (delta_text delta) in
          (false,
           (if first_text then [on_thinking_done] else [])
           ++ (if negb (bool_decide (text_only = "")) then [on_text text_only]
               else []))
        else (first_text, [])
    | _, _ => (first_text, [])
    end.

Definition stream_callbacks (is_cancelled : bool) (first_text : bool)
    (events : list StreamEvent) : bool * list Effect :=
  foldl (fun acc event =>
           let r := stream_callback is_cancelled acc.1 event in
           (r.1, acc.2 ++ r.2))
        (first_text, []) events.

(** [combined_output] of the network mode: the outputs, separated by
    a line of dashes. *)
Fixpoint join_outputs (outputs : list string) : string :=
  match outputs with
  | [] => ""
  | [o] => o
  | o :: rest =>
      o +:+ String Str.LF ("---" +:+ String Str.LF (join_outputs rest))
  end.

(** How one round of the loop ends. *)
Inductive Step :=
| Continue (core : Impl) (full_response : string)
| Break (core : Impl) (full_response : string)
| Return (result : ProcessResult) (core : Impl).

Section WithJsonParser.

Variable json_parse : string -> option Json.t.

(** The request of one turn. *)
Definition build_request (core : Impl) : CreateMessageRequest :=
  {| req_model := opt_model (options core);
     req_messages := conversation core;
     req_system := system_prompt core;
     req_tools := Client.get_default_tools;
     req_max_tokens := 8192;
     req_temperature := None;
     req_stream := true;
     req_thinking :=
       if enable_thinking (options core)
       then Some (mkThinkingConfig true (thinking_budget (options core)))
       else None |}.

(** The body of the [while] loop of [process_message], for the turn
    number [turn] (already incremented) and the client [c] that
    [impl_->client] points to. *)
Definition api_turn (core : Impl) (c : Client.ClaudeClient) (turn : Z)
    (full_response : string) (transfer : Client.Transfer)
    : Step * list Effect :=
  let start := [on_turn_start turn (max_turns (options core)); on_thinking] in
  let request := build_request core in
  let sr := Client.send_message_streaming json_parse c request transfer in
  let cancel_arrived := bool_decide (is_Some (Client.cancel_after transfer)) in
  let streamed := stream_callbacks false true (Client.sr_streamed sr) in
  let flushed :=
    stream_callbacks cancel_arrived streamed.1 (Client.sr_flushed sr) in
  let core := with_client (Some (Client.sr_client sr)) core in
  let core :=
    if cancel_arrived then with_state Cancelled (with_cancelled true core)
    else core in
  let call :=
    start
    ++ match Client.sr_posted sr with Some body => [http_post body] | None => [] end
    ++ streamed.2 ++ flushed.2 in
  match Client.sr_response sr with
  | None =>
      let result :=
        if cancelled core
        then mkProcessResult false "" 0 None "" true
        else mkProcessResult false "" 0 None
               "Failed to get response from Claude" false in
      (Return result (with_state Idle core), call)
  | Some response =>
      let response_text := response_get_text response in
      let assistant_msg := mkClaudeMessage Assistant (resp_content response) in
      let core := with_conversation (conversation core ++ [assistant_msg]) core in
      let log :=
        logged core
          (append_assistant_message response_text (opt_model (options core))
                                    (resp_usage response)) in
      let core :=
        with_total_usage (usage_add (total_usage core) (resp_usage response))
                         core in
      let full_response := full_response +:+ response_text in
      if Script.has_idascript_blocks response_text then
        let ps := process_scripts core response_text in
        match scripts ps with
        | _ :: _ =>
            let combined_output := join_outputs (outputs ps) in
            let result_msg :=
              ClaudeMessage_user
                ("Script output:" +:+ String Str.LF combined_output) in
            (Continue
               (with_conversation (conversation core ++ [result_msg]) core)
               full_response,
             call ++ log ++ script_effects ps)
        | [] => (Break core full_response, call ++ log ++ script_effects ps)
        end
      else (Break core full_response, call ++ log)
  end.

(** What follows the loop of [process_message]. *)
Definition api_finish (core : Impl) (turn : Z) (full_response : string)
    : ProcessResult * Impl * list Effect :=
  let total_cost :=
    match client core with
    | Some c => Client.estimate_cost c
    | None => 0%Q
    end in
  (mkProcessResult true (Script.strip_idascript_blocks full_response) turn
                   (Some total_cost) "" false,
   with_state Idle core,
   [on_result turn total_cost]).

(** The [while (turn < max_turns && !cancelled)] loop of
    [process_message]; [limit] is [impl_->options.max_turns], which
    nothing changes, and [transfers] gives what the request of each
    turn delivers.  [process_message] enters the loop only when
    [impl_->client] is set, and nothing in the loop unsets it: the case
    of no client is not reached. *)
Equations? api_loop (limit : Z) (transfers : Z -> Client.Transfer)
    (core : Impl) (turn : Z) (full_response : string)
    : ProcessResult * Impl * list Effect
    by wf (Z.to_nat (limit - turn)) lt :=
  api_loop limit transfers core turn full_response
    with Z_lt_dec turn limit := {
    | right _ => api_finish core turn full_response
    | left Hlt =>
        if cancelled core then api_finish core turn full_response
        else
          match client core with
          | None => api_finish core turn full_response
          | Some c =>
              let turn' := (turn + 1)%Z in
              let r := api_turn core c turn' full_response (transfers turn') in
              match r.1 with
              | Continue core' full' =>
                  let rest := api_loop limit transfers core' turn' full' in
                  (rest.1, r.2 ++ rest.2)
              | Break core' full' =>
                  let rest := api_finish core' turn' full' in
                  (rest.1, r.2 ++ rest.2)
              | Return result core' => (result, core', r.2)
              end
          end }.
Proof. lia. Qed.

(** *** The command-line mode *)

(** [ChatCore::Impl::CLIResponse] *)
Record CLIResponse := mkCLIResponse {
  response_text : string;
  error_text : string;
  got_response : bool;
  cli_cost : Q;
  num_turns : Z;
  cli_session_id : string
}.

(** What one [run_cli_call] does: the subprocess it runs and the parse
    of its output are represented by the [CLIResponse] it returns and
    the callbacks it makes on the way; [cli_cancel] tells whether
    [request_cancel] is called from another thread while it runs. *)
Record CliRun := mkCliRun {
  cli_result : CLIResponse;
  cli_callbacks : list Effect;
  cli_cancel : bool
}.

(** The local variables of [process_message_cli]. *)
Record CliLoop := mkCliLoop {
  session_id : string;
  cli_full_response : string;
  total_cost : Q;
  total_turns : Z;
  current_message : string;
  is_continue : bool
}.

Inductive CliStep :=
| CliContinue (core : Impl) (l : CliLoop)
| CliBreak (core : Impl) (l : CliLoop)
| CliReturn (result : ProcessResult) (core : Impl).

(** [combined_output] of the command-line mode. *)
Definition fence (output : string) : string :=
  "```" +:+ String Str.LF output
  +:+ String Str.LF ("```" +:+ String Str.LF (String Str.LF "")).

Definition cli_combined_output (outputs : list string) : string :=
  foldl (fun acc output => acc +:+ fence output)
        ("Script execution results:" +:+ String Str.LF (String Str.LF ""))
        outputs.

(** The body of the [for] loop of [process_message_cli], for the loop
    counter [turn]. *)
Definition cli_turn (core : Impl) (l : CliLoop) (turn : Z) (run : CliRun)
    : CliStep * list Effect :=
  let call :=
    [on_turn_start (turn + 1) (max_turns (options core)); on_thinking;
     run_cli (current_message l) (session_id l) (is_continue l)]
    ++ cli_callbacks run in
  let core := if cli_cancel run then request_cancel core else core in
  let cli_result := cli_result run in
  if negb (bool_decide (error_text cli_result = "")) then
    (CliReturn (mkProcessResult false "" 0 None (error_text cli_result) false)
               (with_state Idle core),
     call ++ [on_error (error_text cli_result)])
  else if negb (got_response cli_result) then
    (CliReturn (mkProcessResult false "" 0 None "No response from Claude" false)
               (with_state Idle core),
     call)
  else
    let session_id :=
      if negb (bool_decide (cli_session_id cli_result = ""))
      then cli_session_id cli_result else session_id l in
    let l :=
      mkCliLoop session_id
        (cli_full_response l +:+ response_text cli_result)
        (total_cost l + cli_cost cli_result)%Q
        (total_turns l + 1)%Z
        (current_message l) (is_continue l) in
    if Script.has_idascript_blocks (response_text cli_result) then
      let ps := process_scripts core (response_text cli_result) in
      match scripts ps, outputs ps with
      | _ :: _, _ :: _ =>
          if bool_decide (session_id = "") then
            (CliBreak core l, call ++ script_effects ps)
          else
            (CliContinue core
               (mkCliLoop session_id (cli_full_response l) (total_cost l)
                          (total_turns l) (cli_combined_output (outputs ps))
                          true),
             call ++ script_effects ps)
      | _, _ => (CliBreak core l, call ++ script_effects ps)
      end
    else (CliBreak core l, call)
.

(** What follows the loop of [process_message_cli]. *)
Definition cli_finish (core : Impl) (l : CliLoop)
    : ProcessResult * Impl * list Effect :=
  (mkProcessResult true (Script.strip_idascript_blocks (cli_full_response l))
                   (total_turns l) (Some (total_cost l)) "" false,
   with_state Idle core,
   logged core
     (append_assistant_message (cli_full_response l) (opt_model (options core))
                               usage_zero)
   ++ [on_result (total_turns l) (total_cost l)]).

(** The [for (turn = 0; turn < max_turns && !cancelled; turn++)] loop of
    [process_message_cli]. *)
Equations? cli_loop (limit : Z) (runs : Z -> CliRun) (core : Impl)
    (l : CliLoop) (turn : Z) : ProcessResult * Impl * list Effect
    by wf (Z.to_nat (limit - turn)) lt :=
  cli_loop limit runs core l turn with Z_lt_dec turn limit := {
    | right _ => cli_finish core l
    | left Hlt =>
        if cancelled core then cli_finish core l
        else
          let r := cli_turn core l turn (runs turn) in
          match r.1 with
          | CliContinue core' l' =>
              let rest := cli_loop limit runs core' l' (turn + 1)%Z in
              (rest.1, r.2 ++ rest.2)
          | CliBreak core' l' =>
              let rest := cli_finish core' l' in
              (rest.1, r.2 ++ rest.2)
          | CliReturn result core' => (result, core', r.2)
          end }.
Proof. lia. Qed.

(** What the outside does during one [process_message]: the transfer of
    each request of the network mode, by turn number, and the run of
    each call of the command-line agent, by loop counter. *)
Record World := mkWorld {
  transfers : Z -> Client.Transfer;
  cli_runs : Z -> CliRun
}.

(** [ChatCore::Impl::process_message_cli] *)
Definition process_message_cli (core : Impl) (user_input : string)
    (w : World) : ProcessResult * Impl * list Effect :=
  let core := with_state Processing core in
  let core := with_cancelled false core in
  let log := logged core (append_user_message user_input) in
  let l := mkCliLoop "" "" 0%Q 0%Z user_input false in
  let r := cli_loop (max_turns (options core)) (cli_runs w) core l 0%Z in
  (r.1, log ++ r.2).

(** [ChatCore::process_message]: the result, the engine afterwards and
    what it did to the outside, in order.  As for
    [send_message_streaming], the calls described are those in which
    every request of the run can be serialized; an exception of
    [dump()] leaves [process_message] without a result. *)
Definition process_message (core : Impl) (user_input : string) (w : World)
    : ProcessResult * Impl * list Effect :=
  if negb (is_connected core) then
    (mkProcessResult false "" 0 None "Not connected" false, core, [])
  else if use_cli_mode core then process_message_cli core user_input w
  else
    let core := with_state Processing core in
    let core := with_cancelled false core in
    let core :=
      with_conversation (conversation core ++ [ClaudeMessage_user user_input])
                        core in
    let log := logged core (append_user_message user_input) in
    let r := api_loop (max_turns (options core)) (transfers w) core 0%Z "" in
    (r.1, log ++ r.2).

End WithJsonParser.

End Core.

(** ** String utilities: core/types.cpp and core/types.hpp *)

Module Util.
Import Str.

(** [starts_with] of core/types.hpp *)
Definition starts_with (s pre : string) : bool :=
  (size pre <=? size s) && bool_decide (substr s 0 (size pre) = pre).

(** [ends_with] of core/types.hpp *)
Definition ends_with (s suffix : string) : bool :=
  (size suffix <=? size s)
  && bool_decide (substr s (size s - size suffix) (size suffix) = suffix).

(** The [while (std::getline(iss, token, delimiter))] loop of [split],
    one character of the stream at a time; [token] holds the characters
    extracted since the last delimiter.  At the end of the stream the
    last [getline] succeeds only if it has extracted a character. *)
Fixpoint split_loop (delimiter : ascii) (token : string) (s : string)
    : list string :=
  match s with
  | "" => if bool_decide (token = "") then [] else [token]
  | String c s' =>
      if Ascii.eqb c delimiter then token :: split_loop delimiter "" s'
      else split_loop delimiter (token +:+ String c "") s'
  end.

(** [split] *)
Definition split (s : string) (delimiter : ascii) : list string :=
  split_loop delimiter "" s.

(** [join]: the loop over the index [i] and the result so far. *)
Definition join (parts : list string) (delimiter : string) : string :=
  (foldl (fun acc part =>
            (S acc.1,
             (if 0 <? acc.1 then acc.2 +:+ delimiter else acc.2) +:+ part))
         (0, "") parts).2.

(** [result.find(from, pos)] *)
Definition find_from (pat s : string) (pos : nat) : option nat :=
  if pos <=? size s then (fun i => pos + i) <$> find pat (drop pos s)
  else None.

Lemma find_from_bound (pat s : string) (pos p : nat) :
  find_from pat s pos = Some p -> pos <= p /\ p + size pat <= size s.
Proof.
  unfold find_from. destruct (pos <=? size s) eqn:Hle; [|discriminate].
  apply Nat.leb_le in Hle.
  destruct (find pat (drop pos s)) as [i|] eqn:Hi; [|discriminate].
  intros [= <-]. apply find_bound in Hi. rewrite size_drop in Hi. lia.
Qed.

(** The [while ((pos = result.find(from, pos)) != npos)] loop of
    [replace_all], for the non-empty pattern [String f from']. *)
Equations? replace_loop (f : ascii) (from' to result : string) (pos : nat)
    : string by wf (size result - pos) lt :=
  replace_loop f from' to result pos
    with exist (fun r => find_from (String f from') result pos = r)
               (find_from (String f from') result pos) eq_refl := {
    | exist _ (Some p) Hp =>
        (* result.replace(p, from.length(), to); pos = p + to.length() *)
        replace_loop f from' to
          (take p result +:+ to +:+ drop (p + size (String f from')) result)
          (p + size to);
    | exist _ None _ => result }.
Proof.
  apply find_from_bound in Hp. simpl in Hp.
  rewrite !size_app, size_take, size_drop. simpl String.length. lia.
Qed.

(** [replace_all] *)
Definition replace_all (s from to : string) : string :=
  match from with
  | "" => s
  | String f from' => replace_loop f from' to s 0
  end.

(** The replacement of one character by [html_escape]. *)
Definition html_escape_char (c : ascii) : string :=
  if Ascii.eqb c "&" then "&amp;"
  else if Ascii.eqb c "<" then "&lt;"
  else if Ascii.eqb c ">" then "&gt;"
  else if Ascii.eqb c DQ then "&quot;"
  else if Ascii.eqb c "'" then "&#39;"
  else String c "".

(** [html_escape] *)
Fixpoint html_escape (s : string) : string :=
  match s with
  | "" => ""
  | String c s' => html_escape_char c +:+ html_escape s'
  end.

End Util.

(** ** URL-safe Base64: core/types.cpp *)

Module Base64.
Import Str.

Definition base64_url_chars : string :=
  "ABCDEFGHIJKLMNOPQRSTUVWXYZabcdefghijklmnopqrstuvwxyz0123456789-_".

(** [base64_url_chars\[i\]] *)
Definition char_at (i : Z) : ascii :=
  default "000"%char (String.get (Z.to_nat i) base64_url_chars).

(** A character read as [unsigned char]. *)
Definition octet (c : ascii) : Z := Z.of_N (N_of_ascii c).

(** The arithmetic of [uint32_t]. *)
Definition wrap_u32 (z : Z) : Z := (z mod 2 ^ 32)%Z.

(** The four characters that one round of the loop of
    [base64_url_encode] appends, for the three octets it has read. *)
Definition encode_triple (octet_a octet_b octet_c : Z) : string :=
  let triple :=
    wrap_u32 (wrap_u32 (wrap_u32 (Z.shiftl octet_a 16)
                        + wrap_u32 (Z.shiftl octet_b 8))
              + octet_c) in
  String (char_at (Z.land (Z.shiftr triple 18) 63))
    (String (char_at (Z.land (Z.shiftr triple 12) 63))
       (String (char_at (Z.land (Z.shiftr triple 6) 63))
          (String (char_at (Z.land triple 63)) ""))).

(** The loop of [base64_url_encode]: up to three octets per round, zero
    for an octet past the end of the input. *)
Fixpoint encode_loop (input : string) : string :=
  match input with
  | "" => ""
  | String a "" => encode_triple (octet a) 0 0
  | String a (String b "") => encode_triple (octet a) (octet b) 0
  | String a (String b (String c rest)) =>
      encode_triple (octet a) (octet b) (octet c) +:+ encode_loop rest
  end.

(** [base64_url_encode] *)
Definition base64_url_encode (input : string) : string :=
  let result := encode_loop input in
  let padding := (3 - size input mod 3) mod 3 in
  if 0 <? padding then take (size result - padding) result else result.

Definition decode_table : list Z :=
  [
    -1; -1; -1; -1; -1; -1; -1; -1; -1; -1; -1; -1; -1; -1; -1; -1;
    -1; -1; -1; -1; -1; -1; -1; -1; -1; -1; -1; -1; -1; -1; -1; -1;
    -1; -1; -1; -1; -1; -1; -1; -1; -1; -1; -1; -1; -1; 62; -1; -1;
    52; 53; 54; 55; 56; 57; 58; 59; 60; 61; -1; -1; -1; -1; -1; -1;
    -1;  0;  1;  2;  3;  4;  5;  6;  7;  8;  9; 10; 11; 12; 13; 14;
    15; 16; 17; 18; 19; 20; 21; 22; 23; 24; 25; -1; -1; -1; -1; 63;
    -1; 26; 27; 28; 29; 30; 31; 32; 33; 34; 35; 36; 37; 38; 39; 40;
    41; 42; 43; 44; 45; 46; 47; 48; 49; 50; 51; -1; -1; -1; -1; -1;
    -1; -1; -1; -1; -1; -1; -1; -1; -1; -1; -1; -1; -1; -1; -1; -1;
    -1; -1; -1; -1; -1; -1; -1; -1; -1; -1; -1; -1; -1; -1; -1; -1;
    -1; -1; -1; -1; -1; -1; -1; -1; -1; -1; -1; -1; -1; -1; -1; -1;
    -1; -1; -1; -1; -1; -1; -1; -1; -1; -1; -1; -1; -1; -1; -1; -1;
    -1; -1; -1; -1; -1; -1; -1; -1; -1; -1; -1; -1; -1; -1; -1; -1;
    -1; -1; -1; -1; -1; -1; -1; -1; -1; -1; -1; -1; -1; -1; -1; -1;
    -1; -1; -1; -1; -1; -1; -1; -1; -1; -1; -1; -1; -1; -1; -1; -1;
    -1; -1; -1; -1; -1; -1; -1; -1; -1; -1; -1; -1; -1; -1; -1; -1
  ]%Z.

(** [decode_table\[static_cast<unsigned char>(c)\]] *)
Definition decode_at (c : ascii) : Z :=
  default (-1)%Z (decode_table !! nat_of_ascii c).

(** [static_cast<char>(x)] *)
Definition to_char (x : Z) : ascii := ascii_of_N (Z.to_N (x mod 256)).

(** The loop that pads the input with [=] to a multiple of four
    characters; it runs at most three times. *)
Fixpoint pad (rounds : nat) (padded : string) : string :=
  match rounds with
  | O => padded
  | S rounds' =>
      if negb (size padded mod 4 =? 0) then pad rounds' (padded +:+ "=")
      else padded
  end.

(** The loop of [base64_url_decode] over the padded input, four
    characters per round; a first or second character outside the
    alphabet ends the loop. *)
Fixpoint decode_loop (padded : string) : string :=
  match padded with
  | String ca (String cb (String cc (String cd rest))) =>
      let a := decode_at ca in
      let b := decode_at cb in
      let c := decode_at cc in
      let d := decode_at cd in
      if (a <? 0)%Z || (b <? 0)%Z then ""
      else
        String (to_char (Z.lor (Z.shiftl a 2) (Z.shiftr b 4)))
          (if (0 <=? c)%Z then
             String (to_char (Z.lor (Z.shiftl (Z.land b 15) 4) (Z.shiftr c 2)))
               (if (0 <=? d)%Z then
                  String (to_char (Z.lor (Z.shiftl (Z.land c 3) 6) d))
                         (decode_loop rest)
                else decode_loop rest)
           else decode_loop rest)
  | _ => ""
  end.

(** [base64_url_decode] *)
Definition base64_url_decode (input : string) : string :=
  decode_loop (pad 3 input).

End Base64.

(** ** The names of the enumerations: core/types.hpp and
    api/claude_types.hpp *)

Module Names.
Import Types.

(** [stop_reason_str] *)
Definition stop_reason_str (reason : StopReason) : string :=
  match reason with
  | EndTurn => "end_turn"
  | MaxTokens => "max_tokens"
  | ToolUse => "tool_use"
  | StopSequence => "stop_sequence"
  end.

(** [message_role_from_str] *)
Definition message_role_from_str (s : string) : MessageRole :=
  if bool_decide (s = "user") then User else Assistant.

Inductive AuthType := AuthNone | AuthSystem | AuthOAuth | AuthApiKey.

(** [auth_type_str] *)
Definition auth_type_str (type : AuthType) : string :=
  match type with
  | AuthNone => "none"
  | AuthSystem => "system"
  | AuthOAuth => "oauth"
  | AuthApiKey => "api_key"
  end.

(** [auth_type_from_str] *)
Definition auth_type_from_str (s : string) : AuthType :=
  if bool_decide (s = "system") then AuthSystem
  else if bool_decide (s = "oauth") then AuthOAuth
  else if bool_decide (s = "api_key") then AuthApiKey
  else AuthNone.

End Names.

(** ** Serialization to text: what [nlohmann::json::dump] requires

    [dump()] with its default arguments checks every string it writes,
    member names included, with a UTF-8 decoder and throws
    [type_error.316] on a string that is not well-formed UTF-8 (an
    invalid byte, or a sequence cut short at the end of the string). *)

Module Dump.





End Dump.

(** ** Sample streams

    Concrete inputs for the examples below: a few JSON documents, their
    compact text (what the service sends in a [data:] line) and a parser
    that knows exactly these documents. *)

Module Sample.
Import Types.

(** A JSON document of strings, small numbers and objects. *)
#[warnings="-register-all"]
Inductive Doc :=
| DStr (s : string)
| DNum (n : nat)
| DObj (members : list (string * Doc)).

Definition quoted (s : string) : string :=
  String Str.DQ s +:+ String Str.DQ "".

(** The compact JSON text of a document. *)
Fixpoint print (d : Doc) : string :=
  match d with
  | DStr s => quoted s
  | DNum n => pretty n
  | DObj members =>
      let fix print_members (l : list (string * Doc)) : string :=
        match l with
        | [] => ""
        | [(k, v)] => quoted k +:+ ":" +:+ print v
        | (k, v) :: l' => quoted k +:+ ":" +:+ print v +:+ "," +:+ print_members l'
        end in
      "{" +:+ print_members members +:+ "}"
  end.

(** The JSON value of a document. *)
Fixpoint denote (d : Doc) : Json.t :=
  match d with
  | DStr s => Json.Str s
  | DNum n => Json.Int (Z.of_nat n)
  | DObj members =>
      let fix denote_members (l : list (string * Doc))
          : list (string * Json.t) :=
        match l with
        | [] => []
        | (k, v) :: l' => (k, denote v) :: denote_members l'
        end in
      Json.object (denote_members members)
  end.

(** A parser for the documents of [known]. *)
Fixpoint parse_known (known : list Doc) (text : string) : option Json.t :=
  match known with
  | [] => None
  | d :: known' =>
      if bool_decide (print d = text) then Some (denote d)
      else parse_known known' text
  end.

Definition message_start : Doc :=
  DObj [("type", DStr "message_start");
        ("message",
         DObj [("id", DStr "msg_1");
               ("usage", DObj [("input_tokens", DNum 12);
                               ("output_tokens", DNum 1)])])].

Definition content_block_start : Doc :=
  DObj [("type", DStr "content_block_start"); ("index", DNum 0);
        ("content_block", DObj [("type", DStr "text"); ("text", DStr "")])].

Definition text_delta (text : string) : Doc :=
  DObj [("type", DStr "content_block_delta"); ("index", DNum 0);
        ("delta", DObj [("type", DStr "text_delta"); ("text", DStr text)])].

Definition content_block_stop : Doc :=
  DObj [("type", DStr "content_block_stop"); ("index", DNum 0)].

Definition message_stop : Doc := DObj [("type", DStr "message_stop")].

Definition script_reply : string := "<idascript>print(1)</idascript>".

Definition documents : list Doc :=
  [message_start; content_block_start; text_delta "Hel"; text_delta "lo";
   text_delta script_reply; content_block_stop; message_stop].

Definition json_parse : string -> option Json.t := parse_known documents.

(** The [data:] line of a document. *)
Definition data_line (d : Doc) : string :=
  "data: " +:+ print d +:+ String Str.LF "".

Definition stream_of (l : list Doc) : string :=
  foldr (fun d acc => data_line d +:+ acc) "" l.

(** The stream of a reply that says [Hello]. *)
Definition hello_stream : string :=
  stream_of [message_start; content_block_start; text_delta "Hel";
             text_delta "lo"; content_block_stop; message_stop].

(** The stream of a reply that carries one script directive. *)
Definition script_stream : string :=
  stream_of [message_start; content_block_start; text_delta script_reply;
             content_block_stop; message_stop].

(** A script executor that prints [1] for every script. *)
Definition executor (code : string) : Core.ScriptResult :=
  Core.mkScriptResult true "1" "".

Definition client : Client.ClaudeClient :=
  Client.mkClaudeClient "key" "claude" usage_zero false.

(** A connected engine in network mode with the given turn budget. *)
Definition core (max_turns : Z) : Core.Impl :=
  Core.mkCore (Some executor) false
    (Core.mkChatCoreOptions max_turns false "claude" false 10000)
    (Some client) [] "" false Core.Idle usage_zero false "".

(** A service that answers every request with the given stream, in one
    chunk, and is never cancelled. *)
Definition world (stream : string) : Core.World :=
  Core.mkWorld
    (fun _ => Client.mkTransfer [stream] None)
    (fun _ => Core.mkCliRun (Core.mkCLIResponse "" "" false 0 1 "") [] false).

End Sample.


(** * Properties *)

(** ** The request serializer *)

Section WireFacts.
Import Types.

Lemma member_set_ne (k k' : string) (v j : Json.t) :
  k <> k' -> Json.member (Json.set k v j) k' = Json.member j k'.
Proof.
  intros Hne. destruct j; simpl; try reflexivity.
  - now rewrite lookup_singleton_ne.
  - now rewrite lookup_insert_ne.
Qed.

Lemma member_push_back_at_ne (k k' : string) (v j : Json.t) :
  k <> k' -> Json.member (Json.push_back_at k v j) k' = Json.member j k'.
Proof.
  intros Hne. destruct j as [| | | | | |m]; simpl; try reflexivity.
  destruct (m !! k) as [[]|]; simpl; try reflexivity.
  now rewrite lookup_insert_ne.
Qed.

Lemma member_foldl_push_back_at_ne {A : Type} (f : A -> Json.t)
    (k k' : string) (l : list A) (j : Json.t) :
  k <> k' ->
  Json.member (foldl (fun j x => Json.push_back_at k (f x) j) j l) k'
  = Json.member j k'.
Proof.
  intros Hne. revert j; induction l as [|x l IH]; intros j; simpl.
  - reflexivity.
  - now rewrite IH, member_push_back_at_ne.
Qed.

Lemma member_object_nil (k : string) : Json.member (Json.object []) k = None.
Proof. reflexivity. Qed.

Lemma member_object_cons_ne (k k' : string) (v : Json.t)
    (l : list (string * Json.t)) :
  k <> k' ->
  Json.member (Json.object ((k, v) :: l)) k' = Json.member (Json.object l) k'.
Proof. intros Hne. simpl. now rewrite lookup_insert_ne. Qed.

End WireFacts.

(** Rewrites a lookup of a key through the steps that leave it alone. *)
Ltac skip_other_keys :=
  repeat first
    [ rewrite member_set_ne by discriminate
    | rewrite member_foldl_push_back_at_ne by discriminate
    | rewrite member_object_cons_ne by discriminate
    | rewrite member_object_nil ].

(** ** The directive scanner *)

Section ScriptFacts.
Import Script.

Lemma extract_loop_eq (text : string) (last_end : nat)
    (blocks : list ScriptBlock) :
  extract_loop text last_end blocks =
  match regex_search_script (Str.drop last_end text) with
  | Some m =>
      let match_start := position m + last_end in
      let block :=
        {| preceding_text :=
             Str.substr text last_end (match_start - last_end);
           code := Str.trim (group1 m) |} in
      extract_loop text (match_start + mlength m) (blocks ++ [block])
  | None => (blocks, last_end)
  end.
Proof.
  rewrite extract_loop_equation_1.
  assert (Hgen : forall o (H : regex_search_script (Str.drop last_end text) = o),
    extract_loop_unfold_clause_1 text last_end (exist _ o H) blocks =
    match o with
    | Some m =>
        let match_start := position m + last_end in
        let block :=
          {| preceding_text :=
               Str.substr text last_end (match_start - last_end);
             code := Str.trim (group1 m) |} in
        extract_loop text (match_start + mlength m) (blocks ++ [block])
    | None => (blocks, last_end)
    end).
  { intros [m|] H; simp extract_loop; reflexivity. }
  apply Hgen.
Qed.

(** The text holds no opening marker that a closing marker follows. *)
Definition no_marker_pair (s : string) : Prop :=
  forall a b c, s <> a +:+ OPEN_TAG +:+ b +:+ CLOSE_TAG +:+ c.

(** A successful search splits the text around the match. *)
Lemma regex_search_script_split (s : string) (m : smatch) :
  regex_search_script s = Some m ->
  s = Str.take (position m) s +:+ OPEN_TAG +:+ group1 m +:+ CLOSE_TAG
      +:+ Str.drop (position m + mlength m) s.
Proof.
  unfold regex_search_script.
  destruct (Str.find OPEN_TAG s) as [i|] eqn:Hi; [|discriminate].
  destruct (Str.find CLOSE_TAG _) as [k|] eqn:Hk; [|discriminate].
  intros [= <-]. cbn [position mlength group1].
  apply Str.find_Some_split in Hi, Hk.
  rewrite Hi at 1. do 2 f_equal. rewrite Hk at 1. do 2 f_equal.
  rewrite Str.drop_drop. f_equal. simpl String.length. lia.
Qed.

(** The search fails exactly on the texts without a marker pair. *)
Lemma regex_search_script_None (s : string) :
  regex_search_script s = None <-> no_marker_pair s.
Proof.
  split.
  - intros Hnone a b c Hs. unfold regex_search_script in Hnone.
    destruct (Str.find_app_le OPEN_TAG a (b +:+ CLOSE_TAG +:+ c))
      as (i & Hi & Hle).
    rewrite <- Hs in Hi. rewrite Hi in Hnone.
    assert (Hdrop : Str.drop (i + Str.size OPEN_TAG) s
                    = Str.drop (i + Str.size OPEN_TAG) (a +:+ OPEN_TAG +:+ b)
                      +:+ CLOSE_TAG +:+ c).
    { assert (Hs' : s = (a +:+ OPEN_TAG +:+ b) +:+ CLOSE_TAG +:+ c)
        by now rewrite Hs, !Str.app_assoc.
      rewrite Hs' at 1. apply Str.drop_app_le.
      rewrite !Str.size_app. lia. }
    rewrite Hdrop in Hnone.
    destruct (Str.find_app_le CLOSE_TAG
                (Str.drop (i + Str.size OPEN_TAG) (a +:+ OPEN_TAG +:+ b)) c)
      as (k & Hk & _).
    rewrite Hk in Hnone. discriminate.
  - intros Hno. destruct (regex_search_script s) as [m|] eqn:Hm; [|reflexivity].
    apply regex_search_script_split in Hm. now apply Hno in Hm.
Qed.

(** The search on a text that starts with a segment: text without an
    earlier opening marker, the opening marker, a body without an
    earlier closing marker, the closing marker. *)
Lemma regex_search_script_first (pre body rest : string) :
  Str.find OPEN_TAG (pre +:+ OPEN_TAG) = Some (Str.size pre) ->
  Str.find CLOSE_TAG (body +:+ CLOSE_TAG) = Some (Str.size body) ->
  regex_search_script (pre +:+ OPEN_TAG +:+ body +:+ CLOSE_TAG +:+ rest)
  = Some {| position := Str.size pre;
            mlength := Str.size OPEN_TAG + Str.size body + Str.size CLOSE_TAG;
            group1 := body |}.
Proof.
  intros Hpre Hbody. unfold regex_search_script.
  rewrite (Str.find_app_first _ _ _ Hpre).
  rewrite <- (Str.app_assoc pre OPEN_TAG).
  rewrite <- (Str.size_app pre OPEN_TAG), Str.drop_app_size.
  rewrite (Str.find_app_first _ _ _ Hbody).
  now rewrite Str.take_app_size.
Qed.

(** A reading of a text as segments followed by a tail without a marker
    pair: [pre1 <open> body1 <close> ... pren <open> bodyn <close> tail],
    where the opening marker of a segment is the first one from the
    start of the segment, and its closing marker the first one from the
    start of its body. *)
Inductive segmented : string -> list (string * string) -> string -> Prop :=
| segmented_tail (tail : string) :
    no_marker_pair tail -> segmented tail [] tail
| segmented_cons (pre body rest : string) (segs : list (string * string))
    (tail : string) :
    Str.find OPEN_TAG (pre +:+ OPEN_TAG) = Some (Str.size pre) ->
    Str.find CLOSE_TAG (body +:+ CLOSE_TAG) = Some (Str.size body) ->
    segmented rest segs tail ->
    segmented (pre +:+ OPEN_TAG +:+ body +:+ CLOSE_TAG +:+ rest)
              ((pre, body) :: segs) tail.

(** The block of a segment. *)
Definition block_of (seg : string * string) : ScriptBlock :=
  {| code := Str.trim seg.2; preceding_text := seg.1 |}.

Lemma segmented_size (s : string) (segs : list (string * string))
    (tail : string) :
  segmented s segs tail ->
  Str.size tail <= Str.size s
  /\ Str.drop (Str.size s - Str.size tail) s = tail
  /\ (segs <> [] -> Str.size tail < Str.size s).
Proof.
  induction 1 as [tail Hno|pre body rest segs tail Hpre Hbody Hseg IH].
  - rewrite Nat.sub_diag. simpl. now destruct tail.
  - destruct IH as (Hle & Hdrop & _).
    rewrite !Str.size_app. repeat split; try (simpl; lia).
    replace (Str.size pre + (Str.size OPEN_TAG + (Str.size body
               + (Str.size CLOSE_TAG + Str.size rest))) - Str.size tail)
      with (Str.size pre + (Str.size OPEN_TAG + (Str.size body
               + (Str.size CLOSE_TAG + (Str.size rest - Str.size tail)))))
      by lia.
    now rewrite !Str.drop_app_size_plus.
Qed.

(** The loop of the extraction follows the segments. *)
Lemma extract_loop_segmented (s : string) (segs : list (string * string))
    (tail : string) :
  segmented s segs tail ->
  forall text last_end blocks,
    Str.drop last_end text = s ->
    last_end <= Str.size text ->
    extract_loop text last_end blocks
    = (blocks ++ map block_of segs, Str.size text - Str.size tail).
Proof.
  induction 1 as [tail Hno|pre body rest segs tail Hpre Hbody Hseg IH];
    intros text last_end blocks Hdrop Hle; rewrite extract_loop_eq, Hdrop.
  - apply regex_search_script_None in Hno. rewrite Hno.
    rewrite app_nil_r. f_equal.
    rewrite <- Hdrop, Str.size_drop. lia.
  - rewrite (regex_search_script_first _ _ _ Hpre Hbody).
    cbn [position mlength group1]. cbv zeta.
    assert (Hsize : Str.size text - last_end
                    = Str.size pre + (Str.size OPEN_TAG + (Str.size body
                        + (Str.size CLOSE_TAG + Str.size rest)))).
    { rewrite <- Str.size_drop, Hdrop. now rewrite !Str.size_app. }
    rewrite IH.
    + rewrite <- app_assoc. do 2 f_equal. unfold block_of. simpl.
      f_equal. unfold Str.substr. rewrite Hdrop.
      replace (Str.size pre + last_end - last_end) with (Str.size pre) by lia.
      now rewrite Str.take_app_size.
    + replace (Str.size pre + last_end
               + (Str.size OPEN_TAG + Str.size body + Str.size CLOSE_TAG))
        with (last_end + (Str.size pre + (Str.size OPEN_TAG
                + (Str.size body + (Str.size CLOSE_TAG + 0))))) by lia.
      rewrite <- Str.drop_drop, Hdrop.
      now rewrite !Str.drop_app_size_plus.
    + lia.
Qed.

(** What the extraction returns on a segmented text: the block of each
    segment and, when there is a segment and the tail is not empty, a
    block without code for the tail. *)
Lemma extract_segmented (text : string) (segs : list (string * string))
    (tail : string) :
  segmented text segs tail ->
  extract_idascript_blocks text
  = map block_of segs
    ++ match segs with
       | [] => []
       | _ :: _ =>
           if bool_decide (tail = "") then []
           else [ {| code := ""; preceding_text := tail |} ]
       end.
Proof.
  intros Hseg. unfold extract_idascript_blocks.
  rewrite (extract_loop_segmented _ _ _ Hseg text 0 []) by (auto with arith).
  destruct (segmented_size _ _ _ Hseg) as (Hle & Hdrop & Hlt).
  destruct segs as [|seg segs]; [reflexivity|].
  cbn [app map]. rewrite Hdrop.
  destruct (bool_decide (tail = "")) eqn:Htail.
  - apply bool_decide_eq_true in Htail. subst tail.
    simpl Str.size. rewrite Nat.sub_0_r, Nat.ltb_irrefl.
    now rewrite app_nil_r.
  - apply bool_decide_eq_false in Htail.
    assert (0 < Str.size tail) by (destruct tail; [congruence|simpl; lia]).
    replace (Str.size text - Str.size tail <? Str.size text) with true
      by (symmetry; apply Nat.ltb_lt; lia).
    reflexivity.
Qed.

(** A match starts at the first opening marker and ends at the first
    closing marker after it. *)
Lemma regex_search_script_firsts (s : string) (m : smatch) :
  regex_search_script s = Some m ->
  Str.find OPEN_TAG (Str.take (position m) s +:+ OPEN_TAG)
  = Some (Str.size (Str.take (position m) s))
  /\ Str.find CLOSE_TAG (group1 m +:+ CLOSE_TAG) = Some (Str.size (group1 m)).
Proof.
  unfold regex_search_script.
  destruct (Str.find OPEN_TAG s) as [i|] eqn:Hi; [|discriminate].
  destruct (Str.find CLOSE_TAG _) as [k|] eqn:Hk; [|discriminate].
  intros [= <-]. cbn [position mlength group1].
  split; now apply Str.find_take.
Qed.

(** A reading has no segment exactly when the text has no marker
    pair. *)
Lemma segmented_nil_iff (s : string) (segs : list (string * string))
    (tail : string) :
  segmented s segs tail -> segs = [] <-> no_marker_pair s.
Proof.
  destruct 1 as [tail Hno|pre body rest segs tail Hpre Hbody Hseg].
  - tauto.
  - split; [discriminate|]. intros Hno. now contradiction (Hno pre body rest).
Qed.

(** Every text has a reading as segments and a tail. *)
Lemma segmented_total (s : string) :
  exists segs tail, segmented s segs tail.
Proof.
  remember (Str.size s) as n eqn:Hn.
  revert s Hn. induction n as [n IH] using lt_wf_ind. intros s Hn.
  destruct (regex_search_script s) as [m|] eqn:Hm.
  - pose proof (regex_search_script_bound _ _ Hm) as [Hpos Hbound].
    pose proof (regex_search_script_split _ _ Hm) as Hsplit.
    pose proof (regex_search_script_firsts _ _ Hm) as [Hopen Hclose].
    set (rest := Str.drop (position m + mlength m) s) in *.
    destruct (IH (Str.size rest)) with (s := rest) as (segs & tail & Hseg);
      [subst rest; rewrite Str.size_drop; lia|reflexivity|].
    exists ((Str.take (position m) s, group1 m) :: segs), tail.
    rewrite Hsplit at 1. now apply segmented_cons.
  - exists [], s. now apply segmented_tail, regex_search_script_None.
Qed.

End ScriptFacts.

(** ** The streaming parser *)

Section ParserFacts.
Import Types Parser.

Variable json_parse : string -> option Json.t.

Lemma in_range_false {A : Type} (idx : Z) (v : list A) :
  (Z.of_nat (length v) <= idx)%Z -> in_range idx v = false.
Proof. intros H. unfold in_range. now apply Z.ltb_ge. Qed.

(** Case analysis on everything a parser function branches on. *)
Ltac parser_cases :=
  repeat (match goal with
          | |- context [match ?x with _ => _ end] => destruct x eqn:?
          | |- context [if ?x then _ else _] => destruct x eqn:?
          end; simpl in *; try reflexivity; try congruence;
          try (simplify_eq; reflexivity)).

(** [process_event] neither reads nor writes the line buffer. *)
Lemma process_event_with_buffer (b : string) (st : Impl) (e : StreamEvent) :
  process_event json_parse (with_buffer b st) e
  = with_buffer b (process_event json_parse st e).
Proof.
  destruct st. unfold process_event, with_buffer. simpl.
  parser_cases.
Qed.

Lemma process_line_with_buffer (b : string) (st : Impl) (line : string) :
  process_line json_parse (with_buffer b st) line
  = (with_buffer b (process_line json_parse st line).1,
     (process_line json_parse st line).2).
Proof.
  unfold process_line.
  repeat (match goal with
          | |- context [if ?x then _ else _] => destruct x
          | |- context [match decode ?p ?x with _ => _ end] =>
              destruct (decode p x)
          end; try reflexivity).
  simpl. now rewrite process_event_with_buffer.
Qed.

Lemma with_buffer_with_buffer (a b : string) (st : Impl) :
  with_buffer a (with_buffer b st) = with_buffer a st.
Proof. reflexivity. Qed.

Lemma with_buffer_id (st : Impl) : with_buffer (buffer st) st = st.
Proof. now destruct st. Qed.

Lemma feed_loop_eq (st : Impl) :
  feed_loop json_parse st =
  match Str.find_char Str.LF (buffer st) with
  | Some pos =>
      let line := chomp (Str.substr (buffer st) 0 pos) in
      let st1 := with_buffer (Str.drop (pos + 1) (buffer st)) st in
      if negb (bool_decide (line = "")) then
        let r := process_line json_parse st1 line in
        let r' := feed_loop json_parse r.1 in
        (r'.1, r.2 ++ r'.2)
      else feed_loop json_parse st1
  | None => (st, [])
  end.
Proof.
  rewrite feed_loop_equation_1.
  assert (Hgen : forall o (H : Str.find_char Str.LF (buffer st) = o),
    feed_loop_unfold_clause_1 json_parse st (exist _ o H) =
    match o with
    | Some pos =>
      let line := chomp (Str.substr (buffer st) 0 pos) in
      let st1 := with_buffer (Str.drop (pos + 1) (buffer st)) st in
      if negb (bool_decide (line = "")) then
        let r := process_line json_parse st1 line in
        let r' := feed_loop json_parse r.1 in
        (r'.1, r.2 ++ r'.2)
      else feed_loop json_parse st1
    | None => (st, [])
    end).
  { intros [pos|] H; simp feed_loop; reflexivity. }
  apply Hgen.
Qed.

(** The loop of [feed] stops with a buffer that holds no line feed. *)
Lemma feed_loop_no_newline (st : Impl) :
  Str.find_char Str.LF (buffer (feed_loop json_parse st).1) = None.
Proof.
  remember (Str.size (buffer st)) as n eqn:Hn.
  revert st Hn. induction n as [n IH] using lt_wf_ind. intros st Hn.
  rewrite feed_loop_eq.
  destruct (Str.find_char Str.LF (buffer st)) as [pos|] eqn:Hpos; [|exact Hpos].
  apply Str.find_bound in Hpos. simpl in Hpos.
  cbv zeta. destruct (negb _); simpl.
  - eapply IH; [|reflexivity].
    rewrite process_line_buffer. simpl. rewrite Str.size_drop. lia.
  - eapply IH; [|reflexivity]. simpl. rewrite Str.size_drop. lia.
Qed.

(** Feeding more data after the loop has run is the loop run on the
    whole buffer. *)
Lemma feed_loop_app (st : Impl) (more : string) :
  let r := feed_loop json_parse st in
  let r' := feed_loop json_parse (with_buffer (buffer r.1 +:+ more) r.1) in
  feed_loop json_parse (with_buffer (buffer st +:+ more) st)
  = (r'.1, r.2 ++ r'.2).
Proof.
  remember (Str.size (buffer st)) as n eqn:Hn.
  revert st Hn. induction n as [n IH] using lt_wf_ind. intros st Hn.
  cbv zeta.
  rewrite (feed_loop_eq st).
  destruct (Str.find_char Str.LF (buffer st)) as [pos|] eqn:Hpos.
  - pose proof (Str.find_bound _ _ _ Hpos) as Hb. simpl in Hb.
    rewrite (feed_loop_eq (with_buffer _ st)). simpl buffer.
    unfold Str.find_char in *.
    rewrite (Str.find_app_Some _ _ more _ Hpos).
    cbv zeta. unfold Str.substr. simpl Str.drop.
    rewrite (Str.take_app_le pos (buffer st) more) by lia.
    rewrite (Str.drop_app_le (pos + 1) (buffer st) more) by lia.
    rewrite with_buffer_with_buffer.
    set (line := chomp (Str.take pos (buffer st))).
    set (rest := Str.drop (pos + 1) (buffer st)).
    assert (Hrest : Str.size rest < n).
    { subst rest. rewrite Str.size_drop. lia. }
    destruct (negb (bool_decide (line = ""))).
    + rewrite !process_line_with_buffer. simpl fst. simpl snd.
      set (pl := process_line json_parse st line).
      pose proof (IH (Str.size (buffer (with_buffer rest pl.1)))
                     ltac:(exact Hrest) (with_buffer rest pl.1) eq_refl)
        as IH2.
      cbv zeta in IH2. simpl buffer in IH2 at 1.
      rewrite with_buffer_with_buffer in IH2. rewrite IH2.
      cbn [fst snd]. now rewrite app_assoc.
    + pose proof (IH (Str.size (buffer (with_buffer rest st)))
                     ltac:(exact Hrest) (with_buffer rest st) eq_refl) as IH2.
      cbv zeta in IH2. simpl buffer in IH2 at 1.
      rewrite with_buffer_with_buffer in IH2. exact IH2.
  - simpl. now destruct (feed_loop json_parse _).
Qed.

(** Two [feed] calls are one [feed] call with the concatenated data. *)
Lemma feed_feed (st : Impl) (a b : string) :
  let r := feed json_parse st a in
  let r' := feed json_parse r.1 b in
  feed json_parse st (a +:+ b) = (r'.1, r.2 ++ r'.2).
Proof.
  cbv zeta. unfold feed.
  pose proof (feed_loop_app (with_buffer (buffer st +:+ a) st) b) as H.
  cbv zeta in H. simpl buffer in H at 1.
  rewrite with_buffer_with_buffer, Str.app_assoc in H. exact H.
Qed.

(** A stream fed in two chunks is the stream fed in one. *)
Lemma run_two (a b : string) :
  run json_parse [a; b] = run json_parse [a +:+ b].
Proof.
  unfold run. simpl feed_all. rewrite (feed_feed new_parser a b).
  cbn [fst snd]. now rewrite !app_nil_r.
Qed.

(** *** The parser state as a function of the events *)

(** The events applied to a state, in order. *)
Definition apply_events (st : Impl) (evs : list StreamEvent) : Impl :=
  foldl (process_event json_parse) st evs.

Lemma apply_events_with_buffer (b : string) (evs : list StreamEvent)
    (st : Impl) :
  apply_events (with_buffer b st) evs = with_buffer b (apply_events st evs).
Proof.
  revert st; induction evs as [|e evs IH]; intros st; simpl; [reflexivity|].
  now rewrite process_event_with_buffer, IH.
Qed.

Lemma apply_events_buffer (evs : list StreamEvent) (st : Impl) :
  buffer (apply_events st evs) = buffer st.
Proof.
  revert st; induction evs as [|e evs IH]; intros st; simpl; [reflexivity|].
  now rewrite IH, process_event_buffer.
Qed.

Lemma apply_events_app (st : Impl) (evs evs' : list StreamEvent) :
  apply_events st (evs ++ evs') = apply_events (apply_events st evs) evs'.
Proof. apply foldl_app. Qed.

Lemma process_line_events (st : Impl) (line : string) :
  (process_line json_parse st line).1
  = apply_events st (process_line json_parse st line).2.
Proof.
  unfold process_line.
  repeat (match goal with
          | |- context [if ?x then _ else _] => destruct x
          | |- context [match decode ?p ?x with _ => _ end] =>
              destruct (decode p x)
          end; try reflexivity).
Qed.

(** The state after the loop of [feed] is the state the events lead to,
    up to the line buffer. *)
Lemma feed_loop_events (st : Impl) :
  with_buffer "" (feed_loop json_parse st).1
  = with_buffer "" (apply_events st (feed_loop json_parse st).2).
Proof.
  remember (Str.size (buffer st)) as n eqn:Hn.
  revert st Hn. induction n as [n IH] using lt_wf_ind. intros st Hn.
  rewrite feed_loop_eq.
  destruct (Str.find_char Str.LF (buffer st)) as [pos|] eqn:Hpos;
    [|reflexivity].
  apply Str.find_bound in Hpos. simpl in Hpos. cbv zeta.
  set (rest := Str.drop (pos + 1) (buffer st)).
  assert (Hrest : Str.size rest < n).
  { subst rest. rewrite Str.size_drop. lia. }
  destruct (negb _); cbn [fst snd].
  - set (pl := process_line json_parse (with_buffer rest st) _).
    rewrite (IH (Str.size (buffer pl.1))); [| |reflexivity].
    + rewrite apply_events_app. subst pl.
      now rewrite process_line_events, !process_line_with_buffer,
        !apply_events_with_buffer.
    + subst pl. now rewrite process_line_buffer.
  - rewrite (IH (Str.size rest)); [|exact Hrest|reflexivity].
    now rewrite apply_events_with_buffer.
Qed.

Lemma feed_events (st : Impl) (data : string) :
  with_buffer "" (feed json_parse st data).1
  = with_buffer "" (apply_events st (feed json_parse st data).2).
Proof.
  unfold feed. now rewrite feed_loop_events, apply_events_with_buffer.
Qed.

Lemma finish_events (st : Impl) :
  (finish json_parse st).1
  = with_buffer "" (apply_events st (finish json_parse st).2).
Proof.
  unfold finish. destruct (negb _) eqn:Hb; cbn [fst snd].
  - now rewrite process_line_events.
  - apply negb_false_iff, bool_decide_eq_true in Hb.
    now rewrite <- Hb, with_buffer_id.
Qed.

Lemma feed_all_events (data : list string) (st : Impl) :
  with_buffer "" (feed_all json_parse st data).1
  = with_buffer "" (apply_events st (feed_all json_parse st data).2).
Proof.
  revert st; induction data as [|chunk data IH]; intros st; simpl;
    [reflexivity|].
  set (f := feed json_parse st chunk).
  set (g := feed_all json_parse f.1 data).
  subst g. rewrite IH, apply_events_app.
  rewrite <- (apply_events_with_buffer "" _ f.1).
  rewrite <- (apply_events_with_buffer "" _ (apply_events st f.2)).
  subst f. now rewrite feed_events.
Qed.

(** A whole stream leaves the parser in the state its events lead to. *)
Lemma run_events (data : list string) :
  (run json_parse data).1
  = apply_events new_parser (run json_parse data).2.
Proof.
  unfold run. cbn [fst snd].
  set (f := feed_all json_parse new_parser data).
  rewrite finish_events, apply_events_app.
  rewrite <- (apply_events_with_buffer "" _ f.1).
  subst f. rewrite feed_all_events. f_equal.
  set (st := apply_events new_parser _).
  rewrite <- (with_buffer_id st) at 2.
  subst st. now rewrite apply_events_buffer.
Qed.

(** A MessageStart event that carries a message. *)
Definition starts_message (e : StreamEvent) : Prop :=
  ev_type e = MessageStart /\ is_Some (ev_message e).

Definition stops_message (e : StreamEvent) : Prop :=
  ev_type e = MessageStop.

(** Case analysis on the event and on what of the state its handling
    depends on. *)
Ltac event_cases st e :=
  let r := fresh "r" in
  destruct st as [? r ? ? ? ? ?];
  unfold process_event; simpl;
  destruct (ev_type e) eqn:?, (ev_message e) eqn:?,
    (ev_stop_reason e) eqn:?, (ev_usage e) eqn:?, r; simpl;
  repeat (match goal with
          | |- context [match ?x with _ => _ end] => destruct x eqn:?
          | |- context [if ?x then _ else _] => destruct x eqn:?
          end; simpl).

Lemma process_event_response (st : Impl) (e : StreamEvent) :
  is_Some (response (process_event json_parse st e))
  <-> is_Some (response st) \/ starts_message e.
Proof.
  unfold starts_message. event_cases st e;
    (split; [intros H|intros [H|[H1 H2]]]);
    try discriminate; eauto;
    try (exfalso; eapply is_Some_None; eassumption).
Qed.

Lemma apply_events_response (evs : list StreamEvent) (st : Impl) :
  is_Some (response (apply_events st evs))
  <-> is_Some (response st) \/ Exists starts_message evs.
Proof.
  revert st; induction evs as [|e evs IH]; intros st; simpl.
  - rewrite Exists_nil. tauto.
  - rewrite IH, process_event_response, Exists_cons. tauto.
Qed.

Lemma process_event_complete (st : Impl) (e : StreamEvent) :
  complete (process_event json_parse st e) = true
  <-> complete st = true \/ stops_message e.
Proof.
  unfold stops_message. event_cases st e;
    (split; [intros H|intros [H|H]]); try discriminate; eauto.
Qed.

Lemma apply_events_complete (evs : list StreamEvent) (st : Impl) :
  complete (apply_events st evs) = true
  <-> complete st = true \/ Exists stops_message evs.
Proof.
  revert st; induction evs as [|e evs IH]; intros st; simpl.
  - rewrite Exists_nil. tauto.
  - rewrite IH, process_event_complete, Exists_cons. tauto.
Qed.

(** Until a MessageStop event the response holds no content. *)
Definition unassembled (st : Impl) : Prop :=
  complete st = false ->
  forall r, response st = Some r -> resp_content r = [].

Lemma process_event_unassembled (st : Impl) (e : StreamEvent) :
  unassembled st -> unassembled (process_event json_parse st e).
Proof.
  unfold unassembled. event_cases st e;
    intros Hinv Hc r' Hr; simplify_eq; simpl; eauto;
    try (now rewrite (Hinv eq_refl _ eq_refl)).
Qed.

Lemma apply_events_unassembled (evs : list StreamEvent) (st : Impl) :
  unassembled st -> unassembled (apply_events st evs).
Proof.
  revert st; induction evs as [|e evs IH]; intros st H; simpl; [exact H|].
  now apply IH, process_event_unassembled.
Qed.

(** A MessageStop event puts the blocks into the response. *)
Lemma process_event_stop (st : Impl) (e : StreamEvent) :
  ev_type e = MessageStop ->
  forall r, response (process_event json_parse st e) = Some r ->
            resp_content r = content_blocks (process_event json_parse st e).
Proof.
  intros Hty r. unfold process_event. rewrite Hty.
  destruct st as [b [r0|] bs pjs c h m]; simpl; [|discriminate].
  now intros [= <-].
Qed.

End ParserFacts.

(** ** Usage accounting of the client *)

Section ClientFacts.
Import Types Client.

Variable json_parse : string -> option Json.t.

(** The field-wise sum of two usages, without wrap-around. *)
Definition usage_sum (a b : TokenUsage) : TokenUsage :=
  {| input_tokens := input_tokens a + input_tokens b;
     output_tokens := output_tokens a + output_tokens b;
     cache_read_tokens := cache_read_tokens a + cache_read_tokens b;
     cache_creation_tokens :=
       cache_creation_tokens a + cache_creation_tokens b |}%Z.

(** The field-wise sum of a start value and a list of usages. *)
Definition usage_total (start : TokenUsage) (us : list TokenUsage)
    : TokenUsage :=
  foldl usage_sum start us.

Definition int64 (z : Z) : Prop := (- 2 ^ 63 <= z < 2 ^ 63)%Z.

(** Every field fits a [std::int64_t]. *)
Definition usage_fits (u : TokenUsage) : Prop :=
  int64 (input_tokens u) /\ int64 (output_tokens u)
  /\ int64 (cache_read_tokens u) /\ int64 (cache_creation_tokens u).

(** No field is negative. *)
Definition usage_nonneg (u : TokenUsage) : Prop :=
  (0 <= input_tokens u)%Z /\ (0 <= output_tokens u)%Z
  /\ (0 <= cache_read_tokens u)%Z /\ (0 <= cache_creation_tokens u)%Z.

(** Field by field, [a] is at most [b]. *)
Definition usage_le (a b : TokenUsage) : Prop :=
  (input_tokens a <= input_tokens b)%Z
  /\ (output_tokens a <= output_tokens b)%Z
  /\ (cache_read_tokens a <= cache_read_tokens b)%Z
  /\ (cache_creation_tokens a <= cache_creation_tokens b)%Z.

(** The usages that the successful calls of a session reported. *)
Definition reported (results : list (option CreateMessageResponse))
    : list TokenUsage :=
  omap (fun r => resp_usage <$> r) results.

Lemma wrap64_fits (z : Z) : int64 z -> wrap64 z = z.
Proof.
  unfold int64, wrap64. intros H.
  rewrite Z.mod_small; lia.
Qed.

Lemma usage_add_fits (a b : TokenUsage) :
  usage_fits (usage_sum a b) -> usage_add a b = usage_sum a b.
Proof.
  intros (H1 & H2 & H3 & H4). unfold usage_add, usage_sum in *. simpl in *.
  now rewrite !wrap64_fits.
Qed.

Lemma usage_total_le (us : list TokenUsage) (start : TokenUsage) :
  Forall usage_nonneg us -> usage_le start (usage_total start us).
Proof.
  intros Hnn. revert start.
  induction Hnn as [|u us Hu Hus IH]; intros start; simpl.
  - unfold usage_le. lia.
  - specialize (IH (usage_sum start u)).
    unfold usage_le, usage_nonneg, usage_sum in *. simpl in *. lia.
Qed.

(** Without overflow, the wrapping sum is the sum. *)
Lemma foldl_usage_add_fits (us : list TokenUsage) (start : TokenUsage) :
  usage_fits start ->
  Forall usage_nonneg us ->
  usage_fits (usage_total start us) ->
  foldl usage_add start us = usage_total start us.
Proof.
  intros Hstart Hnn. revert start Hstart.
  induction Hnn as [|u us Hu Hus IH]; intros start Hstart Hfits; simpl;
    [reflexivity|].
  assert (Hstep : usage_fits (usage_sum start u)).
  { pose proof (usage_total_le us (usage_sum start u) Hus) as Hle.
    simpl in Hfits.
    unfold usage_le, usage_fits, usage_nonneg, usage_sum, int64 in *.
    simpl in *. lia. }
  rewrite usage_add_fits by exact Hstep. now apply IH.
Qed.

(** The cost grows with the usage. *)
Lemma cost_of_le (a b : TokenUsage) :
  usage_le a b -> (cost_of a <= cost_of b)%Q.
Proof.
  intros (H1 & H2 & H3 & _). unfold cost_of.
  repeat apply Qplus_le_compat;
    repeat (apply Qmult_le_compat_r; [|discriminate]);
    now rewrite <- Zle_Qle.
Qed.

(** A call adds the usage of the response it returns, if any. *)
Lemma perform_usage (c : ClaudeClient) (call : Call) :
  total_usage (perform json_parse c call).2
  = match (perform json_parse c call).1 with
    | Some r => usage_add (total_usage c) (resp_usage r)
    | None => total_usage c
    end.
Proof.
  destruct call as [request transfer|request reply]; simpl.
  - unfold send_message_streaming.
    repeat (match goal with
            | |- context [if ?x then _ else _] => destruct x
            | |- context [match Parser.get_response ?x with _ => _ end] =>
                destruct (Parser.get_response x)
            | |- context [match cancel_after ?x with _ => _ end] =>
                destruct (cancel_after x)
            end; simpl; try reflexivity).
  - unfold send_message.
    repeat (match goal with
            | |- context [if ?x then _ else _] => destruct x
            | |- context [match ?x with _ => _ end] => destruct x
            end; simpl; try reflexivity).
Qed.

Lemma session_usage (calls : list Call) (c : ClaudeClient) :
  total_usage (session json_parse c calls).1
  = foldl usage_add (total_usage c) (reported (session json_parse c calls).2).
Proof.
  revert c; induction calls as [|call calls IH]; intros c; simpl;
    [reflexivity|].
  rewrite IH, perform_usage.
  now destruct (perform json_parse c call).1.
Qed.

Lemma session_app (calls more : list Call) (c : ClaudeClient) :
  session json_parse c (calls ++ more)
  = let r := session json_parse c calls in
    let r' := session json_parse r.1 more in
    (r'.1, r.2 ++ r'.2).
Proof.
  revert c; induction calls as [|call calls IH]; intros c; simpl.
  - now destruct (session json_parse c more).
  - now rewrite IH.
Qed.

Lemma reported_app (l l' : list (option CreateMessageResponse)) :
  reported (l ++ l') = reported l ++ reported l'.
Proof. apply omap_app. Qed.

End ClientFacts.

(** ** The agent loop *)

Section CoreFacts.
Import Types Core.

Variable json_parse : string -> option Json.t.

(** The transport calls of a trace: the HTTP requests and the runs of
    the command-line agent. *)
Definition is_transport_call (e : Effect) : bool :=
  match e with
  | http_post _ | run_cli _ _ _ => true
  | _ => false
  end.

Definition transport_calls (trace : list Effect) : nat :=
  length (filter (fun e => is_transport_call e = true) trace).

(** The scripts handed to the script executor, in order. *)
Definition executed_scripts (trace : list Effect) : list string :=
  omap (fun e => match e with
                 | script_executor_call code => Some code
                 | _ => None
                 end) trace.

(** The directives of a text: the non-empty codes of its blocks. *)
Definition directives (text : string) : list string :=
  filter (fun code => code <> "")
         (Script.code <$> Script.extract_idascript_blocks text).

Lemma api_loop_eq (limit : Z) (transfers : Z -> Client.Transfer)
    (core : Impl) (turn : Z) (full_response : string) :
  api_loop json_parse limit transfers core turn full_response =
  if Z_lt_dec turn limit then
    if cancelled core then api_finish core turn full_response
    else
      match client core with
      | None => api_finish core turn full_response
      | Some c =>
          let turn' := (turn + 1)%Z in
          let r := api_turn json_parse core c turn' full_response
                            (transfers turn') in
          match r.1 with
          | Continue core' full' =>
              let rest :=
                api_loop json_parse limit transfers core' turn' full' in
              (rest.1, r.2 ++ rest.2)
          | Break core' full' =>
              let rest := api_finish core' turn' full' in
              (rest.1, r.2 ++ rest.2)
          | Return result core' => (result, core', r.2)
          end
      end
  else api_finish core turn full_response.
Proof.
  simp api_loop. destruct (Z_lt_dec turn limit); simp api_loop; reflexivity.
Qed.

Lemma cli_loop_eq (limit : Z) (runs : Z -> CliRun) (core : Impl)
    (l : CliLoop) (turn : Z) :
  cli_loop limit runs core l turn =
  if Z_lt_dec turn limit then
    if cancelled core then cli_finish core l
    else
      let r := cli_turn core l turn (runs turn) in
      match r.1 with
      | CliContinue core' l' =>
          let rest := cli_loop limit runs core' l' (turn + 1)%Z in
          (rest.1, r.2 ++ rest.2)
      | CliBreak core' l' =>
          let rest := cli_finish core' l' in
          (rest.1, r.2 ++ rest.2)
      | CliReturn result core' => (result, core', r.2)
      end
  else cli_finish core l.
Proof.
  simp cli_loop. destruct (Z_lt_dec turn limit); simp cli_loop; reflexivity.
Qed.

(** *** The engine up to the cancellation flag of its client *)

(** The engine with the cancellation flag of its client cleared. *)
Definition erase (core : Impl) : Impl :=
  with_client (Client.with_cancelled false <$> client core) core.

Lemma erase_inv (core core' : Impl) :
  erase core = erase core' ->
  core' = with_client (client core') core
  /\ (Client.with_cancelled false <$> client core)
     = (Client.with_cancelled false <$> client core').
Proof.
  destruct core, core'. unfold erase. simpl. intros [=]. now subst.
Qed.

Lemma erase_with_client (x y : option Client.ClaudeClient) (core : Impl) :
  (Client.with_cancelled false <$> x) = (Client.with_cancelled false <$> y) ->
  erase (with_client x core) = erase (with_client y core).
Proof. unfold erase. simpl. now intros ->. Qed.

(** A streaming call does not depend on the flag it starts with. *)
Lemma send_message_streaming_flag (c c' : Client.ClaudeClient)
    (request : CreateMessageRequest) (transfer : Client.Transfer) :
  Client.with_cancelled false c = Client.with_cancelled false c' ->
  let sr := Client.send_message_streaming json_parse c request transfer in
  let sr' := Client.send_message_streaming json_parse c' request transfer in
  Client.sr_response sr = Client.sr_response sr'
  /\ Client.sr_posted sr = Client.sr_posted sr'
  /\ Client.sr_streamed sr = Client.sr_streamed sr'
  /\ Client.sr_flushed sr = Client.sr_flushed sr'
  /\ Client.with_cancelled false (Client.sr_client sr)
     = Client.with_cancelled false (Client.sr_client sr').
Proof.
  intros H. unfold Client.send_message_streaming.
  assert (Hkey : Client.is_configured c = Client.is_configured c').
  { unfold Client.is_configured.
    now replace (Client.api_key c) with (Client.api_key c')
      by (apply (f_equal Client.api_key) in H; now simpl in H). }
  rewrite <- Hkey. destruct (negb (Client.is_configured c)).
  - cbv zeta. simpl. now repeat split.
  - rewrite H. cbv zeta. now repeat split.
Qed.

(** The scripts are processed with the executor and the history only. *)
Lemma process_scripts_ext (core core' : Impl) (text : string) :
  script_executor core = script_executor core' ->
  history core = history core' ->
  process_scripts core text = process_scripts core' text.
Proof.
  intros He Hh. unfold process_scripts.
  assert (Hx : forall code, execute_script core code = execute_script core' code).
  { intros code. unfold execute_script, logged. now rewrite He, Hh. }
  generalize (mkScripts [] [] []).
  induction (Script.extract_idascript_blocks text) as [|block blocks IH];
    intros acc; simpl; [reflexivity|].
  rewrite Hx. apply IH.
Qed.

(** Two steps of the loop that agree up to the flag of the client. *)
Definition step_erase (s : Step) : Step :=
  match s with
  | Continue core full => Continue (erase core) full
  | Break core full => Break (erase core) full
  | Return result core => Return result (erase core)
  end.

Lemma api_turn_flag (core : Impl) (c c' : Client.ClaudeClient) (turn : Z)
    (full : string) (transfer : Client.Transfer) :
  Client.with_cancelled false c = Client.with_cancelled false c' ->
  step_erase (api_turn json_parse core c turn full transfer).1
  = step_erase (api_turn json_parse core c' turn full transfer).1
  /\ (api_turn json_parse core c turn full transfer).2
     = (api_turn json_parse core c' turn full transfer).2.
Proof.
  intros H.
  destruct (send_message_streaming_flag c c' (build_request core)
              transfer H) as (Hr & Hp & Hs & Hf & Hc).
  unfold api_turn. cbv zeta. unfold build_request in *.
  rewrite <- Hr, <- Hp, <- Hs, <- Hf.
  set (sr := Client.send_message_streaming json_parse c _ transfer) in *.
  set (sr' := Client.send_message_streaming json_parse c' _ transfer) in *.
  destruct (Client.sr_response sr) as [response|],
    (bool_decide (is_Some (Client.cancel_after transfer)));
    repeat match goal with
           | |- context [process_scripts ?x ?t] =>
               lazymatch x with
               | core => fail
               | _ => rewrite (process_scripts_ext x core t eq_refl eq_refl)
               end
           end;
    cbn [cancelled with_client with_state with_cancelled];
    repeat (match goal with
            | |- context [if ?x then _ else _] => destruct x eqn:?
            | |- context [match scripts ?x with _ => _ end] =>
                destruct (scripts x) eqn:?
            end);
    cbn [fst snd step_erase]; (split; [|reflexivity]); f_equal;
    unfold erase; simpl; now rewrite Hc.
Qed.

(** An outcome of [process_message] up to the flag of the client. *)
Definition outcome_erase (r : ProcessResult * Impl * list Effect)
    : ProcessResult * Impl * list Effect :=
  (r.1.1, erase r.1.2, r.2).

Lemma outcome_erase_cons (r r' : ProcessResult * Impl * list Effect)
    (trace : list Effect) :
  outcome_erase r = outcome_erase r' ->
  outcome_erase (r.1, trace ++ r.2) = outcome_erase (r'.1, trace ++ r'.2).
Proof.
  unfold outcome_erase. intros H. cbn [fst snd].
  apply (f_equal (fun x => (x.1.1, x.1.2, trace ++ x.2))) in H. exact H.
Qed.

Lemma erase_cancelled (core core' : Impl) :
  erase core = erase core' -> cancelled core = cancelled core'.
Proof. intros H. now apply (f_equal cancelled) in H. Qed.

Lemma api_finish_erase (core core' : Impl) (turn : Z) (full : string) :
  erase core = erase core' ->
  outcome_erase (api_finish core turn full)
  = outcome_erase (api_finish core' turn full).
Proof.
  intros H. destruct (erase_inv _ _ H) as [-> Hc].
  unfold api_finish, outcome_erase. cbn [fst snd client with_client].
  assert (Hcost : match client core with
                  | Some c => Client.estimate_cost c
                  | None => 0%Q
                  end
                  = match client core' with
                    | Some c => Client.estimate_cost c
                    | None => 0%Q
                    end).
  { destruct (client core) as [c|], (client core') as [c'|];
      simpl in Hc; try discriminate; [|reflexivity].
    apply (inj Some) in Hc. unfold Client.estimate_cost.
    now replace (Client.total_usage c) with (Client.total_usage c')
      by (apply (f_equal Client.total_usage) in Hc; now simpl in Hc). }
  rewrite Hcost. f_equal. f_equal.
  unfold erase. simpl. now rewrite Hc.
Qed.

(** The loop of the network mode does not depend on the flag the
    client starts with. *)
Lemma api_loop_erase (limit : Z) (transfers : Z -> Client.Transfer)
    (n : nat) :
  forall core core' turn full,
    n = Z.to_nat (limit - turn) ->
    erase core = erase core' ->
    outcome_erase (api_loop json_parse limit transfers core turn full)
    = outcome_erase (api_loop json_parse limit transfers core' turn full).
Proof.
  induction n as [n IH] using lt_wf_ind.
  intros core core' turn full Hn He.
  rewrite !api_loop_eq.
  destruct (Z_lt_dec turn limit) as [Hlt|]; [|now apply api_finish_erase].
  rewrite <- (erase_cancelled _ _ He).
  destruct (cancelled core); [now apply api_finish_erase|].
  destruct (erase_inv _ _ He) as [Hcore Hc].
  destruct (client core) as [c|] eqn:Hcl, (client core') as [c'|] eqn:Hcl';
    simpl in Hc; try discriminate; [|now apply api_finish_erase].
  apply (inj Some) in Hc. cbv zeta.
  pose proof (api_turn_flag core c c' (turn + 1) full
                (transfers (turn + 1)%Z) Hc) as [Hstep Htrace].
  assert (Hturn' : api_turn json_parse core' c' (turn + 1) full
                     (transfers (turn + 1)%Z)
                   = api_turn json_parse core c' (turn + 1) full
                       (transfers (turn + 1)%Z)) by now rewrite Hcore.
  rewrite Hturn', <- Htrace.
  destruct (api_turn json_parse core c (turn + 1) full _).1 as [a f|a f|r a],
    (api_turn json_parse core c' (turn + 1) full _).1 as [a' f'|a' f'|r' a'];
    cbn [step_erase] in Hstep; try discriminate;
    remember (erase a) as ea eqn:Hea; remember (erase a') as ea' eqn:Hea';
    injection Hstep as ? ?; subst.
  - apply outcome_erase_cons. apply (IH (Z.to_nat (limit - (turn + 1)))).
    + lia.
    + reflexivity.
    + assumption.
  - apply outcome_erase_cons. now apply api_finish_erase.
  - unfold outcome_erase. cbn [fst snd]. congruence.
Qed.

Lemma erase_request_cancel (core core' : Impl) :
  erase core = erase core' ->
  erase (request_cancel core) = erase (request_cancel core').
Proof.
  destruct core as [? ? ? [[]|] ? ? ? ? ? ? ?],
    core' as [? ? ? [[]|] ? ? ? ? ? ? ?];
    unfold request_cancel, erase; simpl; intros [=]; subst; reflexivity.
Qed.

(** Two steps of the command-line loop that agree up to the flag of
    the client. *)
Definition cli_step_erase (s : CliStep) : CliStep :=
  match s with
  | CliContinue core l => CliContinue (erase core) l
  | CliBreak core l => CliBreak (erase core) l
  | CliReturn result core => CliReturn result (erase core)
  end.

Lemma erase_fields (core core' : Impl) :
  erase core = erase core' ->
  script_executor core = script_executor core'
  /\ history core = history core'
  /\ options core = options core'.
Proof.
  intros H. destruct (erase_inv _ _ H) as [-> _]. now repeat split.
Qed.

Lemma erase_with_state (s : ChatState) (core core' : Impl) :
  erase core = erase core' ->
  erase (with_state s core) = erase (with_state s core').
Proof.
  intros H. destruct (erase_inv _ _ H) as [-> Hc].
  unfold erase. simpl. now rewrite Hc.
Qed.

Lemma cli_turn_erase (core core' : Impl) (l : CliLoop) (turn : Z)
    (run : CliRun) :
  erase core = erase core' ->
  cli_step_erase (cli_turn core l turn run).1
  = cli_step_erase (cli_turn core' l turn run).1
  /\ (cli_turn core l turn run).2 = (cli_turn core' l turn run).2.
Proof.
  intros H.
  assert (HX : erase (if cli_cancel run then request_cancel core else core)
               = erase (if cli_cancel run then request_cancel core'
                        else core')).
  { destruct (cli_cancel run); [now apply erase_request_cancel|exact H]. }
  destruct (erase_fields _ _ H) as (_ & _ & Hopts).
  unfold cli_turn. cbv zeta. rewrite <- Hopts.
  revert HX.
  generalize (if cli_cancel run then request_cancel core else core).
  generalize (if cli_cancel run then request_cancel core' else core').
  intros X' X HX.
  destruct (erase_fields _ _ HX) as (Hexec & Hhist & _).
  rewrite <- (process_scripts_ext X X' _ Hexec Hhist).
  repeat (match goal with
          | |- context [if ?x then _ else _] => destruct x eqn:?
          | |- context [match scripts ?x with _ => _ end] =>
              destruct (scripts x) eqn:?
          | |- context [match outputs ?x with _ => _ end] =>
              destruct (outputs x) eqn:?
          end);
    cbn [fst snd cli_step_erase]; (split; [|reflexivity]); f_equal;
    try exact HX; now apply erase_with_state.
Qed.

Lemma cli_finish_erase (core core' : Impl) (l : CliLoop) :
  erase core = erase core' ->
  outcome_erase (cli_finish core l) = outcome_erase (cli_finish core' l).
Proof.
  intros H. destruct (erase_inv _ _ H) as [-> Hc].
  unfold cli_finish, outcome_erase. cbn [fst snd]. f_equal. f_equal.
  unfold erase. simpl. now rewrite Hc.
Qed.

(** The loop of the command-line mode does not depend on the flag of
    the client either. *)
Lemma cli_loop_erase (limit : Z) (runs : Z -> CliRun) (n : nat) :
  forall core core' l turn,
    n = Z.to_nat (limit - turn) ->
    erase core = erase core' ->
    outcome_erase (cli_loop limit runs core l turn)
    = outcome_erase (cli_loop limit runs core' l turn).
Proof.
  induction n as [n IH] using lt_wf_ind.
  intros core core' l turn Hn He.
  rewrite !cli_loop_eq.
  destruct (Z_lt_dec turn limit) as [Hlt|]; [|now apply cli_finish_erase].
  rewrite <- (erase_cancelled _ _ He).
  destruct (cancelled core); [now apply cli_finish_erase|].
  cbv zeta.
  pose proof (cli_turn_erase core core' l turn (runs turn) He)
    as [Hstep Htrace].
  rewrite <- Htrace.
  destruct (cli_turn core l turn (runs turn)).1 as [a f|a f|r a],
    (cli_turn core' l turn (runs turn)).1 as [a' f'|a' f'|r' a'];
    cbn [cli_step_erase] in Hstep; try discriminate;
    remember (erase a) as ea eqn:Hea; remember (erase a') as ea' eqn:Hea';
    injection Hstep as ? ?; subst.
  - apply outcome_erase_cons. apply (IH (Z.to_nat (limit - (turn + 1)))).
    + lia.
    + reflexivity.
    + assumption.
  - apply outcome_erase_cons. now apply cli_finish_erase.
  - unfold outcome_erase. cbn [fst snd]. congruence.
Qed.

(** [request_cancel] keeps a connected engine connected. *)
Lemma is_connected_request_cancel (core : Impl) :
  is_connected core = true -> is_connected (request_cancel core) = true.
Proof.
  unfold is_connected, request_cancel.
  destruct core as [? ? ? [c|] ? ? ? ? ? [] ?]; simpl;
    intros H; apply andb_true_iff in H as [_ H]; exact H.
Qed.

(** A cancellation requested before [process_message] changes neither
    its result nor what it does. *)
Lemma process_message_request_cancel (core : Impl) (user_input : string)
    (w : World) :
  is_connected core = true ->
  outcome_erase (process_message json_parse (request_cancel core) user_input w)
  = outcome_erase (process_message json_parse core user_input w).
Proof.
  intros Hconn. unfold process_message.
  rewrite (is_connected_request_cancel _ Hconn), Hconn. cbn [negb].
  assert (Hmode : use_cli_mode (request_cancel core) = use_cli_mode core).
  { unfold request_cancel. now destruct (client (with_cancelled true core)). }
  rewrite Hmode.
  assert (Hstart : forall k : Impl -> Impl,
             (forall x y, erase x = erase y -> erase (k x) = erase (k y)) ->
             erase (k (with_cancelled false
                         (with_state Processing (request_cancel core))))
             = erase (k (with_cancelled false (with_state Processing core)))).
  { intros k Hk. apply Hk. unfold request_cancel, erase.
    destruct core as [? ? ? [c|] ? ? ? ? ? ? ?]; reflexivity. }
  assert (Hopts : options (request_cancel core) = options core).
  { unfold request_cancel. now destruct (client (with_cancelled true core)). }
  assert (Hhist : history (request_cancel core) = history core).
  { unfold request_cancel. now destruct (client (with_cancelled true core)). }
  assert (Hconv : conversation (request_cancel core) = conversation core).
  { unfold request_cancel. now destruct (client (with_cancelled true core)). }
  destruct (use_cli_mode core).
  - unfold process_message_cli. cbv zeta.
    cbn [options with_state with_cancelled]. rewrite Hopts.
    unfold logged. cbn [history with_state with_cancelled]. rewrite Hhist.
    apply outcome_erase_cons.
    eapply cli_loop_erase; [reflexivity|].
    apply (Hstart (fun x => x)). auto.
  - cbv zeta.
    cbn [options with_state with_cancelled with_conversation conversation].
    rewrite Hopts, Hconv.
    unfold logged.
    cbn [history with_state with_cancelled with_conversation]. rewrite Hhist.
    apply outcome_erase_cons.
    eapply api_loop_erase; [reflexivity|].
    apply (Hstart (with_conversation _)).
    intros x y Hxy. destruct (erase_inv _ _ Hxy) as [-> Hc].
    unfold erase. simpl. now rewrite Hc.
Qed.

(** *** The last turn of the budget *)

Lemma transport_calls_app (a b : list Effect) :
  transport_calls (a ++ b) = transport_calls a + transport_calls b.
Proof. unfold transport_calls. now rewrite filter_app, length_app. Qed.

Lemma executed_scripts_app (a b : list Effect) :
  executed_scripts (a ++ b) = executed_scripts a ++ executed_scripts b.
Proof. apply omap_app. Qed.

Lemma logged_quiet (core : Impl) (e : Effect) :
  is_transport_call e = false ->
  (forall code, e <> script_executor_call code) ->
  transport_calls (logged core e) = 0
  /\ executed_scripts (logged core e) = [].
Proof.
  intros Ht He. unfold logged. destruct (history core); [|now split].
  unfold transport_calls. rewrite filter_cons, filter_nil.
  destruct (decide _) as [H|H]; [congruence|].
  split; [reflexivity|].
  destruct e; try reflexivity. now contradiction (He code).
Qed.

(** With an executor, [process_scripts] runs the directives of the
    text, each once and in order, and makes no transport call. *)
Lemma process_scripts_runs (core : Impl) (text : string)
    (executor : string -> ScriptResult) :
  script_executor core = Some executor ->
  let ps := process_scripts core text in
  scripts ps = directives text
  /\ executed_scripts (script_effects ps) = directives text
  /\ transport_calls (script_effects ps) = 0.
Proof.
  intros Hex. unfold process_scripts, directives.
  set (step := fun acc block => _).
  assert (Hgen : forall blocks acc,
    let ps := foldl step acc blocks in
    let codes := filter (fun code => code <> "") (Script.code <$> blocks) in
    scripts ps = scripts acc ++ codes
    /\ executed_scripts (script_effects ps)
       = executed_scripts (script_effects acc) ++ codes
    /\ transport_calls (script_effects ps)
       = transport_calls (script_effects acc)).
  { induction blocks as [|block blocks IH]; intros acc; cbn zeta.
    - simpl. now rewrite !app_nil_r.
    - simpl foldl. destruct (IH (step acc block)) as (H1 & H2 & H3).
      rewrite H1, H2, H3. subst step. cbn beta.
      rewrite fmap_cons, filter_cons.
      destruct (decide (Script.code block <> "")) as [Hne|Heq].
      + rewrite bool_decide_eq_false_2 by exact Hne. cbn [negb].
        cbn [scripts script_effects].
        unfold execute_script. rewrite Hex.
        destruct (script_success (executor (Script.code block)));
          cbn [fst snd]; rewrite !executed_scripts_app, !transport_calls_app;
          match goal with
          | |- context [logged core ?e] =>
              destruct (logged_quiet core e eq_refl ltac:(discriminate))
                as [-> ->]
          end;
          simpl; rewrite <- !app_assoc; simpl;
          repeat split; try reflexivity; lia.
      + apply dec_stable in Heq.
        rewrite bool_decide_eq_true_2 by exact Heq. now cbn [negb]. }
  destruct (Hgen (Script.extract_idascript_blocks text) (mkScripts [] [] []))
    as (H1 & H2 & H3).
  now repeat split.
Qed.

(** The callback of the stream only makes callbacks. *)
Lemma stream_callback_quiet (is_cancelled first_text : bool)
    (event : StreamEvent) :
  transport_calls (stream_callback is_cancelled first_text event).2 = 0
  /\ executed_scripts (stream_callback is_cancelled first_text event).2 = [].
Proof.
  unfold stream_callback.
  repeat (match goal with
          | |- context [if ?x then _ else _] => destruct x
          | |- context [match ?x with _ => _ end] => destruct x
          end; cbn [fst snd]);
    now split.
Qed.

Lemma stream_callbacks_quiet (is_cancelled first_text : bool)
    (events : list StreamEvent) :
  transport_calls (stream_callbacks is_cancelled first_text events).2 = 0
  /\ executed_scripts (stream_callbacks is_cancelled first_text events).2 = [].
Proof.
  unfold stream_callbacks.
  set (step := fun (acc : bool * list Effect) (event : StreamEvent) => _).
  assert (Hgen : forall acc : bool * list Effect,
    transport_calls (foldl step acc events).2 = transport_calls acc.2
    /\ executed_scripts (foldl step acc events).2 = executed_scripts acc.2).
  { induction events as [|e events IH]; intros acc; [now split|].
    simpl foldl. destruct (IH (step acc e)) as [H1 H2].
    rewrite H1, H2. subst step. cbn [fst snd].
    rewrite transport_calls_app, executed_scripts_app.
    destruct (stream_callback_quiet is_cancelled acc.1 e) as [-> ->].
    split; [lia|now rewrite app_nil_r]. }
  apply (Hgen (first_text, [])).
Qed.

(** A streaming call that returns a response has posted its request. *)
Lemma send_message_streaming_posted (c : Client.ClaudeClient)
    (request : CreateMessageRequest) (transfer : Client.Transfer)
    (response : CreateMessageResponse) :
  Client.sr_response
    (Client.send_message_streaming json_parse c request transfer)
  = Some response ->
  is_Some (Client.sr_posted
             (Client.send_message_streaming json_parse c request transfer)).
Proof.
  unfold Client.send_message_streaming.
  repeat (match goal with
          | |- context [if ?x then _ else _] => destruct x
          end; cbn [Client.sr_response Client.sr_posted]);
    try discriminate; eauto.
Qed.

(** A text with a directive holds an opening marker. *)
Lemma directives_has_blocks (text : string) :
  directives text <> [] -> Script.has_idascript_blocks text = true.
Proof.
  unfold directives, Script.has_idascript_blocks,
    Script.extract_idascript_blocks.
  rewrite extract_loop_eq. unfold Script.regex_search_script. simpl Str.drop.
  replace (Str.drop 0 text) with text by now destruct text.
  destruct (Str.find Script.OPEN_TAG text); [reflexivity|].
  intros H. now contradiction H.
Qed.

(** The turn that uses up the budget, with a reply that holds
    directives. *)
Lemma api_loop_last_turn (transfers : Z -> Client.Transfer) (core : Impl)
    (c : Client.ClaudeClient) (turn : Z) (full : string)
    (response : CreateMessageResponse) (executor : string -> ScriptResult) :
  client core = Some c ->
  cancelled core = false ->
  (turn + 1)%Z = max_turns (options core) ->
  script_executor core = Some executor ->
  Client.sr_response
    (Client.send_message_streaming json_parse c (build_request core)
       (transfers (turn + 1)%Z))
  = Some response ->
  directives (response_get_text response) <> [] ->
  let r := api_loop json_parse (max_turns (options core)) transfers core
                    turn full in
  success r.1.1 = true
  /\ res_cancelled r.1.1 = false
  /\ res_response r.1.1
     = Script.strip_idascript_blocks (full +:+ response_get_text response)
  /\ turns_used r.1.1 = max_turns (options core)
  /\ executed_scripts r.2 = directives (response_get_text response)
  /\ transport_calls r.2 = 1.
Proof.
  intros Hcl Hcan Hturn Hex Hresp Hdir. cbv zeta.
  pose proof (directives_has_blocks _ Hdir) as Hhas.
  destruct (send_message_streaming_posted _ _ _ _ Hresp) as [body Hbody].
  rewrite api_loop_eq.
  destruct (Z_lt_dec turn (max_turns (options core))) as [_|]; [|lia].
  rewrite Hcan, Hcl. cbv zeta.
  unfold api_turn. cbv zeta. rewrite Hresp, Hbody, Hhas.
  match goal with
  | |- context [process_scripts ?x ?t] =>
      destruct (process_scripts_runs x t executor) as (Hs & He & Ht);
        [destruct (bool_decide _); exact Hex|]
  end.
  match goal with
  | |- context [stream_callbacks false true ?evs] =>
      destruct (stream_callbacks_quiet false true evs) as [Ht1 He1];
      destruct (stream_callbacks false true evs) as [first_text streamed]
  end.
  cbn [fst snd] in *.
  match goal with
  | |- context [stream_callbacks ?b first_text ?evs] =>
      destruct (stream_callbacks_quiet b first_text evs) as [Ht2 He2];
      destruct (stream_callbacks b first_text evs) as [? flushed]
  end.
  cbn [fst snd] in *.
  match goal with
  | |- context [match scripts ?ps with _ => _ end] =>
      destruct (scripts ps) as [|code codes] eqn:Hps;
        [now rewrite <- Hs in Hdir|]
  end.
  cbn [fst snd]. rewrite api_loop_eq.
  destruct (Z_lt_dec (turn + 1) (max_turns (options core))); [lia|].
  unfold api_finish. cbn [fst snd success res_cancelled res_response
                          turns_used].
  repeat split; try reflexivity; try exact Hturn.
  - rewrite !executed_scripts_app, He, He1, He2.
    match goal with
    | |- context [logged ?x ?e] =>
        destruct (logged_quiet x e eq_refl ltac:(discriminate)) as [_ ->]
    end.
    simpl. now rewrite app_nil_r.
  - rewrite !transport_calls_app, Ht, Ht1, Ht2.
    match goal with
    | |- context [logged ?x ?e] =>
        destruct (logged_quiet x e eq_refl ltac:(discriminate)) as [-> _]
    end.
    reflexivity.
Qed.

(** *** When a result is marked cancelled *)

(** A turn entered with the flag clear marks its result cancelled only
    when a cancellation arrives during its transfer. *)
Lemma api_turn_cancelled (core : Impl) (c : Client.ClaudeClient) (turn : Z)
    (full : string) (transfer : Client.Transfer) (res : ProcessResult)
    (core' : Impl) :
  cancelled core = false ->
  (api_turn json_parse core c turn full transfer).1 = Return res core' ->
  res_cancelled res = true ->
  is_Some (Client.cancel_after transfer).
Proof.
  intros Hflag. unfold api_turn. cbv zeta.
  destruct (Client.sr_response _) as [response|].
  - destruct (Script.has_idascript_blocks _); [|discriminate].
    destruct (scripts _); discriminate.
  - cbn [fst].
    destruct (bool_decide (is_Some (Client.cancel_after transfer))) eqn:Hc.
    + intros _ _. now apply bool_decide_eq_true in Hc.
    + cbn [cancelled with_client]. rewrite Hflag.
      intros [= <- _]. discriminate.
Qed.

Lemma api_loop_cancelled (n : nat) :
  forall limit transfers core turn full,
    Z.to_nat (limit - turn) = n ->
    res_cancelled (api_loop json_parse limit transfers core turn full).1.1
    = true ->
    exists t, (turn < t <= limit)%Z
              /\ is_Some (Client.cancel_after (transfers t)).
Proof.
  induction n as [|n IH]; intros limit transfers core turn full Hn;
    rewrite api_loop_eq; destruct (Z_lt_dec turn limit) as [Hlt|Hge];
    try lia; try discriminate.
  destruct (cancelled core) eqn:Hflag; [discriminate|].
  destruct (client core) as [c|]; [|discriminate].
  cbv zeta.
  destruct (api_turn json_parse core c (turn + 1) full _).1
    as [core' full'|core' full'|res core'] eqn:Hs; cbn [fst].
  - intros H. apply IH in H as (t & Ht & Hc); [|lia].
    exists t. split; [lia|exact Hc].
  - discriminate.
  - intros H. exists (turn + 1)%Z. split; [lia|].
    exact (api_turn_cancelled _ _ _ _ _ _ _ Hflag Hs H).
Qed.

Lemma cli_turn_not_cancelled (core : Impl) (l : CliLoop) (turn : Z)
    (run : CliRun) (res : ProcessResult) (core' : Impl) :
  (cli_turn core l turn run).1 = CliReturn res core' ->
  res_cancelled res = false.
Proof.
  unfold cli_turn. cbv zeta.
  repeat (match goal with
          | |- context [if ?x then _ else _] => destruct x
          | |- context [match ?x with _ => _ end] => destruct x
          end; cbn [fst]);
    try discriminate; now intros [= <- _].
Qed.

(** The command-line mode never marks a result cancelled. *)
Lemma cli_loop_not_cancelled (runs : Z -> CliRun) (n : nat) :
  forall limit core l turn,
    Z.to_nat (limit - turn) = n ->
    res_cancelled (cli_loop limit runs core l turn).1.1 = false.
Proof.
  induction n as [|n IH]; intros limit core l turn Hn;
    rewrite cli_loop_eq; destruct (Z_lt_dec turn limit) as [Hlt|Hge];
    try lia; try reflexivity.
  destruct (cancelled core); [reflexivity|]. cbv zeta.
  destruct (cli_turn core l turn (runs turn)).1
    as [core' l'|core' l'|res core'] eqn:Hs; cbn [fst].
  - apply IH. lia.
  - reflexivity.
  - now apply cli_turn_not_cancelled in Hs.
Qed.

(** A result of [process_message] is marked cancelled only in the
    network mode, and only when a cancellation arrives during the
    transfer of one of the turns of the call. *)
Lemma process_message_cancelled (core : Impl) (user_input : string)
    (w : World) :
  res_cancelled (process_message json_parse core user_input w).1.1 = true ->
  use_cli_mode core = false
  /\ exists turn, (1 <= turn <= max_turns (options core))%Z
                  /\ is_Some (Client.cancel_after (transfers w turn)).
Proof.
  unfold process_message. destruct (negb (is_connected core)); [discriminate|].
  destruct (use_cli_mode core).
  - unfold process_message_cli. cbn [fst].
    now rewrite (cli_loop_not_cancelled _ _ _ _ _ _ eq_refl).
  - cbn [fst]. intros H.
    apply (api_loop_cancelled _ _ _ _ _ _ eq_refl) in H as (t & Ht & Hc).
    cbn [options with_conversation with_cancelled with_state] in Ht.
    split; [reflexivity|]. exists t. split; [lia|exact Hc].
Qed.

End CoreFacts.

(** ** The claims of the specification *)

Section Claims.
Import Types.

Variable json_parse : string -> option Json.t.

(** C5: for the assistant text "Let's check: " + open marker +
    "print(1+1)" + close marker + " done.", directive extraction yields
    a directive with code "print(1+1)" and preceding text
    "Let's check: " (followed by one block for the trailing text), and
    stripping the marker-bracketed region yields "Let's check:  done.". *)
Theorem C5_directive_example :
  let text := "Let's check: " +:+ Script.OPEN_TAG +:+ "print(1+1)"
              +:+ Script.CLOSE_TAG +:+ " done." in
  Script.extract_idascript_blocks text
  = [ {| Script.code := "print(1+1)";
         Script.preceding_text := "Let's check: " |};
      {| Script.code := ""; Script.preceding_text := " done." |} ]
  /\ head (Script.extract_idascript_blocks text)
     = Some {| Script.code := "print(1+1)";
               Script.preceding_text := "Let's check: " |}
  /\ Script.strip_idascript_blocks text = "Let's check:  done.".
Proof. vm_compute. repeat split. Qed.

(** C7: serializing a request omits every logically absent field: no
    "tools" member for an empty tool list, no "temperature" member when
    the temperature is unset, no "thinking" member when extended
    thinking is absent or disabled, no "system" member for an empty
    system prompt, no "stream" member when streaming is off. *)
Theorem C7_absent_fields_omitted (r : CreateMessageRequest) :
  let j := Wire.to_json_request r in
  (req_tools r = [] -> Json.member j "tools" = None)
  /\ (req_temperature r = None -> Json.member j "temperature" = None)
  /\ ((req_thinking r = None
       \/ exists cfg, req_thinking r = Some cfg /\ enabled cfg = false) ->
      Json.member j "thinking" = None)
  /\ (req_system r = "" -> Json.member j "system" = None)
  /\ (req_stream r = false -> Json.member j "stream" = None).
Proof.
  unfold Wire.to_json_request. cbv zeta.
  repeat split.
  - intros ->.
    destruct (req_thinking r) as [[[] ?]|], (req_stream r),
      (req_temperature r), (negb _); cbn [enabled];
      skip_other_keys; reflexivity.
  - intros ->.
    destruct (req_thinking r) as [[[] ?]|], (req_stream r),
      (req_tools r), (negb _); cbn [enabled];
      skip_other_keys; reflexivity.
  - intros [->|(cfg & -> & Hcfg)]; [|rewrite Hcfg];
      destruct (req_stream r), (req_temperature r), (req_tools r), (negb _);
      skip_other_keys; reflexivity.
  - intros ->.
    destruct (req_thinking r) as [[[] ?]|], (req_stream r),
      (req_temperature r), (req_tools r); cbn [enabled negb bool_decide];
      simpl negb; cbv iota; skip_other_keys; reflexivity.
  - intros ->.
    destruct (req_thinking r) as [[[] ?]|], (req_temperature r),
      (req_tools r), (negb _); cbn [enabled];
      skip_other_keys; reflexivity.
Qed.

(** C8: after any sequence of feed/finish/reset calls, reset() leaves
    the parser equal to a freshly constructed one: no error, no
    response, not complete, an empty line buffer and empty block and
    fragment storage. *)
Theorem C8_reset_is_fresh (calls : list Parser.Call) :
  let st := Parser.reset (Parser.after json_parse calls) in
  st = Parser.new_parser
  /\ Parser.has_error st = false
  /\ Parser.get_response st = None
  /\ Parser.is_complete st = false
  /\ Parser.buffer st = ""
  /\ Parser.content_blocks st = []
  /\ Parser.partial_jsons st = [].
Proof. repeat split. Qed.

(** C10: a ContentBlockDelta event whose index lies outside the block
    array, or a text delta aimed at a block that is not a Text block, or
    a thinking delta aimed at a block that is not a Thinking block,
    leaves the parser as it is: the block array, the fragment buffers
    and the error flag are unchanged. *)
Theorem C10_stray_delta_ignored (st : Parser.Impl) (event : StreamEvent)
    (delta : Delta) :
  ev_type event = ContentBlockDelta ->
  ev_delta event = Some delta ->
  let idx := Parser.to_size_t (ev_content_block_index event) in
  ((Z.of_nat (length (Parser.content_blocks st)) <= idx)%Z
   \/ (delta_type delta = "text_delta"
       /\ forall text,
            Parser.content_blocks st !! Z.to_nat idx <> Some (TextContent text))
   \/ (delta_type delta = "thinking_delta"
       /\ forall thinking,
            Parser.content_blocks st !! Z.to_nat idx
            <> Some (ThinkingContent thinking))) ->
  let st' := Parser.process_event json_parse st event in
  st' = st
  /\ Parser.content_blocks st' = Parser.content_blocks st
  /\ Parser.partial_jsons st' = Parser.partial_jsons st
  /\ Parser.has_error st' = Parser.has_error st.
Proof.
  intros Hty Hdelta idx Hcase.
  assert (Hsame : Parser.process_event json_parse st event = st).
  { unfold Parser.process_event. rewrite Hty, Hdelta. fold idx.
    destruct Hcase as [Hout|[[Hdt Hblock]|[Hdt Hblock]]].
    - now rewrite in_range_false.
    - rewrite Hdt. simpl bool_decide. cbv iota.
      destruct (Parser.in_range idx _); [|reflexivity].
      destruct (Parser.content_blocks st !! Z.to_nat idx) as [[]|] eqn:Hb;
        try reflexivity.
      now contradiction (Hblock text).
    - rewrite Hdt. simpl bool_decide. cbv iota.
      destruct (Parser.in_range idx _); [|reflexivity].
      destruct (Parser.content_blocks st !! Z.to_nat idx) as [[]|] eqn:Hb;
        try reflexivity.
      now contradiction (Hblock thinking). }
  intros st'. subst st'. now rewrite Hsame.
Qed.

(** C4: for every byte string and every split position k, feeding the
    first k bytes and then the rest, followed by finish(), leaves the
    parser in the same state, with the same response and the same
    events delivered, as feeding the whole string in one call followed
    by finish(). *)
Theorem C4_split_invariance (s : string) (k : nat) :
  Parser.run json_parse [Str.take k s; Str.drop k s]
  = Parser.run json_parse [s]
  /\ Parser.get_response
       (Parser.run json_parse [Str.take k s; Str.drop k s]).1
     = Parser.get_response (Parser.run json_parse [s]).1.
Proof.
  assert (H : Parser.run json_parse [Str.take k s; Str.drop k s]
              = Parser.run json_parse [s]).
  { now rewrite run_two, Str.take_drop. }
  split; [exact H|now rewrite H].
Qed.

(** C1 (amended): after any sequence of feed() calls followed by
    finish(), get_response() returns some response if and only if a
    MessageStart event carrying a message was observed, and
    is_complete() is true if and only if a MessageStop event was
    observed; the response holds no content as long as no MessageStop
    was observed, and holds the assembled blocks when the stream ends
    with a MessageStop. *)
Theorem C1_response_iff_message_start (data : list string) :
  let r := Parser.run json_parse data in
  (is_Some (Parser.get_response r.1)
   <-> Exists (fun e => ev_type e = MessageStart /\ is_Some (ev_message e))
              r.2)
  /\ (Parser.is_complete r.1 = true
      <-> Exists (fun e => ev_type e = MessageStop) r.2)
  /\ (forall resp,
        Parser.get_response r.1 = Some resp ->
        Parser.is_complete r.1 = false ->
        resp_content resp = [])
  /\ (forall resp evs e,
        Parser.get_response r.1 = Some resp ->
        r.2 = evs ++ [e] ->
        ev_type e = MessageStop ->
        resp_content resp = Parser.content_blocks r.1).
Proof.
  intros r. subst r.
  unfold Parser.get_response, Parser.is_complete.
  rewrite run_events.
  set (evs := (Parser.run json_parse data).2).
  repeat split.
  - intros H. apply apply_events_response in H as [H|H]; [|exact H].
    now destruct H.
  - intros H. apply apply_events_response. now right.
  - intros H. apply apply_events_complete in H as [H|H]; [|exact H].
    discriminate.
  - intros H. apply apply_events_complete. now right.
  - intros resp Hr Hc.
    eapply (apply_events_unassembled json_parse evs Parser.new_parser);
      [intros _ ? [=]|exact Hc|exact Hr].
  - intros resp evs' e Hr Hevs Hty. rewrite Hevs in *.
    rewrite apply_events_app in *. simpl in *.
    now apply process_event_stop.
Qed.

(** C6: over a session of calls whose reported usages are non-negative
    and whose totals fit the 64-bit counters, the accumulated usage of
    the client is the field-wise sum of the usages that the successful
    calls reported, and the cost estimate after further calls is at
    least the cost estimate before them.  (The cost is computed in exact
    rational arithmetic.) *)
Theorem C6_usage_accumulates (c : Client.ClaudeClient)
    (calls more : list Client.Call) :
  usage_fits (Client.total_usage c) ->
  Forall usage_nonneg
    (reported (Client.session json_parse c (calls ++ more)).2) ->
  usage_fits
    (usage_total (Client.total_usage c)
       (reported (Client.session json_parse c (calls ++ more)).2)) ->
  Client.get_total_usage (Client.session json_parse c (calls ++ more)).1
  = usage_total (Client.total_usage c)
      (reported (Client.session json_parse c (calls ++ more)).2)
  /\ (Client.estimate_cost (Client.session json_parse c calls).1
      <= Client.estimate_cost
           (Client.session json_parse c (calls ++ more)).1)%Q.
Proof.
  intros Hstart Hnn Hfits.
  unfold Client.get_total_usage, Client.estimate_cost.
  rewrite !session_usage.
  rewrite session_app in *. cbv zeta in *. cbn [fst snd] in *.
  rewrite reported_app in *.
  set (R1 := reported (Client.session json_parse c calls).2) in *.
  set (R2 := reported (Client.session json_parse _ more).2) in *.
  apply Forall_app in Hnn as [Hnn1 Hnn2].
  unfold usage_total in Hfits. rewrite foldl_app in Hfits.
  fold (usage_total (Client.total_usage c) R1) in Hfits.
  fold (usage_total (usage_total (Client.total_usage c) R1) R2) in Hfits.
  pose proof (usage_total_le R1 (Client.total_usage c) Hnn1) as Hle1.
  pose proof (usage_total_le R2 (usage_total (Client.total_usage c) R1) Hnn2)
    as Hle2.
  assert (Hfits1 : usage_fits (usage_total (Client.total_usage c) R1)).
  { unfold usage_le, usage_fits, int64 in *. lia. }
  rewrite foldl_app.
  rewrite (foldl_usage_add_fits R1) by assumption.
  rewrite (foldl_usage_add_fits R2) by assumption.
  split.
  - unfold usage_total. now rewrite foldl_app.
  - now apply cost_of_le.
Qed.

(** C2 (amended): process_message clears the cancellation flag when it
    starts, so a cancellation requested before the call is discarded: on
    a connected engine the call returns the same result and does the
    same things to the outside, transport calls included, as the same
    call without the earlier request_cancel.  A result is marked
    cancelled only when a cancellation is requested while the call is
    running: in the network mode, during the transfer of one of the
    turns of the call. *)
Theorem C2_cancel_before_call_is_discarded (core : Core.Impl)
    (user_input : string) (w : Core.World) :
  Core.is_connected core = true ->
  let r := Core.process_message json_parse (Core.request_cancel core)
                                user_input w in
  let r' := Core.process_message json_parse core user_input w in
  r.1.1 = r'.1.1 /\ r.2 = r'.2
  /\ (Core.res_cancelled r.1.1 = true ->
      Core.use_cli_mode core = false
      /\ exists turn,
           (1 <= turn <= Core.max_turns (Core.options core))%Z
           /\ is_Some (Client.cancel_after (Core.transfers w turn))).
Proof.
  intros Hconn r r'.
  pose proof (process_message_request_cancel json_parse core user_input w
                Hconn) as H.
  fold r r' in H. unfold outcome_erase in H.
  assert (Hres : r.1.1 = r'.1.1) by congruence.
  split; [exact Hres|]. split; [congruence|].
  intros Hc. rewrite Hres in Hc.
  now apply process_message_cancelled in Hc.
Qed.

(** C3 (amended): when the turn that uses up the budget gets a reply
    that holds script directives, the loop hands each directive to the
    script executor, once and in order, makes no further transport
    call, and returns success with the accumulated answer, its marker
    regions stripped, and the turn count of the budget. *)
Theorem C3_last_turn_runs_directives (transfers : Z -> Client.Transfer)
    (core : Core.Impl) (c : Client.ClaudeClient) (turn : Z) (full : string)
    (response : CreateMessageResponse)
    (executor : string -> Core.ScriptResult) :
  Core.client core = Some c ->
  Core.cancelled core = false ->
  (turn + 1)%Z = Core.max_turns (Core.options core) ->
  Core.script_executor core = Some executor ->
  Client.sr_response
    (Client.send_message_streaming json_parse c (Core.build_request core)
       (transfers (turn + 1)%Z))
  = Some response ->
  directives (response_get_text response) <> [] ->
  let r := Core.api_loop json_parse (Core.max_turns (Core.options core))
                         transfers core turn full in
  Core.success r.1.1 = true
  /\ Core.res_cancelled r.1.1 = false
  /\ Core.res_response r.1.1
     = Script.strip_idascript_blocks (full +:+ response_get_text response)
  /\ Core.turns_used r.1.1 = Core.max_turns (Core.options core)
  /\ executed_scripts r.2 = directives (response_get_text response)
  /\ transport_calls r.2 = 1.
Proof. apply api_loop_last_turn. Qed.

End Claims.

(** C1, as stated, fails in both directions: a stream that holds only a
    message_start line gives a response although no MessageStop was
    observed, and a stream that holds only a message_stop line gives
    none although a MessageStop was observed. *)
Lemma C1_counterexample :
  (let r := Parser.run Sample.json_parse
              [Sample.data_line Sample.message_start] in
   is_Some (Parser.get_response r.1)
   /\ ~ Exists (fun e => Types.ev_type e = Types.MessageStop) r.2)
  /\ (let r := Parser.run Sample.json_parse
                 [Sample.data_line Sample.message_stop] in
      Parser.get_response r.1 = None
      /\ Exists (fun e => Types.ev_type e = Types.MessageStop) r.2).
Proof.
  split.
  - vm_compute. split; [eexists; reflexivity|].
    intros H. apply Exists_cons in H as [H|H]; [discriminate|].
    now apply Exists_nil in H.
  - vm_compute. split; [reflexivity|]. now apply Exists_cons_hd.
Qed.

(** A text delta for block 3 of a parser that holds no block. *)
Lemma C10_stray_delta_ignored_witness :
  let delta := Types.mkDelta 3 "text_delta" "abc" "" "" in
  let event :=
    Types.mkStreamEvent Types.ContentBlockDelta None None (Some delta)
                        None None None 3 in
  Parser.process_event Sample.json_parse Parser.new_parser event
  = Parser.new_parser.
Proof.
  intros delta event.
  refine (proj1 (C10_stray_delta_ignored Sample.json_parse Parser.new_parser
                   event delta _ _ _)).
  - reflexivity.
  - reflexivity.
  - left. vm_compute. discriminate.
Defined.

(** C9: the shape of the list that directive extraction returns.  A text
    without an open/close marker pair gives the empty list.  A text with
    at least one marker pair, read as segments followed by a non-empty
    tail, gives the block of each segment and then one extra block whose
    code is empty and whose preceding text is exactly the tail.  Every
    text has such a reading. *)
Theorem C9_extraction_shape (text : string) :
  (no_marker_pair text -> Script.extract_idascript_blocks text = [])
  /\ (forall segs tail,
        segmented text segs tail ->
        ~ no_marker_pair text ->
        tail <> "" ->
        Script.extract_idascript_blocks text
        = map block_of segs
          ++ [ {| Script.code := ""; Script.preceding_text := tail |} ])
  /\ (exists segs tail, segmented text segs tail).
Proof.
  repeat split.
  - intros Hno. now rewrite (extract_segmented _ [] text (segmented_tail _ Hno)).
  - intros segs tail Hseg Hpair Htail.
    rewrite (extract_segmented _ _ _ Hseg).
    destruct segs as [|seg segs].
    + contradiction Hpair. now apply (segmented_nil_iff _ _ _ Hseg).
    + now rewrite bool_decide_eq_false_2.
  - apply segmented_total.
Qed.

(** The text of the example of the specification: one segment and the
    tail " done.". *)
Lemma C9_extraction_shape_witness :
  Script.extract_idascript_blocks
    "Let's check: <idascript>print(1+1)</idascript> done."
  = [ {| Script.code := "print(1+1)";
         Script.preceding_text := "Let's check: " |};
      {| Script.code := ""; Script.preceding_text := " done." |} ].
Proof.
  refine (proj1 (proj2 (C9_extraction_shape _))
            [("Let's check: ", "print(1+1)")] " done." _ _ _).
  - apply (segmented_cons "Let's check: " "print(1+1)" " done." [] " done.").
    + reflexivity.
    + reflexivity.
    + apply segmented_tail, regex_search_script_None. reflexivity.
  - intros Hno. apply regex_search_script_None in Hno. discriminate.
  - discriminate.
Defined.

(** Two streaming calls that each report 12 input tokens and 1 output
    token. *)
Lemma C6_usage_accumulates_witness :
  let c := Client.mkClaudeClient "key" "claude" Types.usage_zero false in
  let request :=
    Types.mkCreateMessageRequest "claude" [Types.ClaudeMessage_user "hi"] ""
                                 [] 8192 None true None in
  let call :=
    Client.Streaming request (Client.mkTransfer [Sample.hello_stream] None) in
  Client.get_total_usage
    (Client.session Sample.json_parse c ([call] ++ [call])).1
  = usage_total (Client.total_usage c)
      (reported (Client.session Sample.json_parse c ([call] ++ [call])).2)
  /\ (Client.estimate_cost (Client.session Sample.json_parse c [call]).1
      <= Client.estimate_cost
           (Client.session Sample.json_parse c ([call] ++ [call])).1)%Q.
Proof.
  intros c request call.
  apply (C6_usage_accumulates Sample.json_parse c [call] [call]).
  - vm_compute. repeat split; discriminate.
  - vm_compute. repeat constructor; discriminate.
  - vm_compute. repeat split; discriminate.
Defined.

(** The total of that session, computed. *)
Example session_total_example :
  let c := Client.mkClaudeClient "key" "claude" Types.usage_zero false in
  let request :=
    Types.mkCreateMessageRequest "claude" [Types.ClaudeMessage_user "hi"] ""
                                 [] 8192 None true None in
  let call :=
    Client.Streaming request (Client.mkTransfer [Sample.hello_stream] None) in
  Client.get_total_usage
    (Client.session Sample.json_parse c ([call] ++ [call])).1
  = Types.mkTokenUsage 24 2 0 0.
Proof. vm_compute. reflexivity. Qed.

(** C2, as stated, fails: a connected engine whose cancellation flag was
    set before the call still makes a transport call and returns a
    success that is not marked cancelled. *)
Lemma C2_counterexample :
  let core := Core.request_cancel (Sample.core 20) in
  let r := Core.process_message Sample.json_parse core "hi"
                                (Sample.world Sample.hello_stream) in
  Core.is_cancelled core = true
  /\ Core.res_cancelled r.1.1 = false
  /\ Core.success r.1.1 = true
  /\ transport_calls r.2 = 1.
Proof. vm_compute. repeat split. Qed.

(** A cancellation requested before a call on the sample engine, and
    another one that arrives during the transfer of the first turn,
    before any chunk is seen. *)
Lemma C2_cancel_before_call_is_discarded_witness :
  let w :=
    Core.mkWorld
      (fun _ => Client.mkTransfer [Sample.hello_stream] (Some 0))
      (Core.cli_runs (Sample.world Sample.hello_stream)) in
  let r := Core.process_message Sample.json_parse
             (Core.request_cancel (Sample.core 20)) "hi" w in
  let r' := Core.process_message Sample.json_parse (Sample.core 20) "hi" w in
  r.1.1 = r'.1.1 /\ r.2 = r'.2
  /\ (Core.res_cancelled r.1.1 = true ->
      Core.use_cli_mode (Sample.core 20) = false
      /\ exists turn,
           (1 <= turn <= Core.max_turns (Core.options (Sample.core 20)))%Z
           /\ is_Some (Client.cancel_after (Core.transfers w turn))).
Proof.
  intros w.
  apply (C2_cancel_before_call_is_discarded Sample.json_parse
           (Sample.core 20) "hi" w).
  reflexivity.
Defined.

(** C3, as stated, fails: with a budget of one turn and a reply that
    holds the directive print(1), the script executor is called for the
    directive before process_message returns. *)
Lemma C3_counterexample :
  let r := Core.process_message Sample.json_parse (Sample.core 1) "hi"
                                (Sample.world Sample.script_stream) in
  Core.turns_used r.1.1 = Core.max_turns (Core.options (Sample.core 1))
  /\ executed_scripts r.2 = ["print(1)"]
  /\ In (Core.script_executor_call "print(1)") r.2.
Proof.
  vm_compute. repeat split. do 5 right. now left.
Qed.

(** The last turn of a budget of one turn, with the reply that holds
    the directive print(1). *)
Lemma C3_last_turn_runs_directives_witness :
  let r := Core.api_loop Sample.json_parse 1
             (Core.transfers (Sample.world Sample.script_stream))
             (Sample.core 1) 0 "" in
  Core.success r.1.1 = true
  /\ Core.res_cancelled r.1.1 = false
  /\ Core.res_response r.1.1 = ""
  /\ Core.turns_used r.1.1 = 1%Z
  /\ executed_scripts r.2 = ["print(1)"]
  /\ transport_calls r.2 = 1.
Proof.
  apply (C3_last_turn_runs_directives Sample.json_parse
           (Core.transfers (Sample.world Sample.script_stream))
           (Sample.core 1) Sample.client 0 ""
           (Types.mkCreateMessageResponse "msg_1" "" None
              [Types.TextContent Sample.script_reply]
              (Types.mkTokenUsage 12 1 0 0))
           Sample.executor).
  - reflexivity.
  - reflexivity.
  - reflexivity.
  - reflexivity.
  - vm_compute. reflexivity.
  - vm_compute. discriminate.
Defined.


(** * Further properties

    Properties of the code beyond the claims of the specification: the
    string utilities and the path encoding of core/types.cpp, the
    directive scanner, the streaming parser, the serializer, the client
    and the agent loop. *)

Section StrFacts.
Import Str.

(** Every character of [s] occurs in [chars]. *)
Fixpoint within (chars s : string) : bool :=
  match s with
  | "" => true
  | String c s' => mem c chars && within chars s'
  end.

Lemma within_app (chars s t : string) :
  within chars (s +:+ t) = within chars s && within chars t.
Proof.
  induction s as [|c s IH]; [reflexivity|].
  rewrite app_cons. cbn [within]. now rewrite IH, andb_assoc.
Qed.

Lemma within_take (chars : string) (n : nat) (s : string) :
  within chars s = true -> within chars (take n s) = true.
Proof.
  revert n. induction s as [|c s IH]; intros [|n] H; try reflexivity.
  cbn [take within] in *. apply andb_true_iff in H as [Hc Hs].
  now rewrite Hc, IH.
Qed.

Lemma take_all (s : string) : take (size s) s = s.
Proof. induction s as [|c s IH]; [reflexivity|]. simpl. now rewrite IH. Qed.

(** [find_first_not_of] fails exactly on the strings over [chars]. *)
Lemma find_first_not_of_None (chars s : string) :
  find_first_not_of chars s = None <-> within chars s = true.
Proof.
  induction s as [|c s IH]; [easy|]. cbn [find_first_not_of within].
  destruct (mem c chars); cbn [andb]; [|easy].
  rewrite <- IH. destruct (find_first_not_of chars s); easy.
Qed.

(** What [find_first_not_of] finds: characters of [chars] before the
    offset, another character at the offset. *)
Lemma find_first_not_of_Some (chars s : string) (i : nat) :
  find_first_not_of chars s = Some i ->
  within chars (take i s) = true
  /\ size (take i s) = i
  /\ exists c rest, drop i s = String c rest /\ mem c chars = false.
Proof.
  revert i. induction s as [|c s IH]; intros i; [easy|].
  cbn [find_first_not_of]. destruct (mem c chars) eqn:Hc.
  - destruct (find_first_not_of chars s) as [j|]; [|easy].
    intros [= <-]. destruct (IH j eq_refl) as (Hw & Hsz & Hd).
    cbn [take within drop String.length]. rewrite Hc, Hw, Hsz.
    repeat split. exact Hd.
  - intros [= <-]. cbn [take within drop String.length].
    repeat split. eauto.
Qed.

Lemma find_last_not_of_None (chars s : string) :
  find_last_not_of chars s = None <-> within chars s = true.
Proof.
  induction s as [|c s IH]; [easy|]. cbn [find_last_not_of within].
  destruct (find_last_not_of chars s) as [j|].
  - split; [easy|]. intros H. apply andb_true_iff in H as [_ H].
    now apply IH in H.
  - destruct IH as [IH _]. rewrite (IH eq_refl), andb_true_r.
    destruct (mem c chars); easy.
Qed.

(** What [find_last_not_of] finds: a character outside [chars] at the
    offset, characters of [chars] after it. *)
Lemma find_last_not_of_Some (chars s : string) (j : nat) :
  find_last_not_of chars s = Some j ->
  exists m c r,
    s = m +:+ String c r /\ size m = j /\ mem c chars = false
    /\ within chars r = true.
Proof.
  revert j. induction s as [|d s IH]; intros j; [easy|].
  cbn [find_last_not_of].
  destruct (find_last_not_of chars s) as [i|] eqn:Hs.
  - intros [= <-]. destruct (IH i eq_refl) as (m & c & r & -> & Hm & Hc & Hr).
    exists (String d m), c, r. rewrite app_cons. cbn [String.length].
    auto.
  - destruct (mem d chars) eqn:Hd; [easy|]. intros [= <-].
    exists "", d, s. rewrite app_nil_l.
    apply find_last_not_of_None in Hs. auto.
Qed.

Lemma find_last_not_of_app (chars l t : string) (j : nat) :
  find_last_not_of chars t = Some j ->
  find_last_not_of chars (l +:+ t) = Some (size l + j).
Proof.
  intros Ht. induction l as [|d l IH]; [now rewrite app_nil_l|].
  rewrite app_cons. cbn [find_last_not_of]. now rewrite IH.
Qed.

(** The last character outside [chars], when the string ends with it. *)
Lemma find_last_not_of_last (chars m : string) (c : ascii) :
  mem c chars = false ->
  find_last_not_of chars (m +:+ String c "") = Some (size m).
Proof.
  intros Hc. rewrite (find_last_not_of_app chars m _ 0); [f_equal; lia|].
  cbn. now rewrite Hc.
Qed.

Lemma back_app_last (m : string) (c : ascii) :
  back (m +:+ String c "") = Some c.
Proof.
  induction m as [|d m IH]; [reflexivity|].
  rewrite app_cons. cbn [back]. rewrite IH.
  destruct m; reflexivity.
Qed.

(** The shape of the result of [trim]: the input is whitespace, the
    result, whitespace; and the result is empty or runs from a
    character that is not whitespace to one that is not whitespace. *)
Lemma trim_shape (s : string) :
  exists l r,
    s = l +:+ trim s +:+ r
    /\ within WHITESPACE l = true /\ within WHITESPACE r = true
    /\ (trim s = ""
        \/ exists c rest m c',
             trim s = String c rest /\ trim s = m +:+ String c' ""
             /\ mem c WHITESPACE = false /\ mem c' WHITESPACE = false).
Proof.
  unfold trim.
  destruct (find_first_not_of WHITESPACE s) as [start|] eqn:Hfirst.
  - destruct (find_first_not_of_Some _ _ _ Hfirst)
      as (Hl & Hsz & c & rest & Hdrop & Hc).
    assert (Hlast : exists e', find_last_not_of WHITESPACE (drop start s)
                               = Some e').
    { rewrite Hdrop. cbn [find_last_not_of]. rewrite Hc.
      destruct (find_last_not_of WHITESPACE rest); eauto. }
    destruct Hlast as [e' He'].
    pose proof (find_last_not_of_app WHITESPACE (take start s) _ _ He') as He.
    rewrite take_drop, Hsz in He. rewrite He.
    destruct (find_last_not_of_Some _ _ _ He') as (m & c' & r & Ht & Hm & Hc' & Hr).
    assert (Hsub : substr s start (start + e' - start + 1)
                   = m +:+ String c' "").
    { unfold substr. rewrite Ht.
      replace (start + e' - start + 1) with (size (m +:+ String c' ""))
        by (rewrite size_app; simpl; lia).
      replace (m +:+ String c' r) with ((m +:+ String c' "") +:+ r)
        by now rewrite app_assoc.
      apply take_app_size. }
    rewrite Hsub. exists (take start s), r. repeat split; try assumption.
    + rewrite <- (take_drop start s) at 1. f_equal. rewrite Ht.
      now rewrite app_assoc.
    + right. rewrite Hdrop in Ht. destruct m as [|d m].
      * rewrite app_nil_l in *. injection Ht as -> ->.
        exists c', "", "", c'. now rewrite app_nil_l.
      * rewrite app_cons in *. injection Ht as -> ->.
        exists d, (m +:+ String c' ""), (String d m), c'.
        now rewrite app_cons.
  - exists s, "". rewrite app_nil_l, app_nil_r.
    apply find_first_not_of_None in Hfirst. auto.
Qed.

Lemma trim_trim (s : string) : trim (trim s) = trim s.
Proof.
  destruct (trim_shape s) as (_ & _ & _ & _ & _ & [->|H]); [reflexivity|].
  destruct H as (c & rest & m & c' & Hc & Hm & Hcw & Hcw').
  unfold trim at 1. rewrite Hc at 1. cbn [find_first_not_of]. rewrite Hcw.
  rewrite Hm at 1. rewrite (find_last_not_of_last _ _ _ Hcw').
  unfold substr. cbn [drop]. rewrite Hm.
  replace (size m - 0 + 1) with (size (m +:+ String c' ""))
    by (rewrite size_app; simpl; lia).
  apply take_all.
Qed.

Lemma within_find_char (chars s : string) (c : ascii) :
  within chars s = true -> mem c chars = false ->
  find_char c s = None.
Proof.
  intros Hs Hc. unfold find_char.
  induction s as [|d s IH]; [reflexivity|].
  cbn [within] in Hs. apply andb_true_iff in Hs as [Hd Hs].
  rewrite find_unfold. cbn [String.prefix].
  destruct (Ascii.eqb_spec c d) as [->|Hne]; [congruence|].
  destruct (ascii_dec c d) as [->|_]; [congruence|].
  now rewrite IH.
Qed.

End StrFacts.

Section UtilFacts.
Import Str Util.

(** [join] by recursion on the parts. *)
Fixpoint join_rest (delimiter : string) (parts : list string) : string :=
  match parts with
  | [] => ""
  | part :: parts' => delimiter +:+ part +:+ join_rest delimiter parts'
  end.

Lemma join_foldl (delimiter : string) (parts : list string) (i : nat)
    (result : string) :
  (foldl (fun acc part =>
            (S acc.1,
             (if 0 <? acc.1 then acc.2 +:+ delimiter else acc.2) +:+ part))
         (S i, result) parts).2
  = result +:+ join_rest delimiter parts.
Proof.
  revert i result. induction parts as [|part parts IH]; intros i result.
  - cbn. now rewrite app_nil_r.
  - cbn [foldl fst snd join_rest]. rewrite IH.
    change (0 <? S i) with true. cbv iota. now rewrite !app_assoc.
Qed.

Lemma join_cons (part : string) (parts : list string) (delimiter : string) :
  join (part :: parts) delimiter = part +:+ join_rest delimiter parts.
Proof.
  unfold join. cbn [foldl fst snd]. change (0 <? 0) with false. cbv iota.
  rewrite app_nil_l. apply join_foldl.
Qed.

(** The text without a final delimiter. *)
Definition chop (delimiter : ascii) (s : string) : string :=
  if ends_with s (String delimiter "") then pop_back s else s.

Lemma ends_with_char (d : ascii) (s : string) :
  ends_with s (String d "") = bool_decide (back s = Some d).
Proof.
  unfold ends_with, substr. cbn [String.length].
  induction s as [|c s IH]; [reflexivity|].
  destruct s as [|c' s].
  - cbn. destruct (decide (String c "" = String d "")) as [[= ->]|Hne].
    + rewrite bool_decide_eq_true_2 by reflexivity.
      now rewrite bool_decide_eq_true_2.
    + rewrite bool_decide_eq_false_2 by exact Hne.
      rewrite bool_decide_eq_false_2; [reflexivity|]. intros [= ->]. easy.
  - change (back (String c (String c' s))) with (back (String c' s)).
    rewrite <- IH. cbn [String.length].
    replace (S (S (size s)) - 1) with (S (S (size s) - 1)) by lia.
    cbn [drop]. reflexivity.
Qed.

Lemma chop_cons (d c : ascii) (s : string) :
  s <> "" -> chop d (String c s) = String c (chop d s).
Proof.
  intros Hs. unfold chop. rewrite !ends_with_char.
  destruct s as [|c' s]; [easy|].
  change (back (String c (String c' s))) with (back (String c' s)).
  destruct (bool_decide _); reflexivity.
Qed.

Lemma split_loop_nil (d : ascii) (token s : string) :
  split_loop d token s = [] -> token = "" /\ s = "".
Proof.
  revert token. induction s as [|c s IH]; intros token; cbn [split_loop].
  - destruct (bool_decide (token = "")) eqn:Ht; [|easy].
    now apply bool_decide_eq_true in Ht.
  - destruct (Ascii.eqb c d); [easy|]. intros H. apply IH in H as [H _].
    now destruct token.
Qed.

Lemma join_split_loop (d : ascii) (s token : string) :
  join (split_loop d token s) (String d "") = token +:+ chop d s.
Proof.
  revert token. induction s as [|c s IH]; intros token; cbn [split_loop].
  - unfold chop. cbn. destruct (bool_decide (token = "")) eqn:Ht.
    + apply bool_decide_eq_true in Ht. now subst.
    + rewrite join_cons. cbn. now rewrite !app_nil_r.
  - destruct (Ascii.eqb_spec c d) as [->|Hne].
    + rewrite join_cons. f_equal.
      destruct s as [|c' s].
      * unfold chop. rewrite ends_with_char. cbn [back].
        now rewrite bool_decide_eq_true_2.
      * rewrite chop_cons by easy.
        specialize (IH "").
        destruct (split_loop d "" (String c' s)) as [|p l] eqn:Hl.
        { apply split_loop_nil in Hl as [_ [=]]. }
        rewrite join_cons, app_nil_l in IH. cbn [join_rest].
        rewrite <- IH. now rewrite app_cons, app_nil_l.
    + rewrite IH. rewrite app_assoc, app_cons, app_nil_l.
      destruct s as [|c' s].
      * unfold chop. rewrite !ends_with_char. cbn [back].
        now rewrite !bool_decide_eq_false_2 by congruence.
      * now rewrite (chop_cons d c) by easy.
Qed.

Lemma find_char_cons (d c : ascii) (s : string) :
  find_char d (String c s)
  = if Ascii.eqb c d then Some 0 else S <$> find_char d s.
Proof.
  unfold find_char. rewrite find_unfold. cbn [String.prefix].
  destruct (Ascii.eqb_spec c d) as [->|Hne].
  - destruct (ascii_dec d d); [|easy]. now destruct s.
  - destruct (ascii_dec d c); [congruence|reflexivity].
Qed.

Lemma find_char_app_None (d : ascii) (a b : string) :
  find_char d (a +:+ b) = None
  <-> find_char d a = None /\ find_char d b = None.
Proof.
  induction a as [|c a IH]; [rewrite app_nil_l; now intuition|].
  rewrite app_cons, !find_char_cons. destruct (Ascii.eqb c d); [easy|].
  destruct (find_char d (a +:+ b)), (find_char d a); cbn; intuition congruence.
Qed.

Lemma split_loop_tokens (d : ascii) (s token : string) :
  find_char d token = None ->
  Forall (fun t => find_char d t = None) (split_loop d token s).
Proof.
  revert token. induction s as [|c s IH]; intros token Ht; cbn [split_loop].
  - destruct (bool_decide (token = "")); auto.
  - destruct (Ascii.eqb c d) eqn:Hc.
    + constructor; [exact Ht|]. now apply IH.
    + apply IH. apply find_char_app_None. split; [exact Ht|].
      now rewrite find_char_cons, Hc.
Qed.

Lemma split_loop_app (d : ascii) (p : string) :
  find_char d p = None ->
  forall token s,
    split_loop d token (p +:+ s) = split_loop d (token +:+ p) s.
Proof.
  induction p as [|c p IH]; intros Hp token s.
  - now rewrite app_nil_l, app_nil_r.
  - rewrite find_char_cons in Hp. rewrite app_cons. cbn [split_loop].
    destruct (Ascii.eqb c d); [easy|].
    rewrite IH by (now destruct (find_char d p)).
    now rewrite app_assoc, app_cons, app_nil_l.
Qed.

Lemma split_join_parts (d : ascii) (parts : list string) :
  Forall (fun p => find_char d p = None) parts ->
  last parts <> Some "" ->
  split (join parts (String d "")) d = parts.
Proof.
  unfold split. induction 1 as [|p l Hp Hl IH]; intros Hlast; [reflexivity|].
  rewrite join_cons, (split_loop_app d p Hp), app_nil_l.
  destruct l as [|q l].
  - cbn. rewrite bool_decide_eq_false_2; [reflexivity|].
    intros ->. now apply Hlast.
  - cbn [join_rest]. rewrite app_cons, app_nil_l. cbn [split_loop].
    rewrite Ascii.eqb_refl. f_equal.
    rewrite <- join_cons. apply IH. exact Hlast.
Qed.

(** *** [html_escape] *)

Lemma html_escape_app (a b : string) :
  html_escape (a +:+ b) = html_escape a +:+ html_escape b.
Proof.
  induction a as [|c a IH]; [now rewrite !app_nil_l|].
  rewrite app_cons. cbn [html_escape]. now rewrite IH, app_assoc.
Qed.

(** The characters with a meaning in HTML markup, the ampersand
    apart. *)
Definition markup (x : ascii) : Prop :=
  x = "<"%char \/ x = ">"%char \/ x = DQ \/ x = "'"%char.

Lemma html_escape_char_markup (x c : ascii) :
  markup x -> find_char x (html_escape_char c) = None.
Proof.
  intros Hx. unfold html_escape_char.
  destruct (Ascii.eqb_spec c "&") as [->|H1];
    [destruct Hx as [-> | [-> | [-> | ->]]]; reflexivity|].
  destruct (Ascii.eqb_spec c "<") as [->|H2];
    [destruct Hx as [-> | [-> | [-> | ->]]]; reflexivity|].
  destruct (Ascii.eqb_spec c ">") as [->|H3];
    [destruct Hx as [-> | [-> | [-> | ->]]]; reflexivity|].
  destruct (Ascii.eqb_spec c DQ) as [->|H4];
    [destruct Hx as [-> | [-> | [-> | ->]]]; reflexivity|].
  destruct (Ascii.eqb_spec c "'") as [->|H5];
    [destruct Hx as [-> | [-> | [-> | ->]]]; reflexivity|].
  rewrite find_char_cons.
  destruct (Ascii.eqb_spec c x) as [->|Hne]; [|reflexivity].
  destruct Hx as [-> | [-> | [-> | ->]]]; congruence.
Qed.

Lemma html_escape_markup (x : ascii) (s : string) :
  markup x -> find_char x (html_escape s) = None.
Proof.
  intros Hx. induction s as [|c s IH]; [reflexivity|].
  cbn [html_escape]. apply find_char_app_None. split; [|exact IH].
  now apply html_escape_char_markup.
Qed.

Lemma html_escape_char_inj (c d : ascii) (x y : string) :
  html_escape_char c +:+ x = html_escape_char d +:+ y -> c = d /\ x = y.
Proof.
  unfold html_escape_char.
  repeat match goal with
         | |- context [Ascii.eqb ?a ?b] =>
             destruct (Ascii.eqb_spec a b) as [->|?]
         end;
    rewrite ?app_cons, ?app_nil_l; intros H;
    try discriminate H; try (injection H as ?; subst; easy).
Qed.

Lemma html_escape_char_nonempty (c : ascii) (x : string) :
  html_escape_char c +:+ x <> "".
Proof.
  unfold html_escape_char.
  repeat match goal with
         | |- context [Ascii.eqb ?a ?b] => destruct (Ascii.eqb a b)
         end; now rewrite app_cons.
Qed.

Lemma html_escape_inj (a b : string) :
  html_escape a = html_escape b -> a = b.
Proof.
  revert b. induction a as [|c a IH]; intros [|d b]; cbn [html_escape].
  - reflexivity.
  - intros H. symmetry in H. now apply html_escape_char_nonempty in H.
  - intros H. now apply html_escape_char_nonempty in H.
  - intros H. apply html_escape_char_inj in H as [-> H]. f_equal. now apply IH.
Qed.

(** *** [replace_all] *)

Lemma replace_loop_eq (f : ascii) (from' to result : string) (pos : nat) :
  replace_loop f from' to result pos =
  match find_from (String f from') result pos with
  | Some p =>
      replace_loop f from' to
        (take p result +:+ to +:+ drop (p + size (String f from')) result)
        (p + size to)
  | None => result
  end.
Proof.
  rewrite replace_loop_equation_1.
  assert (Hgen : forall o (H : find_from (String f from') result pos = o),
    replace_loop_unfold_clause_1 f from' to result pos (exist _ o H) =
    match o with
    | Some p =>
        replace_loop f from' to
          (take p result +:+ to +:+ drop (p + size (String f from')) result)
          (p + size to)
    | None => result
    end).
  { intros [p|] H; simp replace_loop; reflexivity. }
  apply Hgen.
Qed.

(** A reading of a text by the occurrences of [from] that [replace_all]
    takes: [pre1 from pre2 from ... pren from tail], where each
    occurrence is the first one from the end of the one before, and the
    tail holds none. *)
Inductive occurrences (from : string) : string -> list string -> string -> Prop :=
| occurrences_tail (tail : string) :
    find from tail = None -> occurrences from tail [] tail
| occurrences_cons (pre rest : string) (pres : list string) (tail : string) :
    find from (pre +:+ from) = Some (size pre) ->
    occurrences from rest pres tail ->
    occurrences from (pre +:+ from +:+ rest) (pre :: pres) tail.

(** The text with [to] in the place of each occurrence. *)
Definition replaced (to : string) (pres : list string) (tail : string)
    : string :=
  foldr (fun pre acc => pre +:+ to +:+ acc) tail pres.

Lemma find_from_app (pat done rest : string) :
  find_from pat (done +:+ rest) (size done)
  = (fun i => size done + i) <$> find pat rest.
Proof.
  unfold find_from. rewrite size_app, drop_app_size.
  replace (size done <=? size done + size rest) with true
    by (symmetry; apply Nat.leb_le; lia).
  reflexivity.
Qed.

Lemma replace_loop_occurrences (f : ascii) (from' to rest : string)
    (pres : list string) (tail : string) :
  occurrences (String f from') rest pres tail ->
  forall done,
    replace_loop f from' to (done +:+ rest) (size done)
    = done +:+ replaced to pres tail.
Proof.
  induction 1 as [tail Hnone|pre rest pres tail Hpre Hocc IH]; intros done;
    rewrite replace_loop_eq, find_from_app.
  - now rewrite Hnone.
  - rewrite (find_app_first _ _ _ Hpre). cbn [fmap option_fmap option_map].
    specialize (IH (done +:+ pre +:+ to)).
    replace (size done + size pre + size to)
      with (size (done +:+ pre +:+ to)) by (rewrite !size_app; lia).
    replace (take (size done + size pre)
               (done +:+ pre +:+ String f from' +:+ rest)
             +:+ to
             +:+ drop (size done + size pre + size (String f from'))
                   (done +:+ pre +:+ String f from' +:+ rest))
      with ((done +:+ pre +:+ to) +:+ rest).
    + rewrite IH. cbn [replaced foldr]. now rewrite !app_assoc.
    + rewrite <- (size_app done pre).
      rewrite <- (app_assoc done pre (String f from' +:+ rest)).
      rewrite take_app_size.
      rewrite <- (size_app (done +:+ pre) (String f from')).
      rewrite <- (app_assoc (done +:+ pre) (String f from') rest).
      rewrite drop_app_size. now rewrite !app_assoc.
Qed.

Lemma occurrences_total (f : ascii) (from' s : string) :
  exists pres tail, occurrences (String f from') s pres tail.
Proof.
  remember (size s) as n eqn:Hn.
  revert s Hn. induction n as [n IH] using lt_wf_ind. intros s Hn.
  destruct (find (String f from') s) as [i|] eqn:Hi.
  - pose proof (find_bound _ _ _ Hi) as Hbound.
    pose proof (find_Some_split _ _ _ Hi) as Hsplit.
    pose proof (find_take _ _ _ Hi) as Hfirst.
    set (rest := drop (i + size (String f from')) s) in *.
    destruct (IH (size rest)) with (s := rest) as (pres & tail & Hocc);
      [subst rest; rewrite size_drop; simpl in *; lia|reflexivity|].
    exists (take i s :: pres), tail.
    rewrite Hsplit at 1. now apply occurrences_cons.
  - exists [], s. now apply occurrences_tail.
Qed.

End UtilFacts.

Section Base64Facts.
Import Base64.

Lemma lor_shiftl_add (x y n : Z) :
  (0 <= n)%Z -> (0 <= y < 2 ^ n)%Z ->
  Z.lor (Z.shiftl x n) y = (x * 2 ^ n + y)%Z.
Proof.
  intros Hn Hy.
  assert (Hland : Z.land (Z.shiftl x n) y = 0%Z).
  { apply Z.bits_inj'. intros i Hi. rewrite Z.land_spec, Z.bits_0.
    destruct (Z.lt_ge_cases i n) as [Hlt|Hge].
    - now rewrite Z.shiftl_spec_low.
    - rewrite <- (Z.mod_small y (2 ^ n)) by lia.
      rewrite Z.mod_pow2_bits_high by lia. apply andb_false_r. }
  rewrite <- Z.lxor_lor by exact Hland.
  rewrite <- Z.add_nocarry_lxor by exact Hland.
  now rewrite Z.shiftl_mul_pow2.
Qed.

Definition is_octet (z : Z) : Prop := (0 <= z < 256)%Z.

Lemma octet_range (c : ascii) : is_octet (octet c).
Proof.
  unfold is_octet, octet. pose proof (N_ascii_bounded c). lia.
Qed.

Lemma to_char_octet (c : ascii) : to_char (octet c) = c.
Proof.
  unfold to_char. pose proof (octet_range c) as H. unfold is_octet in H.
  rewrite Z.mod_small by lia. unfold octet. rewrite N2Z.id.
  apply ascii_N_embedding.
Qed.

Lemma decode_at_char_at (i : Z) :
  (0 <= i < 64)%Z -> decode_at (char_at i) = i.
Proof.
  intros Hi.
  assert (H : forall n, n < 64 ->
                decode_at (char_at (Z.of_nat n)) = Z.of_nat n).
  { intros n Hn. do 64 (destruct n as [|n]; [reflexivity|]). lia. }
  rewrite <- (Z2Nat.id i) by lia. apply H. lia.
Qed.

(** The indices of one round of the encoder. *)
Definition index1 (a : Z) : Z := (a / 4)%Z.
Definition index2 (a b : Z) : Z := (a mod 4 * 16 + b / 16)%Z.
Definition index3 (b c : Z) : Z := (b mod 16 * 4 + c / 64)%Z.
Definition index4 (c : Z) : Z := (c mod 64)%Z.

Lemma encode_triple_indices (a b c : Z) :
  is_octet a -> is_octet b -> is_octet c ->
  encode_triple a b c
  = String (char_at (index1 a))
      (String (char_at (index2 a b))
         (String (char_at (index3 b c)) (String (char_at (index4 c)) ""))).
Proof.
  unfold is_octet, encode_triple, wrap_u32, index1, index2, index3, index4.
  intros Ha Hb Hc.
  assert (Ht : ((((a * 65536) mod 4294967296 + (b * 256) mod 4294967296)
                  mod 4294967296 + c) mod 4294967296
                = a * 65536 + b * 256 + c)%Z).
  { rewrite (Z.mod_small (a * 65536)) by lia.
    rewrite (Z.mod_small (b * 256)) by lia.
    rewrite (Z.mod_small (a * 65536 + b * 256)) by lia.
    apply Z.mod_small. lia. }
  change 63%Z with (Z.ones 6). rewrite !Z.land_ones by lia.
  rewrite !Z.shiftr_div_pow2, !Z.shiftl_mul_pow2 by lia.
  change (2 ^ 32)%Z with 4294967296%Z. change (2 ^ 16)%Z with 65536%Z.
  change (2 ^ 8)%Z with 256%Z. change (2 ^ 18)%Z with 262144%Z.
  change (2 ^ 12)%Z with 4096%Z. change (2 ^ 6)%Z with 64%Z.
  rewrite Ht.
  set (t := (a * 65536 + b * 256 + c)%Z).
  assert (H1 : ((t / 262144) mod 64 = a / 4)%Z)
    by (subst t; Z.div_mod_to_equations; lia).
  assert (H2 : ((t / 4096) mod 64 = a mod 4 * 16 + b / 16)%Z)
    by (subst t; Z.div_mod_to_equations; lia).
  assert (H3 : ((t / 64) mod 64 = b mod 16 * 4 + c / 64)%Z)
    by (subst t; Z.div_mod_to_equations; lia).
  assert (H4 : (t mod 64 = c mod 64)%Z)
    by (subst t; Z.div_mod_to_equations; lia).
  now rewrite H1, H2, H3, H4.
Qed.

Lemma index_range (a b c : Z) :
  is_octet a -> is_octet b -> is_octet c ->
  (0 <= index1 a < 64 /\ 0 <= index2 a b < 64
   /\ 0 <= index3 b c < 64 /\ 0 <= index4 c < 64)%Z.
Proof.
  unfold is_octet, index1, index2, index3, index4. intros Ha Hb Hc.
  repeat split; Z.div_mod_to_equations; lia.
Qed.

(** The three octets that the decoder rebuilds from the four indices. *)
Lemma index_octets (a b c : Z) :
  is_octet a -> is_octet b -> is_octet c ->
  Z.lor (Z.shiftl (index1 a) 2) (Z.shiftr (index2 a b) 4) = a
  /\ Z.lor (Z.shiftl (Z.land (index2 a b) 15) 4) (Z.shiftr (index3 b c) 2) = b
  /\ Z.lor (Z.shiftl (Z.land (index3 b c) 3) 6) (index4 c) = c.
Proof.
  intros Ha Hb Hc.
  pose proof (index_range a b c Ha Hb Hc) as (H1 & H2 & H3 & H4).
  unfold is_octet, index1, index2, index3, index4 in *.
  change 15%Z with (Z.ones 4). change 3%Z with (Z.ones 2).
  rewrite !Z.land_ones by lia. rewrite !Z.shiftr_div_pow2 by lia.
  change (2 ^ 4)%Z with 16%Z. change (2 ^ 2)%Z with 4%Z.
  rewrite !lor_shiftl_add; try lia.
  all: change (2 ^ 2)%Z with 4%Z; change (2 ^ 4)%Z with 16%Z;
    change (2 ^ 6)%Z with 64%Z.
  - repeat split; Z.div_mod_to_equations; lia.
  - Z.div_mod_to_equations; lia.
  - Z.div_mod_to_equations; lia.
Qed.

Lemma decode_at_pad : decode_at "=" = (-1)%Z.
Proof. reflexivity. Qed.

(** One round of the decoder on the four characters of a full round of
    the encoder. *)
Lemma decode_loop_triple (a b c : ascii) (rest : string) :
  decode_loop (encode_triple (octet a) (octet b) (octet c) +:+ rest)
  = String a (String b (String c (decode_loop rest))).
Proof.
  pose proof (octet_range a) as Ha. pose proof (octet_range b) as Hb.
  pose proof (octet_range c) as Hc.
  rewrite encode_triple_indices by assumption.
  rewrite !Str.app_cons, Str.app_nil_l.
  pose proof (index_range _ _ _ Ha Hb Hc) as (H1 & H2 & H3 & H4).
  pose proof (index_octets _ _ _ Ha Hb Hc) as (E1 & E2 & E3).
  cbn [decode_loop]. rewrite !decode_at_char_at by assumption.
  rewrite E1, E2, E3.
  replace (index1 (octet a) <? 0)%Z with false by (symmetry; apply Z.ltb_ge; lia).
  replace (index2 (octet a) (octet b) <? 0)%Z with false
    by (symmetry; apply Z.ltb_ge; lia).
  replace (0 <=? index3 (octet b) (octet c))%Z with true
    by (symmetry; apply Z.leb_le; lia).
  replace (0 <=? index4 (octet c))%Z with true
    by (symmetry; apply Z.leb_le; lia).
  cbn [orb]. now rewrite !to_char_octet.
Qed.

Lemma is_octet_0 : is_octet 0.
Proof. unfold is_octet. lia. Qed.

(** The decoder on the two characters kept for a single last octet. *)
Lemma decode_loop_single (a : ascii) :
  decode_loop (Str.take 2 (encode_triple (octet a) 0 0) +:+ "==")
  = String a "".
Proof.
  pose proof (octet_range a) as Ha.
  rewrite encode_triple_indices by (try assumption; apply is_octet_0).
  cbn [Str.take]. rewrite !Str.app_cons, Str.app_nil_l.
  pose proof (index_range _ _ _ Ha is_octet_0 is_octet_0) as (H1 & H2 & _).
  pose proof (index_octets _ _ _ Ha is_octet_0 is_octet_0) as (E1 & _).
  cbn [decode_loop]. rewrite !decode_at_char_at by assumption.
  rewrite decode_at_pad, E1.
  replace (index1 (octet a) <? 0)%Z with false by (symmetry; apply Z.ltb_ge; lia).
  replace (index2 (octet a) 0 <? 0)%Z with false
    by (symmetry; apply Z.ltb_ge; lia).
  cbn. now rewrite to_char_octet.
Qed.

(** The decoder on the three characters kept for two last octets. *)
Lemma decode_loop_pair (a b : ascii) :
  decode_loop (Str.take 3 (encode_triple (octet a) (octet b) 0) +:+ "=")
  = String a (String b "").
Proof.
  pose proof (octet_range a) as Ha. pose proof (octet_range b) as Hb.
  rewrite encode_triple_indices by (try assumption; apply is_octet_0).
  cbn [Str.take]. rewrite !Str.app_cons, Str.app_nil_l.
  pose proof (index_range _ _ _ Ha Hb is_octet_0) as (H1 & H2 & H3 & _).
  pose proof (index_octets _ _ _ Ha Hb is_octet_0) as (E1 & E2 & _).
  cbn [decode_loop]. rewrite !decode_at_char_at by assumption.
  rewrite decode_at_pad, E1, E2.
  replace (index1 (octet a) <? 0)%Z with false by (symmetry; apply Z.ltb_ge; lia).
  replace (index2 (octet a) (octet b) <? 0)%Z with false
    by (symmetry; apply Z.ltb_ge; lia).
  replace (0 <=? index3 (octet b) 0)%Z with true
    by (symmetry; apply Z.leb_le; lia).
  cbn. now rewrite !to_char_octet.
Qed.

(** Induction on a string, three characters at a time. *)
Lemma string_ind3 (P : string -> Prop) :
  P "" ->
  (forall a, P (String a "")) ->
  (forall a b, P (String a (String b ""))) ->
  (forall a b c rest, P rest -> P (String a (String b (String c rest)))) ->
  forall s, P s.
Proof.
  intros H0 H1 H2 H3 s.
  assert (H : P s /\ (forall a, P (String a s))
              /\ (forall a b, P (String a (String b s)))).
  { induction s as [|c s (IH0 & IH1 & IH2)]; repeat split; auto. }
  apply H.
Qed.

Lemma size_encode_triple (a b c : Z) : Str.size (encode_triple a b c) = 4.
Proof. reflexivity. Qed.

Lemma size_encode_loop (s : string) :
  Str.size (encode_loop s) = 4 * ((Str.size s + 2) / 3).
Proof.
  induction s as [|a|a b|a b c rest IH] using string_ind3; try reflexivity.
  cbn [encode_loop]. rewrite Str.size_app, size_encode_triple, IH.
  cbn [String.length].
  replace (S (S (S (Str.size rest))) + 2) with ((Str.size rest + 2) + 1 * 3)
    by lia.
  rewrite Nat.div_add by lia. lia.
Qed.

(** The padding test is redundant: without padding the resize keeps the
    whole result. *)
Lemma base64_url_encode_take (s : string) :
  base64_url_encode s
  = Str.take (Str.size (encode_loop s) - (3 - Str.size s mod 3) mod 3)
             (encode_loop s).
Proof.
  unfold base64_url_encode.
  destruct (0 <? (3 - Str.size s mod 3) mod 3) eqn:Hp; [reflexivity|].
  apply Nat.ltb_ge in Hp.
  replace ((3 - Str.size s mod 3) mod 3) with 0 by lia.
  rewrite Nat.sub_0_r. symmetry. apply take_all.
Qed.

Lemma base64_url_encode_cons3 (a b c : ascii) (rest : string) :
  base64_url_encode (String a (String b (String c rest)))
  = encode_triple (octet a) (octet b) (octet c) +:+ base64_url_encode rest.
Proof.
  rewrite !base64_url_encode_take. cbn [encode_loop String.length].
  replace (S (S (S (Str.size rest))) mod 3) with (Str.size rest mod 3).
  2:{ replace (S (S (S (Str.size rest)))) with (Str.size rest + 1 * 3) by lia.
      now rewrite Nat.Div0.mod_add. }
  set (p := (3 - Str.size rest mod 3) mod 3).
  rewrite Str.size_app, size_encode_triple.
  assert (Hp : p <= Str.size (encode_loop rest)).
  { rewrite size_encode_loop.
    assert (Hp2 : p < 3) by (apply Nat.mod_upper_bound; lia).
    destruct (Str.size rest) as [|n] eqn:Hn; [subst p; cbn; lia|].
    assert (1 <= (S n + 2) / 3); [|lia].
    apply Nat.div_le_lower_bound; lia. }
  replace (4 + Str.size (encode_loop rest) - p)
    with (Str.size (encode_triple (octet a) (octet b) (octet c))
          + (Str.size (encode_loop rest) - p))
    by (rewrite size_encode_triple; lia).
  generalize (Str.size (encode_loop rest) - p) as k.
  generalize (encode_loop rest) as r.
  intros r k. now rewrite encode_triple_indices by apply octet_range.
Qed.

Lemma pad_app4 (rounds : nat) (t s : string) :
  Str.size t = 4 -> pad rounds (t +:+ s) = t +:+ pad rounds s.
Proof.
  intros Ht. revert s. induction rounds as [|rounds IH]; intros s; [reflexivity|].
  cbn [pad]. rewrite Str.size_app, Ht.
  replace (4 + Str.size s) with (Str.size s + 1 * 4) by lia.
  rewrite Nat.Div0.mod_add.
  destruct (negb (Str.size s mod 4 =? 0)); [|reflexivity].
  now rewrite Str.app_assoc, IH.
Qed.

Lemma base64_url_round_trip (s : string) :
  base64_url_decode (base64_url_encode s) = s.
Proof.
  induction s as [|a|a b|a b c rest IH] using string_ind3.
  - reflexivity.
  - apply (decode_loop_single a).
  - apply (decode_loop_pair a b).
  - rewrite base64_url_encode_cons3. unfold base64_url_decode in *.
    rewrite pad_app4 by apply size_encode_triple.
    now rewrite decode_loop_triple, IH.
Qed.

Lemma size_base64_url_encode (s : string) :
  Str.size (base64_url_encode s) = (4 * Str.size s + 2) / 3.
Proof.
  induction s as [|a|a b|a b c rest IH] using string_ind3; try reflexivity.
  rewrite base64_url_encode_cons3, Str.size_app, size_encode_triple, IH.
  cbn [String.length].
  replace (4 * S (S (S (Str.size rest))) + 2)
    with ((4 * Str.size rest + 2) + 4 * 3) by lia.
  rewrite Nat.div_add by lia. lia.
Qed.

Lemma mem_char_at (i : Z) :
  (0 <= i < 64)%Z -> Str.mem (char_at i) base64_url_chars = true.
Proof.
  intros Hi.
  assert (H : forall n, n < 64 ->
                Str.mem (char_at (Z.of_nat n)) base64_url_chars = true).
  { intros n Hn. do 64 (destruct n as [|n]; [reflexivity|]). lia. }
  rewrite <- (Z2Nat.id i) by lia. apply H. lia.
Qed.

Lemma within_encode_triple (a b c : Z) :
  is_octet a -> is_octet b -> is_octet c ->
  within base64_url_chars (encode_triple a b c) = true.
Proof.
  intros Ha Hb Hc. rewrite encode_triple_indices by assumption.
  pose proof (index_range _ _ _ Ha Hb Hc) as (H1 & H2 & H3 & H4).
  cbn [within]. now rewrite !mem_char_at.
Qed.

Lemma within_encode_loop (s : string) :
  within base64_url_chars (encode_loop s) = true.
Proof.
  induction s as [|a|a b|a b c rest IH] using string_ind3;
    cbn [encode_loop]; [reflexivity|..].
  - apply within_encode_triple; auto using octet_range, is_octet_0.
  - apply within_encode_triple; auto using octet_range, is_octet_0.
  - rewrite within_app, IH, within_encode_triple; auto using octet_range.
Qed.

Lemma within_base64_url_encode (s : string) :
  within base64_url_chars (base64_url_encode s) = true.
Proof.
  rewrite base64_url_encode_take. apply within_take, within_encode_loop.
Qed.

End Base64Facts.

Section StripFacts.
Import Script.

Lemma strip_loop_eq (text : string) (last_end : nat) (out : string) :
  strip_loop text last_end out =
  match regex_search_script (Str.drop last_end text) with
  | Some m =>
      strip_loop text (last_end + position m + mlength m)
        (out +:+ Str.substr text last_end (position m))
  | None => out +:+ Str.drop last_end text
  end.
Proof.
  rewrite strip_loop_equation_1.
  assert (Hgen : forall o (H : regex_search_script (Str.drop last_end text) = o),
    strip_loop_unfold_clause_1 text last_end (exist _ o H) out =
    match o with
    | Some m =>
        strip_loop text (last_end + position m + mlength m)
          (out +:+ Str.substr text last_end (position m))
    | None => out +:+ Str.drop last_end text
    end).
  { intros [m|] H; simp strip_loop; reflexivity. }
  apply Hgen.
Qed.

(** The texts of a list, one after the other. *)
Definition concat_texts (l : list string) : string :=
  foldr String.append "" l.

(** The loop of the stripping follows the segments. *)
Lemma strip_loop_segmented (s : string) (segs : list (string * string))
    (tail : string) :
  segmented s segs tail ->
  forall text last_end out,
    Str.drop last_end text = s ->
    last_end <= Str.size text ->
    strip_loop text last_end out
    = out +:+ concat_texts (fst <$> segs) +:+ tail.
Proof.
  induction 1 as [tail Hno|pre body rest segs tail Hpre Hbody Hseg IH];
    intros text last_end out Hdrop Hle; rewrite strip_loop_eq, Hdrop.
  - apply regex_search_script_None in Hno. now rewrite Hno.
  - rewrite (regex_search_script_first _ _ _ Hpre Hbody).
    cbn [position mlength group1].
    assert (Hsize : Str.size text - last_end
                    = Str.size pre + (Str.size OPEN_TAG + (Str.size body
                        + (Str.size CLOSE_TAG + Str.size rest)))).
    { rewrite <- Str.size_drop, Hdrop. now rewrite !Str.size_app. }
    rewrite IH.
    + unfold Str.substr. rewrite Hdrop, Str.take_app_size.
      cbn [fmap list_fmap concat_texts foldr fst].
      now rewrite !Str.app_assoc.
    + replace (last_end + Str.size pre
               + (Str.size OPEN_TAG + Str.size body + Str.size CLOSE_TAG))
        with (last_end + (Str.size pre + (Str.size OPEN_TAG
                + (Str.size body + (Str.size CLOSE_TAG + 0))))) by lia.
      rewrite <- Str.drop_drop, Hdrop.
      now rewrite !Str.drop_app_size_plus.
    + lia.
Qed.

Lemma strip_segmented (text : string) (segs : list (string * string))
    (tail : string) :
  segmented text segs tail ->
  strip_idascript_blocks text = concat_texts (fst <$> segs) +:+ tail.
Proof.
  intros Hseg. unfold strip_idascript_blocks.
  rewrite (strip_loop_segmented _ _ _ Hseg text 0 "") by (auto with arith).
  apply Str.app_nil_l.
Qed.

Lemma concat_texts_app (a b : list string) :
  concat_texts (a ++ b) = concat_texts a +:+ concat_texts b.
Proof.
  induction a as [|x a IH]; [now rewrite Str.app_nil_l|].
  cbn [app concat_texts foldr]. fold (concat_texts (a ++ b)).
  fold (concat_texts a). now rewrite IH, Str.app_assoc.
Qed.

Lemma strip_extract (text : string) :
  strip_idascript_blocks text
  = match extract_idascript_blocks text with
    | [] => text
    | blocks => concat_texts (preceding_text <$> blocks)
    end.
Proof.
  destruct (segmented_total text) as (segs & tail & Hseg).
  rewrite (strip_segmented _ _ _ Hseg), (extract_segmented _ _ _ Hseg).
  destruct segs as [|seg segs].
  - inversion Hseg; subst. now rewrite Str.app_nil_l.
  - set (l := seg :: segs).
    assert (Hl : preceding_text <$> (block_of <$> l) = fst <$> l).
    { rewrite <- list_fmap_compose. now apply list_fmap_ext. }
    destruct (bool_decide (tail = "")) eqn:Ht.
    + apply bool_decide_eq_true in Ht. subst tail.
      rewrite app_nil_r, Str.app_nil_r.
      change (map block_of l) with (block_of <$> l). rewrite <- Hl.
      now destruct (block_of <$> l).
    + change (map block_of l) with (block_of <$> l).
      assert (Hc : concat_texts (fst <$> l) +:+ tail
                   = concat_texts (preceding_text <$>
                       ((block_of <$> l)
                        ++ [ {| code := ""; preceding_text := tail |} ]))).
      { rewrite fmap_app, concat_texts_app, Hl. cbn. now rewrite Str.app_nil_r. }
      rewrite Hc. subst l. reflexivity.
Qed.

(** Without an opening marker nothing is extracted and nothing is
    stripped. *)
Lemma no_open_tag (text : string) :
  has_idascript_blocks text = false ->
  extract_idascript_blocks text = [] /\ strip_idascript_blocks text = text.
Proof.
  unfold has_idascript_blocks. intros H.
  assert (Hnone : regex_search_script text = None).
  { unfold regex_search_script. now destruct (Str.find OPEN_TAG text). }
  apply regex_search_script_None in Hnone.
  pose proof (segmented_tail _ Hnone) as Hseg.
  rewrite (extract_segmented _ _ _ Hseg), (strip_segmented _ _ _ Hseg).
  split; [reflexivity|apply Str.app_nil_l].
Qed.

Lemma extract_code_trimmed (text : string) :
  Forall (fun block => Str.trim (code block) = code block)
         (extract_idascript_blocks text).
Proof.
  destruct (segmented_total text) as (segs & tail & Hseg).
  rewrite (extract_segmented _ _ _ Hseg). apply Forall_app. split.
  - clear Hseg. induction segs as [|seg segs' IH]; constructor;
      [apply trim_trim|exact IH].
  - destruct segs; [constructor|].
    destruct (bool_decide (tail = "")); repeat constructor.
Qed.

End StripFacts.

Section ParserInvariants.
Import Types Parser.

Variable json_parse : string -> option Json.t.

(** A property of the parser state that does not depend on the line
    buffer and that every event preserves holds after [feed] and after
    [finish]. *)
Section Preserved.

Variable P : Impl -> Prop.
Hypothesis P_buffer : forall b st, P (with_buffer b st) <-> P st.
Hypothesis P_event : forall st e, P st -> P (process_event json_parse st e).

Lemma apply_events_preserved (evs : list StreamEvent) (st : Impl) :
  P st -> P (apply_events json_parse st evs).
Proof.
  revert st. induction evs as [|e evs IH]; intros st H; [exact H|].
  apply IH, P_event, H.
Qed.

Lemma feed_preserved (st : Impl) (data : string) :
  P st -> P (feed json_parse st data).1.
Proof.
  intros H. apply (P_buffer ""). rewrite feed_events.
  apply P_buffer. now apply apply_events_preserved.
Qed.

Lemma finish_preserved (st : Impl) :
  P st -> P (finish json_parse st).1.
Proof.
  intros H. rewrite finish_events.
  apply P_buffer. now apply apply_events_preserved.
Qed.

End Preserved.

(** The block array and the fragment array have the same size. *)
Definition balanced (st : Impl) : Prop :=
  length (content_blocks st) = length (partial_jsons st).

Lemma grow_length (n : nat) (blocks : list ContentBlock) (pjs : list string) :
  length (grow n blocks pjs).1 = length blocks + n
  /\ length (grow n blocks pjs).2 = length pjs + n.
Proof.
  revert blocks pjs. induction n as [|n IH]; intros blocks pjs; cbn [grow].
  - cbn. lia.
  - destruct (IH (blocks ++ [TextContent ""]) (pjs ++ [""])) as [-> ->].
    rewrite !length_app. cbn. lia.
Qed.

Lemma process_event_balanced (st : Impl) (e : StreamEvent) :
  balanced st -> balanced (process_event json_parse st e).
Proof.
  unfold balanced, process_event. intros H.
  destruct (ev_type e); try exact H.
  - destruct (ev_message e); exact H.
  - pose proof (grow_length
        (Z.to_nat (to_size_t (ev_content_block_index e) + 1
                   - Z.of_nat (length (content_blocks st))))
        (content_blocks st) (partial_jsons st)) as [H1 H2].
    destruct (grow _ _ _) as [blocks pjs]. cbn [fst snd] in *.
    destruct (ev_content_block e); cbn; rewrite ?length_insert; lia.
  - repeat (match goal with
            | |- context [match ?x with _ => _ end] => destruct x
            | |- context [if ?x then _ else _] => destruct x
            end; try exact H);
      cbn; now rewrite ?length_insert, ?length_alter.
  - repeat (match goal with
            | |- context [match ?x with _ => _ end] => destruct x
            | |- context [if ?x then _ else _] => destruct x
            end; try exact H);
      cbn; now rewrite ?length_insert.
  - destruct st as [b [r|] bs pjs c h m];
      destruct (ev_stop_reason e), (ev_usage e); exact H.
  - destruct (response st); exact H.
Qed.

Lemma after_balanced (calls : list Call) :
  balanced (after json_parse calls).
Proof.
  unfold after. induction calls as [|c calls IH] using rev_ind; [reflexivity|].
  rewrite foldl_app. cbn [foldl]. destruct c as [data| |]; cbn [call].
  - apply feed_preserved; [easy|apply process_event_balanced|exact IH].
  - apply finish_preserved; [easy|apply process_event_balanced|exact IH].
  - reflexivity.
Qed.

(** Case analysis on the event and on what of the state its handling
    depends on. *)
Ltac event_split st e :=
  let r := fresh "r" in
  destruct st as [? r ? ? ? ? ?];
  unfold process_event; simpl;
  destruct (ev_type e) eqn:?, (ev_message e) eqn:?,
    (ev_stop_reason e) eqn:?, (ev_usage e) eqn:?, r; simpl;
  repeat (match goal with
          | |- context [match ?x with _ => _ end] => destruct x eqn:?
          | |- context [if ?x then _ else _] => destruct x eqn:?
          end; simpl).

(** What [feed] and [finish] never undo: an error, the completion, the
    presence of a response. *)
Definition settled (st st' : Impl) : Prop :=
  (has_error st = true -> has_error st' = true)
  /\ (complete st = true -> complete st' = true)
  /\ (is_Some (response st) -> is_Some (response st')).

Lemma process_event_has_error (st : Impl) (e : StreamEvent) :
  has_error (process_event json_parse st e) = true
  <-> has_error st = true \/ ev_type e = Error.
Proof.
  event_split st e; (split; [intros H|intros [H|H]]);
    try discriminate; eauto.
Qed.

Lemma feed_finish_settled (st : Impl) :
  (forall data, settled st (feed json_parse st data).1)
  /\ settled st (finish json_parse st).1.
Proof.
  split; [intros data|]; repeat split; intros H.
  - apply (feed_preserved (fun s => has_error s = true)); try easy.
    intros s e Hs. apply process_event_has_error. now left.
  - apply (feed_preserved (fun s => complete s = true)); try easy.
    intros s e Hs. apply process_event_complete. now left.
  - apply (feed_preserved (fun s => is_Some (response s))); try easy.
    intros s e Hs. apply process_event_response. now left.
  - apply (finish_preserved (fun s => has_error s = true)); try easy.
    intros s e Hs. apply process_event_has_error. now left.
  - apply (finish_preserved (fun s => complete s = true)); try easy.
    intros s e Hs. apply process_event_complete. now left.
  - apply (finish_preserved (fun s => is_Some (response s))); try easy.
    intros s e Hs. apply process_event_response. now left.
Qed.

(** After [feed] the buffer holds no line feed. *)
Lemma feed_no_newline (st : Impl) (data : string) :
  Str.find_char Str.LF (buffer (feed json_parse st data).1) = None.
Proof. apply feed_loop_no_newline. Qed.

(** [feed] with no data on a buffer without a line feed does nothing. *)
Lemma feed_empty (st : Impl) :
  Str.find_char Str.LF (buffer st) = None ->
  feed json_parse st "" = (st, []).
Proof.
  intros H. unfold feed. rewrite Str.app_nil_r, with_buffer_id.
  now rewrite feed_loop_eq, H.
Qed.

Lemma feed_all_concat (chunks : list string) (st : Impl) :
  Str.find_char Str.LF (buffer st) = None ->
  feed_all json_parse st chunks
  = feed json_parse st (concat_texts chunks).
Proof.
  revert st. induction chunks as [|chunk chunks IH]; intros st Hst.
  - cbn. now rewrite feed_empty.
  - cbn [feed_all concat_texts foldr]. fold (concat_texts chunks).
    rewrite (feed_feed json_parse st chunk (concat_texts chunks)).
    now rewrite IH by apply feed_no_newline.
Qed.

Lemma run_concat (chunks : list string) :
  run json_parse chunks = run json_parse [concat_texts chunks].
Proof.
  unfold run. rewrite feed_all_concat by reflexivity.
  cbn [feed_all fst snd]. now rewrite app_nil_r.
Qed.

(** [finish] leaves the buffer empty, and a second [finish] does
    nothing. *)
Lemma finish_buffer (st : Impl) : buffer (finish json_parse st).1 = "".
Proof.
  unfold finish. destruct (negb _) eqn:Hb; cbn [fst]; [reflexivity|].
  now apply negb_false_iff, bool_decide_eq_true in Hb.
Qed.

Lemma finish_finish (st : Impl) :
  finish json_parse (finish json_parse st).1
  = ((finish json_parse st).1, []).
Proof.
  unfold finish at 1. now rewrite finish_buffer.
Qed.

End ParserInvariants.

Section WireMembers.
Import Types Wire Names.

Lemma from_json_to_json_content (c d : ContentBlock) :
  from_json_content (to_json_content c) d = Some c.
Proof.
  destruct c as [text|id name input|tool_use_id content [|]|thinking];
    vm_compute; reflexivity.
Qed.

Lemma names_round_trip :
  (forall reason, stop_reason_from_str (stop_reason_str reason) = reason)
  /\ (forall role, message_role_from_str (message_role_str role) = role)
  /\ (forall type, auth_type_from_str (auth_type_str type) = type).
Proof. repeat split; intros []; reflexivity. Qed.

(** A JSON object. *)
Definition is_object (j : Json.t) : Prop := exists m, j = Json.Object m.

Lemma is_object_set (k : string) (v j : Json.t) :
  is_object j -> is_object (Json.set k v j).
Proof. intros [m ->]. cbn. now eexists. Qed.

Lemma is_object_push_back_at (k : string) (v j : Json.t) :
  is_object j -> is_object (Json.push_back_at k v j).
Proof.
  intros [m ->]. cbn. destruct (m !! k) as [[]|]; now eexists.
Qed.

Lemma is_object_foldl_push_back_at {A : Type} (f : A -> Json.t) (k : string)
    (l : list A) (j : Json.t) :
  is_object j ->
  is_object (foldl (fun j x => Json.push_back_at k (f x) j) j l).
Proof.
  revert j. induction l as [|x l IH]; intros j Hj; [exact Hj|].
  cbn [foldl]. now apply IH, is_object_push_back_at.
Qed.

Lemma member_set (k : string) (v j : Json.t) :
  is_object j -> Json.member (Json.set k v j) k = Some v.
Proof. intros [m ->]. cbn. apply lookup_insert_eq. Qed.

Lemma member_push_back_at (k : string) (v j : Json.t) (acc : list Json.t) :
  Json.member j k = Some (Json.Array acc) ->
  Json.member (Json.push_back_at k v j) k = Some (Json.Array (acc ++ [v])).
Proof.
  destruct j as [| | | | | |m]; try discriminate. cbn. intros ->. cbn.
  apply lookup_insert_eq.
Qed.

Lemma member_foldl_push_back_at {A : Type} (f : A -> Json.t) (k : string)
    (l : list A) (j : Json.t) (acc : list Json.t) :
  Json.member j k = Some (Json.Array acc) ->
  Json.member (foldl (fun j x => Json.push_back_at k (f x) j) j l) k
  = Some (Json.Array (acc ++ (f <$> l))).
Proof.
  revert j acc. induction l as [|x l IH]; intros j acc Hj.
  - cbn. now rewrite app_nil_r.
  - cbn [foldl]. rewrite (IH _ (acc ++ [f x])).
    + now rewrite <- app_assoc.
    + now apply member_push_back_at.
Qed.

Lemma to_json_message_members (m : ClaudeMessage) :
  Json.member (to_json_message m) "role"
  = Some (Json.Str (message_role_str (msg_role m)))
  /\ Json.member (to_json_message m) "content"
     = Some (Json.Array (to_json_content <$> msg_content m)).
Proof.
  unfold to_json_message. split.
  - skip_other_keys. reflexivity.
  - now rewrite (member_foldl_push_back_at _ _ _ _ []).
Qed.

Lemma is_object_object (l : list (string * Json.t)) :
  is_object (Json.object l).
Proof. now eexists. Qed.

Lemma to_json_request_members (r : CreateMessageRequest) :
  let j := to_json_request r in
  Json.member j "model" = Some (Json.Str (req_model r))
  /\ Json.member j "max_tokens" = Some (Json.Int (req_max_tokens r))
  /\ Json.member j "messages"
     = Some (Json.Array (to_json_message <$> req_messages r))
  /\ (req_system r <> "" ->
      Json.member j "system" = Some (Json.Str (req_system r)))
  /\ (req_tools r <> [] ->
      Json.member j "tools" = Some (Json.Array (to_json_tool <$> req_tools r)))
  /\ (forall temperature,
        req_temperature r = Some temperature ->
        Json.member j "temperature" = Some (Json.Float temperature))
  /\ (req_stream r = true -> Json.member j "stream" = Some (Json.Bool true))
  /\ (forall cfg,
        req_thinking r = Some cfg -> enabled cfg = true ->
        Json.member j "thinking"
        = Some (Json.object [("type", Json.Str "enabled");
                             ("budget_tokens", Json.Int (budget_tokens cfg))])).
Proof.
  unfold to_json_request. cbv zeta.
  set (j0 := Json.object _).
  set (j1 := foldl _ j0 (req_messages r)).
  assert (H1 : is_object j1)
    by apply is_object_foldl_push_back_at, is_object_object.
  set (j2 := if negb _ then _ else j1).
  assert (H2 : is_object j2)
    by (subst j2; destruct (negb _); [now apply is_object_set|exact H1]).
  set (j3 := match req_tools r with [] => j2 | _ => _ end).
  assert (H3 : is_object j3).
  { subst j3. destruct (req_tools r); [exact H2|].
    now apply is_object_foldl_push_back_at, is_object_set. }
  set (j4 := match req_temperature r with Some _ => _ | None => j3 end).
  assert (H4 : is_object j4)
    by (subst j4; destruct (req_temperature r); [now apply is_object_set|exact H3]).
  set (j5 := if req_stream r then _ else j4).
  assert (H5 : is_object j5)
    by (subst j5; destruct (req_stream r); [now apply is_object_set|exact H4]).
  assert (Hmodel : Json.member j1 "model" = Some (Json.Str (req_model r))).
  { subst j1 j0. skip_other_keys. reflexivity. }
  assert (Hmax : Json.member j1 "max_tokens"
                 = Some (Json.Int (req_max_tokens r))).
  { subst j1 j0. skip_other_keys. reflexivity. }
  assert (Hmsgs : Json.member j1 "messages"
                  = Some (Json.Array (to_json_message <$> req_messages r))).
  { subst j1 j0. now rewrite (member_foldl_push_back_at _ _ _ _ []). }
  assert (Hsys : req_system r <> "" ->
                 Json.member j2 "system" = Some (Json.Str (req_system r))).
  { intros Hne. subst j2. rewrite bool_decide_eq_false_2 by exact Hne.
    now apply member_set. }
  assert (Htools : req_tools r <> [] ->
                   Json.member j3 "tools"
                   = Some (Json.Array (to_json_tool <$> req_tools r))).
  { intros Hne. subst j3. destruct (req_tools r) as [|t ts] eqn:Ht; [easy|].
    rewrite (member_foldl_push_back_at _ _ _ _ []); [reflexivity|].
    now apply member_set. }
  assert (Htemp : forall temperature,
            req_temperature r = Some temperature ->
            Json.member j4 "temperature" = Some (Json.Float temperature)).
  { intros t Ht. subst j4. rewrite Ht. now apply member_set. }
  assert (Hstream : req_stream r = true ->
                    Json.member j5 "stream" = Some (Json.Bool true)).
  { intros Hs. subst j5. rewrite Hs. now apply member_set. }
  repeat split.
  - destruct (req_thinking r) as [[[] ?]|]; cbn [enabled]; subst j5 j4 j3 j2;
      destruct (req_stream r), (req_temperature r), (req_tools r), (negb _);
      skip_other_keys; exact Hmodel.
  - destruct (req_thinking r) as [[[] ?]|]; cbn [enabled]; subst j5 j4 j3 j2;
      destruct (req_stream r), (req_temperature r), (req_tools r), (negb _);
      skip_other_keys; exact Hmax.
  - destruct (req_thinking r) as [[[] ?]|]; cbn [enabled]; subst j5 j4 j3 j2;
      destruct (req_stream r), (req_temperature r), (req_tools r), (negb _);
      skip_other_keys; exact Hmsgs.
  - intros Hne. specialize (Hsys Hne).
    destruct (req_thinking r) as [[[] ?]|]; cbn [enabled]; subst j5 j4 j3;
      destruct (req_stream r), (req_temperature r), (req_tools r);
      skip_other_keys; exact Hsys.
  - intros Hne. specialize (Htools Hne).
    destruct (req_thinking r) as [[[] ?]|]; cbn [enabled]; subst j5 j4;
      destruct (req_stream r), (req_temperature r);
      skip_other_keys; exact Htools.
  - intros t Ht. specialize (Htemp t Ht).
    destruct (req_thinking r) as [[[] ?]|]; cbn [enabled]; subst j5;
      destruct (req_stream r); skip_other_keys; exact Htemp.
  - intros Hs. specialize (Hstream Hs).
    destruct (req_thinking r) as [[[] ?]|]; cbn [enabled];
      skip_other_keys; exact Hstream.
  - intros cfg -> ->. now apply member_set.
Qed.

End WireMembers.

Section ClientErrors.
Import Types Parser Client.

Variable json_parse : string -> option Json.t.

(** The names of the event types the decoder knows. *)
Definition known_event_types : list string :=
  ["message_start"; "content_block_start"; "content_block_delta";
   "content_block_stop"; "message_delta"; "message_stop"; "ping"].

Lemma stream_event_type_unknown (s : string) :
  s ∉ known_event_types -> stream_event_type_from_str s = Error.
Proof.
  intros Hs. unfold stream_event_type_from_str.
  repeat match goal with
         | |- context [bool_decide (s = ?x)] =>
             destruct (bool_decide_reflect (s = x)) as [->|_];
             [exfalso; apply Hs; unfold known_event_types;
              repeat first [apply list_elem_of_here | apply list_elem_of_further]|]
         end.
  reflexivity.
Qed.

Lemma from_json_event_unknown (j : Json.t) (type_str : string) :
  Json.value_string j "type" "" = Some type_str ->
  type_str ∉ known_event_types ->
  Json.contains j "error" = false ->
  Wire.from_json_event j = Some (event_of_type Error).
Proof.
  intros Hty Hun Herr. unfold Wire.from_json_event.
  rewrite Hty. cbn [mbind option_bind].
  rewrite (stream_event_type_unknown _ Hun). now rewrite Herr.
Qed.

(** The error flag after events: set before, or set by an error
    event. *)
Lemma apply_events_has_error (evs : list StreamEvent) (st : Impl) :
  has_error (apply_events json_parse st evs) = true
  <-> has_error st = true \/ Exists (fun e => ev_type e = Error) evs.
Proof.
  revert st; induction evs as [|e evs IH]; intros st; simpl.
  - rewrite Exists_nil. tauto.
  - rewrite IH, process_event_has_error, Exists_cons. tauto.
Qed.

Lemma has_error_with_buffer (b : string) (st : Impl) :
  has_error (with_buffer b st) = has_error st.
Proof. reflexivity. Qed.

(** The parser state at the end of a streaming call, as the events
    delivered determine it. *)
Lemma streaming_has_error (st : Impl) (delivered : list string) :
  let fed := feed_all json_parse st delivered in
  let finished := finish json_parse fed.1 in
  has_error finished.1 = true
  <-> has_error st = true
      \/ Exists (fun e => ev_type e = Error) (fed.2 ++ finished.2).
Proof.
  cbv zeta.
  set (fed := feed_all json_parse st delivered).
  rewrite finish_events, has_error_with_buffer, apply_events_has_error.
  rewrite <- (has_error_with_buffer "" fed.1). subst fed.
  rewrite feed_all_events, has_error_with_buffer, apply_events_has_error.
  rewrite Exists_app. tauto.
Qed.

Lemma send_message_streaming_error (c : ClaudeClient)
    (request : CreateMessageRequest) (transfer : Transfer) :
  let sr := send_message_streaming json_parse c request transfer in
  Exists (fun e => ev_type e = Error) (sr_streamed sr ++ sr_flushed sr) ->
  sr_response sr = None /\ total_usage (sr_client sr) = total_usage c.
Proof.
  cbv zeta. unfold send_message_streaming.
  destruct (negb (is_configured c)); [now split|].
  set (delivered := match cancel_after transfer with
                    | Some n => take n (chunks transfer)
                    | None => chunks transfer
                    end).
  pose proof (streaming_has_error new_parser delivered) as Herr.
  cbv zeta in Herr.
  destruct (has_error _) eqn:Hh.
  - intros _. cbn [sr_response sr_client]. split; [reflexivity|].
    now destruct (cancel_after transfer).
  - cbn [sr_streamed sr_flushed]. intros Hex.
    destruct Herr as [_ Herr]. discriminate Herr. now right.
Qed.

(** A call that returns no response leaves the usage total alone. *)
Lemma perform_None (c : ClaudeClient) (call : Call) :
  (perform json_parse c call).1 = None ->
  total_usage (perform json_parse c call).2 = total_usage c.
Proof.
  destruct call as [request transfer|request reply]; cbn [perform fst snd].
  - unfold send_message_streaming.
    repeat (match goal with
            | |- context [if ?x then _ else _] => destruct x
            | |- context [match ?x with _ => _ end] => destruct x eqn:?
            end; cbn [sr_response sr_client total_usage with_cancelled
                      with_total_usage]);
      try discriminate; reflexivity.
  - unfold send_message.
    repeat (match goal with
            | |- context [if ?x then _ else _] => destruct x
            | |- context [match ?x with _ => _ end] => destruct x eqn:?
            end; cbn [fst snd]);
      try discriminate; reflexivity.
Qed.

(** An unconfigured client does nothing. *)
Lemma unconfigured_client (c : ClaudeClient) (request : CreateMessageRequest) :
  is_configured c = false ->
  (forall transfer,
     send_message_streaming json_parse c request transfer
     = mkStreamResult None c None [] [])
  /\ (forall reply, send_message json_parse c request reply = (None, c)).
Proof.
  intros H. unfold send_message_streaming, send_message. now rewrite H.
Qed.

(** The body that a streaming call posts. *)
Lemma send_message_streaming_body (c : ClaudeClient)
    (request : CreateMessageRequest) (transfer : Transfer) (body : Json.t) :
  sr_posted (send_message_streaming json_parse c request transfer)
  = Some body ->
  body = Wire.to_json_request (with_stream true request)
  /\ Json.member body "stream" = Some (Json.Bool true).
Proof.
  unfold send_message_streaming.
  destruct (negb (is_configured c)); [discriminate|].
  assert (Hb : forall x : StreamResult,
            sr_posted x = Some (Wire.to_json_request (with_stream true request)) ->
            sr_posted x = Some body ->
            body = Wire.to_json_request (with_stream true request)
            /\ Json.member body "stream" = Some (Json.Bool true)).
  { intros x Hx Hx'. rewrite Hx in Hx'. injection Hx' as <-.
    split; [reflexivity|].
    now apply (to_json_request_members (with_stream true request)). }
  destruct (has_error _); apply Hb; reflexivity.
Qed.

End ClientErrors.

Section CoreOutcomes.
Import Types Core.

Variable json_parse : string -> option Json.t.

Lemma transport_calls_cons (e : Effect) (trace : list Effect) :
  transport_calls (e :: trace)
  = (if is_transport_call e then 1 else 0) + transport_calls trace.
Proof.
  unfold transport_calls. rewrite filter_cons.
  destruct (is_transport_call e); destruct (decide _); try easy.
Qed.

Lemma transport_calls_logged (core : Impl) (e : Effect) :
  is_transport_call e = false -> transport_calls (logged core e) = 0.
Proof.
  intros He. unfold logged. destruct (history core); [|reflexivity].
  now rewrite transport_calls_cons, He.
Qed.

Lemma execute_script_no_transport (core : Impl) (code : string) :
  transport_calls (execute_script core code).2 = 0.
Proof.
  unfold execute_script. destruct (script_executor core); [|reflexivity].
  destruct (script_success _); cbn [snd];
    rewrite transport_calls_app, transport_calls_logged by reflexivity;
    reflexivity.
Qed.

(** [process_scripts] makes no transport call. *)
Lemma process_scripts_no_transport (core : Impl) (text : string) :
  transport_calls (script_effects (process_scripts core text)) = 0.
Proof.
  unfold process_scripts. set (step := fun acc block => _).
  assert (Hgen : forall blocks acc,
            transport_calls (script_effects (foldl step acc blocks))
            = transport_calls (script_effects acc)).
  { induction blocks as [|block blocks IH]; intros acc; [reflexivity|].
    cbn [foldl]. rewrite IH. subst step. cbn beta.
    destruct (negb _); [|reflexivity]. cbn [script_effects].
    rewrite transport_calls_app, execute_script_no_transport. lia. }
  now rewrite Hgen.
Qed.

(** A result that reports a failure: cancelled, or an error with a
    message; no response, no turns, no cost. *)
Definition failure (res : ProcessResult) : Prop :=
  success res = false /\ res_response res = "" /\ turns_used res = 0%Z
  /\ cost res = None
  /\ (res_cancelled res = true /\ error res = ""
      \/ res_cancelled res = false /\ error res <> "").

(** What one turn of the network mode guarantees. *)
Definition api_step_ok (core : Impl) (s : Step) : Prop :=
  match s with
  | Continue core' _ | Break core' _ =>
      conversation core `prefix_of` conversation core'
  | Return res core' =>
      state core' = Idle /\ conversation core' = conversation core
      /\ failure res
  end.

Lemma api_turn_ok (core : Impl) (c : Client.ClaudeClient) (turn : Z)
    (full : string) (transfer : Client.Transfer) :
  let r := api_turn json_parse core c turn full transfer in
  transport_calls r.2 <= 1 /\ api_step_ok core r.1.
Proof.
  cbv zeta. unfold api_turn. cbv zeta.
  set (sr := Client.send_message_streaming json_parse c (build_request core)
               transfer).
  set (cancel_arrived := bool_decide (is_Some (Client.cancel_after transfer))).
  set (streamed := stream_callbacks false true (Client.sr_streamed sr)).
  set (flushed := stream_callbacks cancel_arrived streamed.1
                    (Client.sr_flushed sr)).
  set (core1 := if cancel_arrived then _ else _).
  set (call := _ ++ _ ++ _ ++ _).
  assert (Hcall : transport_calls call <= 1).
  { subst call. rewrite !transport_calls_app.
    destruct (stream_callbacks_quiet false true (Client.sr_streamed sr))
      as [H1 _].
    destruct (stream_callbacks_quiet cancel_arrived streamed.1
                (Client.sr_flushed sr)) as [H2 _].
    fold streamed in H1. fold flushed in H2. rewrite H1, H2.
    destruct (Client.sr_posted sr); rewrite !transport_calls_cons;
      cbn [is_transport_call]; change (transport_calls []) with 0; lia. }
  assert (Hconv : conversation core1 = conversation core)
    by (subst core1; now destruct cancel_arrived).
  destruct (Client.sr_response sr) as [response|].
  - set (core2 := with_total_usage _ _).
    assert (Hlog : forall e, is_transport_call e = false ->
                     transport_calls (call ++ logged
                       (with_conversation
                          (conversation core1
                           ++ [mkClaudeMessage Assistant (resp_content response)])
                          core1) e) <= 1).
    { intros e He. rewrite transport_calls_app, transport_calls_logged by exact He.
      lia. }
    assert (Hpre : conversation core `prefix_of` conversation core2).
    { subst core2. cbn [conversation with_total_usage with_conversation].
      rewrite Hconv. now apply prefix_app_r. }
    destruct (Script.has_idascript_blocks _).
    + destruct (scripts _) eqn:Hs; cbn [fst snd api_step_ok].
      * split; [|exact Hpre].
        rewrite app_assoc, transport_calls_app, process_scripts_no_transport.
        rewrite Nat.add_0_r. now apply Hlog.
      * split.
        -- rewrite app_assoc, transport_calls_app, process_scripts_no_transport.
           rewrite Nat.add_0_r. now apply Hlog.
        -- cbn [conversation with_conversation].
           etransitivity; [exact Hpre|]. now apply prefix_app_r.
    + cbn [fst snd api_step_ok]. split; [now apply Hlog|exact Hpre].
  - cbn [fst snd api_step_ok]. split; [exact Hcall|].
    split; [reflexivity|]. split; [exact Hconv|].
    unfold failure. destruct (cancelled core1); cbn; intuition congruence.
Qed.

(** A result that reports a success after a number of turns between
    [lo] and [hi]. *)
Definition succeeded (lo hi : Z) (res : ProcessResult) : Prop :=
  success res = true /\ error res = "" /\ res_cancelled res = false
  /\ (lo <= turns_used res <= hi)%Z.

(** What a run of a loop guarantees: at most [budget] transport calls
    (when they are counted, see [callbacks_only]), an idle engine whose
    conversation extends the one before, and a result that is a success
    or a failure. *)
Definition outcome_ok (counted : Prop) (budget : nat) (lo hi : Z)
    (core : Impl) (r : ProcessResult * Impl * list Effect) : Prop :=
  (counted -> transport_calls r.2 <= budget)
  /\ state r.1.2 = Idle
  /\ conversation core `prefix_of` conversation r.1.2
  /\ (succeeded lo hi r.1.1 \/ failure r.1.1).

Lemma api_finish_ok (counted : Prop) (core : Impl) (turn : Z)
    (full : string) :
  outcome_ok counted 0 turn turn core (api_finish core turn full).
Proof.
  unfold outcome_ok, api_finish, succeeded. cbn [fst snd].
  repeat split; try reflexivity; try lia. left. repeat split; cbn; lia.
Qed.

Lemma outcome_ok_weaken (counted : Prop) (budget budget' : nat)
    (lo lo' hi hi' : Z) (core : Impl)
    (r : ProcessResult * Impl * list Effect) :
  budget <= budget' -> (lo' <= lo)%Z -> (hi <= hi')%Z ->
  outcome_ok counted budget lo hi core r ->
  outcome_ok counted budget' lo' hi' core r.
Proof.
  unfold outcome_ok, succeeded. intros Hb Hlo Hhi (H1 & H2 & H3 & H4).
  repeat split; try assumption; [intros Hc; specialize (H1 Hc); lia|].
  destruct H4 as [(? & ? & ? & ?)|H4]; [left|now right].
  repeat split; try assumption; lia.
Qed.

(** A step followed by the rest of the run. *)
Lemma outcome_ok_step (counted : Prop) (budget : nat) (lo hi : Z)
    (core core' : Impl) (trace : list Effect)
    (rest : ProcessResult * Impl * list Effect) :
  (counted -> transport_calls trace <= 1) ->
  conversation core `prefix_of` conversation core' ->
  outcome_ok counted budget lo hi core' rest ->
  outcome_ok counted (S budget) lo hi core (rest.1, trace ++ rest.2).
Proof.
  unfold outcome_ok. intros Ht Hp (H1 & H2 & H3 & H4). cbn [fst snd].
  rewrite transport_calls_app. repeat split; try assumption.
  - intros Hc. specialize (Ht Hc). specialize (H1 Hc). lia.
  - etransitivity; eassumption.
Qed.

Lemma api_loop_ok (counted : Prop) (n : nat) :
  forall limit transfers core turn full,
    Z.to_nat (limit - turn) = n ->
    outcome_ok counted n turn (Z.max turn limit) core
      (api_loop json_parse limit transfers core turn full).
Proof.
  induction n as [|n IH]; intros limit transfers core turn full Hn;
    rewrite api_loop_eq; destruct (Z_lt_dec turn limit) as [Hlt|Hge];
    try lia.
  - eapply outcome_ok_weaken; [| | |apply api_finish_ok]; lia.
  - assert (Hfin : outcome_ok counted (S n) turn (Z.max turn limit) core
                     (api_finish core turn full))
      by (eapply outcome_ok_weaken; [| | |apply api_finish_ok]; lia).
    destruct (cancelled core); [exact Hfin|].
    destruct (client core) as [c|]; [|exact Hfin].
    cbv zeta.
    destruct (api_turn_ok core c (turn + 1) full (transfers (turn + 1)%Z))
      as [Hcalls Hstep].
    destruct (api_turn json_parse core c (turn + 1) full _).1
      as [core' full'|core' full'|res core'] eqn:Hs;
      cbn [api_step_ok] in Hstep.
    + apply (outcome_ok_step _ _ _ _ _ core'); [auto|exact Hstep|].
      eapply outcome_ok_weaken; [| | |apply IH]; lia.
    + apply (outcome_ok_step _ _ _ _ _ core'); [auto|exact Hstep|].
      eapply outcome_ok_weaken; [| | |apply api_finish_ok]; lia.
    + destruct Hstep as (Hst & Hconv & Hfail).
      unfold outcome_ok. cbn [fst snd].
      repeat split; [intros _; lia|exact Hst| |now right].
      now rewrite Hconv.
Qed.

(** *** The command-line mode *)

(** The callbacks of the runs of the command-line agent hold no
    transport call. *)
Definition callbacks_only (runs : Z -> CliRun) : Prop :=
  forall turn, transport_calls (cli_callbacks (runs turn)) = 0.

Definition cli_step_ok (core : Impl) (l : CliLoop) (s : CliStep) : Prop :=
  match s with
  | CliContinue core' l' | CliBreak core' l' =>
      conversation core' = conversation core
      /\ total_turns l' = (total_turns l + 1)%Z
  | CliReturn res core' =>
      state core' = Idle /\ conversation core' = conversation core
      /\ failure res
  end.

Lemma conversation_request_cancel (core : Impl) :
  conversation (request_cancel core) = conversation core.
Proof. unfold request_cancel. cbn. now destruct (client core). Qed.

Lemma cli_turn_ok (counted : Prop) (core : Impl) (l : CliLoop) (turn : Z)
    (run : CliRun) :
  (counted -> transport_calls (cli_callbacks run) = 0) ->
  let r := cli_turn core l turn run in
  (counted -> transport_calls r.2 <= 1) /\ cli_step_ok core l r.1.
Proof.
  intros Hrun. cbv zeta. unfold cli_turn. cbv zeta.
  set (call := _ ++ cli_callbacks run).
  assert (Hcall : counted -> transport_calls call = 1).
  { intros Hc. subst call.
    rewrite transport_calls_app, (Hrun Hc), !transport_calls_cons.
    reflexivity. }
  set (core1 := if cli_cancel run then request_cancel core else core).
  assert (Hconv : conversation core1 = conversation core).
  { subst core1. destruct (cli_cancel run); [|reflexivity].
    apply conversation_request_cancel. }
  destruct (negb (bool_decide (error_text (cli_result run) = ""))) eqn:Herr.
  { cbn [fst snd cli_step_ok]. split.
    - intros Hc. rewrite transport_calls_app, (Hcall Hc), transport_calls_cons.
      cbn. lia.
    - split; [reflexivity|]. split; [exact Hconv|].
      apply negb_true_iff, bool_decide_eq_false in Herr.
      unfold failure. cbn. intuition congruence. }
  destruct (negb (got_response (cli_result run))).
  { cbn [fst snd cli_step_ok]. split; [intros Hc; specialize (Hcall Hc); lia|].
    split; [reflexivity|]. split; [exact Hconv|].
    unfold failure. cbn. intuition congruence. }
  destruct (Script.has_idascript_blocks _).
  - pose proof (process_scripts_no_transport core1
                  (response_text (cli_result run))) as Hps.
    set (ps := process_scripts core1 _) in *.
    set (sid := if negb (bool_decide (cli_session_id (cli_result run) = ""))
                then cli_session_id (cli_result run) else session_id l).
    destruct (scripts ps), (outputs ps);
      try destruct (bool_decide (sid = ""));
      cbn [fst snd cli_step_ok total_turns];
      rewrite ?transport_calls_app, ?Hps;
      (split; [intros Hc; specialize (Hcall Hc); lia|now split]).
  - cbn [fst snd cli_step_ok total_turns].
    split; [intros Hc; specialize (Hcall Hc); lia|now split].
Qed.

Lemma cli_finish_ok (counted : Prop) (core : Impl) (l : CliLoop) :
  outcome_ok counted 0 (total_turns l) (total_turns l) core
    (cli_finish core l).
Proof.
  unfold outcome_ok, cli_finish, succeeded. cbn [fst snd].
  rewrite transport_calls_app, transport_calls_logged by reflexivity.
  repeat split; try reflexivity; try (cbn; lia). left. repeat split; cbn; lia.
Qed.

Lemma cli_loop_ok (counted : Prop) (runs : Z -> CliRun) (n : nat) :
  (counted -> callbacks_only runs) ->
  forall limit core l turn,
    Z.to_nat (limit - turn) = n ->
    outcome_ok counted n (total_turns l) (total_turns l + Z.of_nat n) core
      (cli_loop limit runs core l turn).
Proof.
  intros Hruns.
  induction n as [|n IH]; intros limit core l turn Hn;
    rewrite cli_loop_eq; destruct (Z_lt_dec turn limit) as [Hlt|Hge];
    try lia.
  - eapply outcome_ok_weaken; [| | |apply cli_finish_ok]; lia.
  - assert (Hfin : outcome_ok counted (S n) (total_turns l)
                     (total_turns l + Z.of_nat (S n)) core
                     (cli_finish core l))
      by (eapply outcome_ok_weaken; [| | |apply cli_finish_ok]; lia).
    destruct (cancelled core); [exact Hfin|].
    cbv zeta.
    destruct (cli_turn_ok counted core l turn (runs turn)
                (fun Hc => Hruns Hc turn))
      as [Hcalls Hstep].
    destruct (cli_turn core l turn (runs turn)).1
      as [core' l'|core' l'|res core'] eqn:Hs;
      cbn [cli_step_ok] in Hstep.
    + destruct Hstep as [Hconv Hturns].
      apply (outcome_ok_step _ _ _ _ _ core'); [exact Hcalls|now rewrite Hconv|].
      eapply outcome_ok_weaken; [| | |apply (IH limit core' l' (turn + 1)%Z)];
        lia.
    + destruct Hstep as [Hconv Hturns].
      apply (outcome_ok_step _ _ _ _ _ core'); [exact Hcalls|now rewrite Hconv|].
      eapply outcome_ok_weaken; [| | |apply cli_finish_ok]; lia.
    + destruct Hstep as (Hst & Hconv & Hfail).
      unfold outcome_ok. cbn [fst snd].
      repeat split; [intros Hc; specialize (Hcalls Hc); lia|exact Hst| |now right].
      now rewrite Hconv.
Qed.

(** *** [process_message] *)


Lemma process_message_ok (counted : Prop) (core : Impl)
    (user_input : string) (w : World) :
  is_connected core = true ->
  (counted -> callbacks_only (cli_runs w)) ->
  let r := process_message json_parse core user_input w in
  (counted -> transport_calls r.2 <= Z.to_nat (max_turns (options core)))
  /\ state r.1.2 = Idle
  /\ conversation core `prefix_of` conversation r.1.2
  /\ (succeeded 0 (Z.max 0 (max_turns (options core))) r.1.1
      \/ failure r.1.1).
Proof.
  intros Hconn Hruns. cbv zeta. unfold process_message. rewrite Hconn.
  cbn [negb]. destruct (use_cli_mode core).
  - unfold process_message_cli. cbn [fst snd].
    set (core1 := with_cancelled false (with_state Processing core)).
    set (l := mkCliLoop "" "" 0%Q 0%Z user_input false).
    pose proof (cli_loop_ok counted (cli_runs w)
                  (Z.to_nat (max_turns (options core1) - 0)) Hruns
                  (max_turns (options core1)) core1 l 0%Z eq_refl)
      as (H1 & H2 & H3 & H4).
    change (options core1) with (options core) in *.
    change (conversation core1) with (conversation core) in *.
    change (total_turns l) with 0%Z in *.
    rewrite transport_calls_app, transport_calls_logged by reflexivity.
    repeat split; [intros Hc; specialize (H1 Hc); lia|exact H2|exact H3|].
    destruct H4 as [(? & ? & ? & ?)|H4]; [left|now right].
    repeat split; try assumption; lia.
  - cbn [fst snd].
    set (core1 := with_conversation _ _).
    pose proof (api_loop_ok counted
                  (Z.to_nat (max_turns (options core1) - 0))
                  (max_turns (options core1)) (transfers w) core1 0%Z ""
                  eq_refl)
      as (H1 & H2 & H3 & H4).
    change (options core1) with (options core) in *.
    rewrite transport_calls_app, transport_calls_logged by reflexivity.
    repeat split; [intros Hc; specialize (H1 Hc); lia|exact H2| |exact H4].
    etransitivity; [|exact H3]. subst core1. cbn. now apply prefix_app_r.
Qed.

(** Without a turn to run, [process_message] reports a success with an
    empty answer. *)
Lemma process_message_no_budget (core : Impl) (user_input : string)
    (w : World) :
  is_connected core = true ->
  (max_turns (options core) <= 0)%Z ->
  let r := process_message json_parse core user_input w in
  success r.1.1 = true /\ res_response r.1.1 = ""
  /\ turns_used r.1.1 = 0%Z /\ transport_calls r.2 = 0.
Proof.
  intros Hconn Hmax. cbv zeta. unfold process_message. rewrite Hconn.
  cbn [negb]. destruct (use_cli_mode core).
  - unfold process_message_cli. cbn [fst snd]. rewrite cli_loop_eq.
    cbn [options with_cancelled with_state].
    destruct (Z_lt_dec 0 (max_turns (options core))); [lia|].
    unfold cli_finish. cbn [fst snd success res_response turns_used
                            cli_full_response total_turns].
    rewrite !transport_calls_app, !transport_calls_logged by reflexivity.
    repeat split.
  - cbn [fst snd]. rewrite api_loop_eq.
    cbn [options with_cancelled with_state with_conversation].
    destruct (Z_lt_dec 0 (max_turns (options core))); [lia|].
    unfold api_finish. cbn [fst snd success res_response turns_used].
    rewrite !transport_calls_app, !transport_calls_logged by reflexivity.
    repeat split.
Qed.

Lemma not_connected (core : Impl) (user_input : string) (w : World) :
  is_connected core = false ->
  process_message json_parse core user_input w
  = (mkProcessResult false "" 0 None "Not connected" false, core, []).
Proof. intros H. unfold process_message. now rewrite H. Qed.

End CoreOutcomes.

(** ** The properties *)

Section Extras.
Import Types.

Variable json_parse : string -> option Json.t.

(** X1: decoding the URL-safe Base64 encoding of a string gives the
    string back, for every string of bytes; so two strings with the same
    encoding are equal. *)
Theorem base64_url_decode_encode :
  (forall s, Base64.base64_url_decode (Base64.base64_url_encode s) = s)
  /\ (forall s t,
        Base64.base64_url_encode s = Base64.base64_url_encode t -> s = t).
Proof.
  split; [exact base64_url_round_trip|].
  intros s t H.
  rewrite <- (base64_url_round_trip s), <- (base64_url_round_trip t).
  now rewrite H.
Qed.

(** X2: every character of a URL-safe Base64 encoding belongs to the
    64-character alphabet; in particular the encoding holds no slash, no
    plus sign and no padding character. *)
Theorem base64_url_encode_alphabet (s : string) :
  within Base64.base64_url_chars (Base64.base64_url_encode s) = true
  /\ Str.find_char "/" (Base64.base64_url_encode s) = None
  /\ Str.find_char "+" (Base64.base64_url_encode s) = None
  /\ Str.find_char "=" (Base64.base64_url_encode s) = None.
Proof.
  pose proof (within_base64_url_encode s) as H.
  repeat split; [exact H|..];
    now apply (within_find_char Base64.base64_url_chars).
Qed.

(** X3: the URL-safe Base64 encoding of n bytes has
    (4n + 2) / 3 characters (integer division): four characters per
    three bytes, without padding. *)
Theorem base64_url_encode_size (s : string) :
  Str.size (Base64.base64_url_encode s) = (4 * Str.size s + 2) / 3.
Proof. apply size_base64_url_encode. Qed.

(** X4: the input of trim is whitespace, then the result, then
    whitespace; and the result neither starts nor ends with a
    whitespace character. *)
Theorem trim_result (s : string) :
  exists l r,
    s = l +:+ Str.trim s +:+ r
    /\ within Str.WHITESPACE l = true
    /\ within Str.WHITESPACE r = true
    /\ (forall c t, Str.trim s = String c t ->
                    Str.mem c Str.WHITESPACE = false)
    /\ (forall c, Str.back (Str.trim s) = Some c ->
                  Str.mem c Str.WHITESPACE = false).
Proof.
  destruct (trim_shape s) as (l & r & Hs & Hl & Hr & Hends).
  exists l, r. repeat split; try assumption.
  - intros c t Ht. destruct Hends as [He|(c0 & rest & m & c' & H1 & _ & Hc & _)];
      congruence.
  - intros c Hb. destruct Hends as [He|(c0 & rest & m & c' & _ & H2 & _ & Hc)].
    + now rewrite He in Hb.
    + rewrite H2, back_app_last in Hb. congruence.
Qed.

(** X5: trim is idempotent. *)
Theorem trim_idempotent (s : string) : Str.trim (Str.trim s) = Str.trim s.
Proof. apply trim_trim. Qed.

(** X6: joining the tokens of split with the delimiter gives the text
    back, except that a delimiter at the very end of the text is
    lost. *)
Theorem join_split (s : string) (delimiter : ascii) :
  Util.join (Util.split s delimiter) (String delimiter "")
  = if Util.ends_with s (String delimiter "") then Str.pop_back s else s.
Proof.
  unfold Util.split. rewrite join_split_loop. apply Str.app_nil_l.
Qed.

(** X7: no token of split holds the delimiter; and splitting the join
    of parts that hold no delimiter, the last of which is not empty,
    gives the parts back. *)
Theorem split_join (delimiter : ascii) :
  (forall s,
     Forall (fun token => Str.find_char delimiter token = None)
            (Util.split s delimiter))
  /\ (forall parts,
        Forall (fun part => Str.find_char delimiter part = None) parts ->
        last parts <> Some "" ->
        Util.split (Util.join parts (String delimiter "")) delimiter = parts).
Proof.
  split.
  - intros s. now apply split_loop_tokens.
  - apply split_join_parts.
Qed.

(** X8: the result of html_escape holds none of the characters
    <, >, double quote and single quote. *)
Theorem html_escape_markup_free (s : string) :
  Str.find_char "<" (Util.html_escape s) = None
  /\ Str.find_char ">" (Util.html_escape s) = None
  /\ Str.find_char Str.DQ (Util.html_escape s) = None
  /\ Str.find_char "'" (Util.html_escape s) = None.
Proof.
  repeat split; apply html_escape_markup; unfold markup; auto.
Qed.

(** X9: html_escape distributes over concatenation and loses no
    information: two texts with the same escaped form are equal. *)
Theorem html_escape_injective :
  (forall a b,
     Util.html_escape (a +:+ b) = Util.html_escape a +:+ Util.html_escape b)
  /\ (forall a b, Util.html_escape a = Util.html_escape b -> a = b).
Proof. split; [exact html_escape_app|exact html_escape_inj]. Qed.

(** X10: replace_all with an empty pattern returns the text; with a
    non-empty pattern it replaces the occurrences found from left to
    right, each search starting after the occurrence before, and never
    looks into the replacement text.  Every text has such a reading. *)
Theorem replace_all_occurrences :
  (forall s to, Util.replace_all s "" to = s)
  /\ (forall f from' s to pres tail,
        occurrences (String f from') s pres tail ->
        Util.replace_all s (String f from') to = replaced to pres tail)
  /\ (forall f from' s, exists pres tail,
        occurrences (String f from') s pres tail).
Proof.
  repeat split.
  - intros f from' s to pres tail Hocc. unfold Util.replace_all.
    pose proof (replace_loop_occurrences f from' to s pres tail Hocc "") as H.
    now rewrite !Str.app_nil_l in H.
  - apply occurrences_total.
Qed.

(** X11: the stripped text is the concatenation of the preceding texts
    of the extracted blocks, when there is a block; it is the text
    itself when there is none. *)
Theorem strip_is_preceding_texts (text : string) :
  Script.strip_idascript_blocks text
  = match Script.extract_idascript_blocks text with
    | [] => text
    | blocks => concat_texts (Script.preceding_text <$> blocks)
    end.
Proof. apply strip_extract. Qed.

(** X12: a text for which has_idascript_blocks is false yields no block
    and is left as it is by the stripping. *)
Theorem no_open_marker (text : string) :
  Script.has_idascript_blocks text = false ->
  Script.extract_idascript_blocks text = []
  /\ Script.strip_idascript_blocks text = text.
Proof. apply no_open_tag. Qed.

(** X13: the code of every extracted block is trimmed. *)
Theorem extracted_code_trimmed (text : string) :
  Forall (fun block => Str.trim (Script.code block) = Script.code block)
         (Script.extract_idascript_blocks text).
Proof. apply extract_code_trimmed. Qed.

(** X14: after any sequence of feed, finish and reset calls the block
    array and the array of JSON fragments of the parser have the same
    size. *)
Theorem parser_arrays_balanced (calls : list Parser.Call) :
  length (Parser.content_blocks (Parser.after json_parse calls))
  = length (Parser.partial_jsons (Parser.after json_parse calls)).
Proof. apply after_balanced. Qed.

(** X15: feed and finish never clear the error flag, never clear the
    completion flag and never drop the response. *)
Theorem parser_flags_settled (st : Parser.Impl) (data : string) :
  let fed := (Parser.feed json_parse st data).1 in
  let finished := (Parser.finish json_parse st).1 in
  (Parser.has_error st = true ->
   Parser.has_error fed = true /\ Parser.has_error finished = true)
  /\ (Parser.is_complete st = true ->
      Parser.is_complete fed = true /\ Parser.is_complete finished = true)
  /\ (is_Some (Parser.get_response st) ->
      is_Some (Parser.get_response fed)
      /\ is_Some (Parser.get_response finished)).
Proof.
  destruct (feed_finish_settled json_parse st) as [Hfeed Hfinish].
  destruct (Hfeed data) as (F1 & F2 & F3).
  destruct Hfinish as (G1 & G2 & G3).
  cbv zeta. unfold Parser.is_complete, Parser.get_response. auto.
Qed.

(** X16: after feed the line buffer holds no line feed: every complete
    line has been consumed. *)
Theorem feed_buffers_no_line_feed (st : Parser.Impl) (data : string) :
  Str.find_char Str.LF (Parser.buffer (Parser.feed json_parse st data).1)
  = None.
Proof. apply feed_no_newline. Qed.

(** X17: a stream fed in any number of chunks, cut anywhere, leaves the
    parser in the same state and delivers the same events as the stream
    fed in one piece. *)
Theorem run_any_chunking (chunks : list string) :
  Parser.run json_parse chunks = Parser.run json_parse [concat_texts chunks].
Proof. apply run_concat. Qed.

(** X18: finish leaves the line buffer empty, and a second finish
    changes nothing and delivers no event. *)
Theorem finish_idempotent (st : Parser.Impl) :
  Parser.buffer (Parser.finish json_parse st).1 = ""
  /\ Parser.finish json_parse (Parser.finish json_parse st).1
     = ((Parser.finish json_parse st).1, []).
Proof. split; [apply finish_buffer|apply finish_finish]. Qed.

(** X19: decoding the JSON of a content block gives the block back,
    whatever the block decoded into was. *)
Theorem content_block_round_trip (c d : ContentBlock) :
  Wire.from_json_content (Wire.to_json_content c) d = Some c.
Proof. apply from_json_to_json_content. Qed.

(** X20: the names of the stop reasons, of the message roles and of the
    authentication types are read back as the values they name. *)
Theorem enum_names_round_trip :
  (forall reason,
     stop_reason_from_str (Names.stop_reason_str reason) = reason)
  /\ (forall role,
        Names.message_role_from_str (message_role_str role) = role)
  /\ (forall type,
        Names.auth_type_from_str (Names.auth_type_str type) = type).
Proof. apply names_round_trip. Qed.

(** X21: the JSON of a message has the name of the role as "role" and
    the JSON of the content blocks, in order, as "content". *)
Theorem message_json_members (m : ClaudeMessage) :
  Json.member (Wire.to_json_message m) "role"
  = Some (Json.Str (message_role_str (msg_role m)))
  /\ Json.member (Wire.to_json_message m) "content"
     = Some (Json.Array (Wire.to_json_content <$> msg_content m)).
Proof. apply to_json_message_members. Qed.

(** X22: the JSON of a request always has "model", "max_tokens" and
    "messages" (the JSON of the messages, in order), and has "system",
    "tools", "temperature", "stream" and "thinking" with the request's
    values whenever the field is present in the request. *)
Theorem request_json_members (r : CreateMessageRequest) :
  let j := Wire.to_json_request r in
  Json.member j "model" = Some (Json.Str (req_model r))
  /\ Json.member j "max_tokens" = Some (Json.Int (req_max_tokens r))
  /\ Json.member j "messages"
     = Some (Json.Array (Wire.to_json_message <$> req_messages r))
  /\ (req_system r <> "" ->
      Json.member j "system" = Some (Json.Str (req_system r)))
  /\ (req_tools r <> [] ->
      Json.member j "tools"
      = Some (Json.Array (Wire.to_json_tool <$> req_tools r)))
  /\ (forall temperature,
        req_temperature r = Some temperature ->
        Json.member j "temperature" = Some (Json.Float temperature))
  /\ (req_stream r = true -> Json.member j "stream" = Some (Json.Bool true))
  /\ (forall cfg,
        req_thinking r = Some cfg -> enabled cfg = true ->
        Json.member j "thinking"
        = Some (Json.object [("type", Json.Str "enabled");
                             ("budget_tokens", Json.Int (budget_tokens cfg))])).
Proof. apply to_json_request_members. Qed.

(** X23: an event whose "type" is none of the seven names the decoder
    knows, and that has no "error" member, is decoded as an error event
    without a message; handling it puts the parser into the error state
    with the message "Unknown streaming error". *)
Theorem unknown_event_type_is_error (j : Json.t) (type_str : string)
    (st : Parser.Impl) :
  Json.value_string j "type" "" = Some type_str ->
  type_str ∉ known_event_types ->
  Json.contains j "error" = false ->
  Wire.from_json_event j = Some (event_of_type Error)
  /\ Parser.has_error
       (Parser.process_event json_parse st (event_of_type Error)) = true
  /\ Parser.get_error
       (Parser.process_event json_parse st (event_of_type Error))
     = "Unknown streaming error".
Proof.
  intros Hty Hun Herr. split.
  - exact (from_json_event_unknown j type_str Hty Hun Herr).
  - split; reflexivity.
Qed.

(** X24: a streaming call whose stream delivers an error event returns
    no response and adds nothing to the usage total, whatever else the
    stream holds. *)
Theorem error_event_discards_response (c : Client.ClaudeClient)
    (request : CreateMessageRequest) (transfer : Client.Transfer) :
  let sr := Client.send_message_streaming json_parse c request transfer in
  Exists (fun e => ev_type e = Error)
         (Client.sr_streamed sr ++ Client.sr_flushed sr) ->
  Client.sr_response sr = None
  /\ Client.total_usage (Client.sr_client sr) = Client.total_usage c.
Proof. apply send_message_streaming_error. Qed.

(** X25: a call of the client that returns no response, streaming or
    blocking, leaves the usage total as it was. *)
Theorem no_response_no_usage (c : Client.ClaudeClient) (call : Client.Call) :
  (Client.perform json_parse c call).1 = None ->
  Client.total_usage (Client.perform json_parse c call).2
  = Client.total_usage c.
Proof. apply perform_None. Qed.

(** X26: a streaming call posts a request exactly when the client is
    configured, and the body it posts is the JSON of the request with
    streaming switched on, whatever the request said. *)
Theorem streaming_posts_stream_true (c : Client.ClaudeClient)
    (request : CreateMessageRequest) (transfer : Client.Transfer) :
  let sr := Client.send_message_streaming json_parse c request transfer in
  (Client.is_configured c = false ->
   sr = Client.mkStreamResult None c None [] [])
  /\ (Client.is_configured c = true ->
      Client.sr_posted sr
      = Some (Wire.to_json_request (Client.with_stream true request)))
  /\ (forall body,
        Client.sr_posted sr = Some body ->
        Json.member body "stream" = Some (Json.Bool true)).
Proof.
  cbv zeta. repeat split.
  - intros H. now apply unconfigured_client.
  - intros H. unfold Client.send_message_streaming. rewrite H. cbn [negb].
    now destruct (Parser.has_error _).
  - intros body Hb. now apply send_message_streaming_body in Hb.
Qed.

(** X27: a connected engine makes at most max_turns transport calls
    during one process_message, in the network mode and in the
    command-line mode. *)
Theorem transport_calls_bounded (core : Core.Impl) (user_input : string)
    (w : Core.World) :
  Core.is_connected core = true ->
  callbacks_only (Core.cli_runs w) ->
  transport_calls (Core.process_message json_parse core user_input w).2
  <= Z.to_nat (Core.max_turns (Core.options core)).
Proof.
  intros Hconn Hruns.
  now apply (process_message_ok json_parse True core user_input w Hconn).
Qed.


(** X29: every result of process_message is a success (no error
    message, not cancelled, between 0 and max_turns turns) or a failure
    (no response, no turns, no cost, and either cancelled or an error
    message that is not empty). *)
Theorem process_message_outcome (core : Core.Impl) (user_input : string)
    (w : Core.World) :
  let res := (Core.process_message json_parse core user_input w).1.1 in
  succeeded 0 (Z.max 0 (Core.max_turns (Core.options core))) res
  \/ failure res.
Proof.
  cbv zeta. destruct (Core.is_connected core) eqn:Hconn.
  - destruct (process_message_ok json_parse False core user_input w Hconn)
      as (_ & _ & _ & H4); [easy|exact H4].
  - rewrite not_connected by exact Hconn. right.
    unfold failure. cbn. intuition congruence.
Qed.

(** X30: with a turn budget of zero or less, process_message on a
    connected engine contacts nobody and reports a success with an empty
    answer after zero turns. *)
Theorem no_budget_success (core : Core.Impl) (user_input : string)
    (w : Core.World) :
  Core.is_connected core = true ->
  (Core.max_turns (Core.options core) <= 0)%Z ->
  let r := Core.process_message json_parse core user_input w in
  Core.success r.1.1 = true /\ Core.res_response r.1.1 = ""
  /\ Core.turns_used r.1.1 = 0%Z /\ transport_calls r.2 = 0.
Proof. apply process_message_no_budget. Qed.

End Extras.

(** ** Instances *)

(** A text without markers. *)
Lemma no_open_marker_witness :
  Script.extract_idascript_blocks "hello" = []
  /\ Script.strip_idascript_blocks "hello" = "hello".
Proof. apply (no_open_marker "hello"). reflexivity. Defined.

(** An event of a type that the decoder does not know. *)
Lemma unknown_event_type_is_error_witness :
  let j := Json.object [("type", Json.Str "future_event")] in
  let e := Types.event_of_type Types.Error in
  Wire.from_json_event j = Some e
  /\ Parser.has_error
       (Parser.process_event Sample.json_parse Parser.new_parser e) = true
  /\ Parser.get_error
       (Parser.process_event Sample.json_parse Parser.new_parser e)
     = "Unknown streaming error".
Proof.
  apply (unknown_event_type_is_error Sample.json_parse
           (Json.object [("type", Json.Str "future_event")])
           "future_event" Parser.new_parser).
  - reflexivity.
  - apply (bool_decide_unpack _). vm_compute. reflexivity.
  - reflexivity.
Defined.

(** A stream that holds one error event. *)
Lemma error_event_discards_response_witness :
  let error_document := Sample.DObj [("type", Sample.DStr "error")] in
  let json_parse := Sample.parse_known [error_document] in
  let request :=
    Types.mkCreateMessageRequest "claude" [Types.ClaudeMessage_user "hi"] ""
                                 [] 8192 None true None in
  let transfer :=
    Client.mkTransfer [Sample.data_line error_document] None in
  let sr :=
    Client.send_message_streaming json_parse Sample.client request transfer in
  Client.sr_response sr = None
  /\ Client.total_usage (Client.sr_client sr)
     = Client.total_usage Sample.client.
Proof.
  intros error_document json_parse request transfer.
  apply (error_event_discards_response json_parse Sample.client request
           transfer).
  vm_compute. apply Exists_cons_hd. reflexivity.
Defined.

(** A blocking call whose HTTP request fails. *)
Lemma no_response_no_usage_witness :
  let request :=
    Types.mkCreateMessageRequest "claude" [Types.ClaudeMessage_user "hi"] ""
                                 [] 8192 None false None in
  let call := Client.Blocking request None in
  Client.total_usage (Client.perform Sample.json_parse Sample.client call).2
  = Client.total_usage Sample.client.
Proof.
  intros request call.
  apply (no_response_no_usage Sample.json_parse Sample.client call).
  reflexivity.
Defined.

(** One message on the sample engine, with a budget of 20 turns. *)
Lemma transport_calls_bounded_witness :
  transport_calls
    (Core.process_message Sample.json_parse (Sample.core 20) "hi"
                          (Sample.world Sample.hello_stream)).2
  <= Z.to_nat (Core.max_turns (Core.options (Sample.core 20))).
Proof.
  apply (transport_calls_bounded Sample.json_parse (Sample.core 20) "hi"
           (Sample.world Sample.hello_stream)).
  - reflexivity.
  - intros turn. reflexivity.
Defined.


(** One message on the sample engine, with a budget of no turn. *)
Lemma no_budget_success_witness :
  let r := Core.process_message Sample.json_parse (Sample.core 0) "hi"
                                (Sample.world Sample.hello_stream) in
  Core.success r.1.1 = true /\ Core.res_response r.1.1 = ""
  /\ Core.turns_used r.1.1 = 0%Z /\ transport_calls r.2 = 0.
Proof.
  apply (no_budget_success Sample.json_parse (Sample.core 0) "hi"
           (Sample.world Sample.hello_stream)).
  - reflexivity.
  - vm_compute. discriminate.
Defined.
